(** * typeinfer: schema inference, unification and the two renderers

  A shallow embedding of [src/utils/inferSchema.ts],
  [src/generators/typescript.ts], [src/generators/jsonSchema.ts] and of
  [dedupeUnions] from [src/index.ts], followed by the properties of the
  specification that are stated about them. *)

From Stdlib Require Import List String Ascii Bool ZArith NArith Lia.
From Stdlib Require Import DecimalString Permutation Sorted.
From Stdlib Require Import Floats.SpecFloat.
Import ListNotations.

Local Open Scope list_scope.
Local Open Scope string_scope.

Set Warnings "-register-all".

(* ================================================================== *)
(** ** The JavaScript values the program handles *)
(* ================================================================== *)

Module JS.

(** Values whose [typeof] is neither 'object', 'string', 'number',
    'boolean' nor 'undefined'. *)
Inductive exotic := Function | Symbol | BigInt.

Definition typeof_exotic (e : exotic) : string :=
  match e with
  | Function => "function"
  | Symbol => "symbol"
  | BigInt => "bigint"
  end.

(** A runtime value handed to [inferSchema].  Numbers are IEEE-754
    binary64 values, given by their specification-level description;
    strings are byte strings; objects list their own enumerable
    properties in the order of [Object.entries]. *)
Inductive value :=
| VUndefined
| VNull
| VBoolean (b : bool)
| VNumber (x : spec_float)
| VString (s : string)
| VArray (items : list value)
| VObject (entries : list (string * value))
| VExotic (e : exotic).

(** [value !== undefined] *)
Definition is_defined (v : value) : bool :=
  match v with VUndefined => false | _ => true end.

(** [Number.isInteger]: finite and without fractional part.  A finite
    nonzero binary64 is [m * 2^e]. *)
Definition Number_isInteger (x : spec_float) : bool :=
  match x with
  | S754_zero _ => true
  | S754_infinity _ => false
  | S754_nan => false
  | S754_finite _ m e =>
      if (0 <=? e)%Z then true
      else (Z.pos m mod 2 ^ (- e) =? 0)%Z
  end.

Definition is_finite (x : spec_float) : bool :=
  match x with
  | S754_zero _ | S754_finite _ _ _ => true
  | S754_infinity _ | S754_nan => false
  end.

(** *** Ordinary objects as ordered association lists

    Own property keys are enumerated with the array indices first, in
    ascending numeric order, then the other string keys in creation
    order. *)

Definition digit_value (c : ascii) : option N :=
  let n := N_of_ascii c in
  if ((48 <=? n) && (n <=? 57))%N then Some (n - 48)%N else None.

Fixpoint digits_value (s : string) (acc : N) : option N :=
  match s with
  | EmptyString => Some acc
  | String c s' =>
      match digit_value c with
      | Some d => digits_value s' (10 * acc + d)%N
      | None => None
      end
  end.

(** A key is an array index when it is the canonical decimal numeral of
    an integer below 2^32 - 1. *)
Definition array_index (k : string) : option N :=
  match k with
  | EmptyString => None
  | String "0" EmptyString => Some 0%N
  | String "0" _ => None
  | _ =>
      match digits_value k 0 with
      | Some n => if (n <? 4294967295)%N then Some n else None
      | None => None
      end
  end.

Section Objects.
Context {A : Type}.

Definition obj := list (string * A).

Fixpoint obj_get (k : string) (o : obj) : option A :=
  match o with
  | [] => None
  | (k', v) :: o' => if String.eqb k k' then Some v else obj_get k o'
  end.

Definition obj_has (k : string) (o : obj) : bool :=
  match obj_get k o with Some _ => true | None => false end.

Fixpoint obj_replace (k : string) (v : A) (o : obj) : obj :=
  match o with
  | [] => []
  | (k', v') :: o' =>
      if String.eqb k k' then (k', v) :: o'
      else (k', v') :: obj_replace k v o'
  end.

(** Position of a fresh array-index key: before the first key that
    is not an array index or is a larger one. *)
Fixpoint obj_insert_index (n : N) (k : string) (v : A) (o : obj) : obj :=
  match o with
  | [] => [(k, v)]
  | (k', v') :: o' =>
      match array_index k' with
      | Some n' =>
          if (n <? n')%N then (k, v) :: o
          else (k', v') :: obj_insert_index n k v o'
      | None => (k, v) :: o
      end
  end.

(** The own property [k] of [o] is created or overwritten with [v]
    (an object literal, a spread, [JSON.parse], or an assignment to a key
    other than [__proto__]). *)
Definition obj_set (k : string) (v : A) (o : obj) : obj :=
  if obj_has k o then obj_replace k v o
  else match array_index k with
       | Some n => obj_insert_index n k v o
       | None => (o ++ [(k, v)])%list
       end.

(** [delete o[k]] *)
Fixpoint obj_delete (k : string) (o : obj) : obj :=
  match o with
  | [] => []
  | (k', v') :: o' =>
      if String.eqb k k' then o' else (k', v') :: obj_delete k o'
  end.

(** [o[k] = v] with a computed key: [__proto__] is the accessor
    inherited from [Object.prototype], and assigning to it creates no own
    property; an own property of that name, which [JSON.parse] can
    create, is overwritten like any other. *)
Definition obj_put (k : string) (v : A) (o : obj) : obj :=
  if String.eqb k "__proto__" then
    if obj_has k o then obj_set k v o else o
  else obj_set k v o.

(** [Object.assign(o, src)] for the own properties [src] of the source:
    one assignment per property. *)
Definition obj_assign (o src : obj) : obj :=
  fold_left (fun acc kv => obj_put (fst kv) (snd kv) acc) src o.

(** [{ ...o, ...src }]: the properties of [src] are defined on a copy
    of [o]. *)
Definition obj_spread (o src : obj) : obj :=
  fold_left (fun acc kv => obj_set (fst kv) (snd kv) acc) src o.

Definition obj_keys (o : obj) : list string := map fst o.
Definition obj_values (o : obj) : list A := map snd o.
End Objects.

Arguments obj A : clear implicits.

(** The two ways a call completes. *)
Inductive completion (A : Type) :=
| Normal (v : A)
| Throw (error : string).
Arguments Normal {A} v.
Arguments Throw {A} error.

(** A call of a function whose body contains no [throw] and calls
    nothing that throws completes normally with the returned value. *)
Definition call {A B : Type} (f : A -> B) (x : A) : completion B :=
  Normal (f x).

End JS.

(* ================================================================== *)
(** ** Anchored regular expressions ([/^...$/.test(s)]) *)
(* ================================================================== *)

Module Regex.

Inductive regex :=
| Void
| Eps
| Class (p : ascii -> bool)
| Cat (r1 r2 : regex)
| Or (r1 r2 : regex)
| Star (r : regex).

Fixpoint nullable (r : regex) : bool :=
  match r with
  | Void => false
  | Eps => true
  | Class _ => false
  | Cat r1 r2 => nullable r1 && nullable r2
  | Or r1 r2 => nullable r1 || nullable r2
  | Star _ => true
  end.

Fixpoint deriv (c : ascii) (r : regex) : regex :=
  match r with
  | Void => Void
  | Eps => Void
  | Class p => if p c then Eps else Void
  | Cat r1 r2 =>
      if nullable r1 then Or (Cat (deriv c r1) r2) (deriv c r2)
      else Cat (deriv c r1) r2
  | Or r1 r2 => Or (deriv c r1) (deriv c r2)
  | Star r1 => Cat (deriv c r1) (Star r1)
  end.

(** The whole of [s] is in the language of [r]. *)
Fixpoint test (r : regex) (s : string) : bool :=
  match s with
  | EmptyString => nullable r
  | String c s' => test (deriv c r) s'
  end.

Definition between (lo hi : N) (c : ascii) : bool :=
  let n := N_of_ascii c in ((lo <=? n) && (n <=? hi))%N.

Definition digit : ascii -> bool := between 48 57.
Definition lower : ascii -> bool := between 97 122.
Definition upper : ascii -> bool := between 65 90.
Definition alpha (c : ascii) : bool := lower c || upper c.
Definition alnum (c : ascii) : bool := alpha c || digit c.
Definition hex (c : ascii) : bool :=
  digit c || between 97 102 c || between 65 70 c.
Definition one_of (cs : string) (c : ascii) : bool :=
  existsb (Ascii.eqb c) (list_ascii_of_string cs).

Definition chr (c : ascii) : regex := Class (Ascii.eqb c).
Definition opt (r : regex) : regex := Or r Eps.
Definition plus (r : regex) : regex := Cat r (Star r).

(** [r{n}] *)
Fixpoint times (n : nat) (r : regex) : regex :=
  match n with
  | O => Eps
  | S n' => Cat r (times n' r)
  end.

(** [r{n,}] *)
Definition at_least (n : nat) (r : regex) : regex := Cat (times n r) (Star r).

Fixpoint seq (rs : list regex) : regex :=
  match rs with
  | [] => Eps
  | [r] => r
  | r :: rs' => Cat r (seq rs')
  end.

End Regex.


(* ================================================================== *)
(** ** JSON documents, [JSON.stringify] and [JSON.parse] *)
(* ================================================================== *)

Module Json.
Import JS.

(** A JSON value.  A number is kept as the text of its literal: the
    documents of this program hold strings, arrays and objects only, so
    the conversion to and from binary64 is never exercised. *)
Inductive json :=
| JNull
| JBool (b : bool)
| JNumber (literal : string)
| JString (s : string)
| JArray (items : list json)
| JObject (members : list (string * json)).

Definition dquote : ascii := "034"%char.
Definition backslash : ascii := "092"%char.
Definition newline : string := String "010"%char EmptyString.

(** Text written with single quotes for the double quotes of JSON. *)
Fixpoint json_text (s : string) : string :=
  match s with
  | EmptyString => EmptyString
  | String c s' =>
      String (if Ascii.eqb c "'"%char then dquote else c) (json_text s')
  end.

Definition hex_digit (n : N) : ascii :=
  if (n <? 10)%N then ascii_of_N (48 + n) else ascii_of_N (87 + n).

(** One character of a quoted string (QuoteJSONString). *)
Definition escape_char (c : ascii) : string :=
  let n := N_of_ascii c in
  if (n =? 8)%N then "\b"
  else if (n =? 9)%N then "\t"
  else if (n =? 10)%N then "\n"
  else if (n =? 12)%N then "\f"
  else if (n =? 13)%N then "\r"
  else if (n =? 34)%N then String backslash (String dquote EmptyString)
  else if (n =? 92)%N then "\\"
  else if (n <? 32)%N then
    "\u00" ++ String (hex_digit (n / 16))
                (String (hex_digit (n mod 16)) EmptyString)
  else String c EmptyString.

Fixpoint escape (s : string) : string :=
  match s with
  | EmptyString => EmptyString
  | String c s' => escape_char c ++ escape s'
  end.

Definition quote (s : string) : string :=
  String dquote (escape s) ++ String dquote EmptyString.

Fixpoint join (sep : string) (parts : list string) : string :=
  match parts with
  | [] => EmptyString
  | [p] => p
  | p :: rest => p ++ sep ++ join sep rest
  end.

(** The text of a non-scalar value from the texts of its parts
    (SerializeJSONObject and SerializeJSONArray): [stepback] is the
    indentation of the enclosing level, [gap] the indentation unit. *)
Definition enclose (opening closing gap stepback : string)
    (parts : list string) : string :=
  match parts with
  | [] => opening ++ closing
  | _ =>
      if String.eqb gap EmptyString then
        opening ++ join "," parts ++ closing
      else
        let indent := stepback ++ gap in
        opening ++ newline ++ indent
          ++ join ("," ++ newline ++ indent) parts
          ++ newline ++ stepback ++ closing
  end.

Fixpoint serialize (gap stepback : string) (v : json) : string :=
  match v with
  | JNull => "null"
  | JBool true => "true"
  | JBool false => "false"
  | JNumber literal => literal
  | JString s => quote s
  | JArray items =>
      enclose "[" "]" gap stepback
        (map (serialize gap (stepback ++ gap)) items)
  | JObject members =>
      enclose "{" "}" gap stepback
        (map (fun kv =>
                quote (fst kv)
                  ++ (if String.eqb gap EmptyString then ":" else ": ")
                  ++ serialize gap (stepback ++ gap) (snd kv))
             members)
  end.

(** [JSON.stringify(v)] and [JSON.stringify(v, null, 2)] *)
Definition JSON_stringify (v : json) : string := serialize "" "" v.
Definition JSON_stringify_indent2 (v : json) : string := serialize "  " "" v.

(** *** Parsing *)

Definition is_ws (c : ascii) : bool :=
  let n := N_of_ascii c in
  ((n =? 32) || (n =? 9) || (n =? 10) || (n =? 13))%N.

Fixpoint skip_ws (s : string) : string :=
  match s with
  | EmptyString => EmptyString
  | String c s' => if is_ws c then skip_ws s' else s
  end.

Definition hex_value (c : ascii) : option N :=
  let n := N_of_ascii c in
  if ((48 <=? n) && (n <=? 57))%N then Some (n - 48)%N
  else if ((97 <=? n) && (n <=? 102))%N then Some (n - 87)%N
  else if ((65 <=? n) && (n <=? 70))%N then Some (n - 55)%N
  else None.

Definition hex4 (a b c d : ascii) : option N :=
  match hex_value a, hex_value b, hex_value c, hex_value d with
  | Some x, Some y, Some z, Some w =>
      Some (((x * 16 + y) * 16 + z) * 16 + w)%N
  | _, _, _, _ => None
  end.

(** The bytes of one 16-bit code unit written as [\uXXXX]; a surrogate
    is encoded on its own, like any other unit above 0x7FF. *)
Definition encode_unit (n : N) : string :=
  if (n <? 128)%N then String (ascii_of_N n) EmptyString
  else if (n <? 2048)%N then
    String (ascii_of_N (192 + n / 64))
      (String (ascii_of_N (128 + n mod 64)) EmptyString)
  else
    String (ascii_of_N (224 + n / 4096))
      (String (ascii_of_N (128 + (n / 64) mod 64))
         (String (ascii_of_N (128 + n mod 64)) EmptyString)).

Definition simple_escape (c : ascii) : option ascii :=
  let n := N_of_ascii c in
  if (n =? 34)%N then Some dquote
  else if (n =? 92)%N then Some backslash
  else if (n =? 47)%N then Some "/"%char
  else if (n =? 98)%N then Some "008"%char
  else if (n =? 102)%N then Some "012"%char
  else if (n =? 110)%N then Some "010"%char
  else if (n =? 114)%N then Some "013"%char
  else if (n =? 116)%N then Some "009"%char
  else None.

Definition prepend (p : string) (r : option (string * string))
  : option (string * string) :=
  match r with
  | Some (s, rest) => Some (p ++ s, rest)
  | None => None
  end.

(** The characters of a string literal after its opening quote: the
    decoded string and the text that follows the closing quote. *)
Fixpoint parse_string_chars (s : string) : option (string * string) :=
  match s with
  | EmptyString => None
  | String c s' =>
      if Ascii.eqb c dquote then Some (EmptyString, s')
      else if Ascii.eqb c backslash then
        match s' with
        | EmptyString => None
        | String e s'' =>
            match simple_escape e with
            | Some ch => prepend (String ch EmptyString) (parse_string_chars s'')
            | None =>
                if Ascii.eqb e "u"%char then
                  match s'' with
                  | String h1 (String h2 (String h3 (String h4 rest))) =>
                      match hex4 h1 h2 h3 h4 with
                      | Some n => prepend (encode_unit n) (parse_string_chars rest)
                      | None => None
                      end
                  | _ => None
                  end
                else None
            end
        end
      else if (N_of_ascii c <? 32)%N then None
      else prepend (String c EmptyString) (parse_string_chars s')
  end.

Definition is_digit (c : ascii) : bool :=
  let n := N_of_ascii c in ((48 <=? n) && (n <=? 57))%N.

(** The longest prefix of digits and what follows it. *)
Fixpoint span_digits (s : string) : string * string :=
  match s with
  | String c s' =>
      if is_digit c then
        let (d, rest) := span_digits s' in (String c d, rest)
      else (EmptyString, s)
  | EmptyString => (EmptyString, EmptyString)
  end.

(** [s] without its first character, when that is [c]. *)
Definition starts_with (c : ascii) (s : string) : option string :=
  match s with
  | String c' rest => if Ascii.eqb c' c then Some rest else None
  | EmptyString => None
  end.

Definition parse_int_part (s : string) : option (string * string) :=
  match starts_with "0" s with
  | Some rest => Some ("0", rest)
  | None =>
      match span_digits s with
      | (EmptyString, _) => None
      | (d, rest) => Some (d, rest)
      end
  end.

Definition parse_frac_part (s : string) : option (string * string) :=
  match starts_with "." s with
  | Some s' =>
      match span_digits s' with
      | (EmptyString, _) => None
      | (d, rest) => Some (String "." d, rest)
      end
  | None => Some (EmptyString, s)
  end.

Definition parse_exp_digits (mark : string) (s : string)
  : option (string * string) :=
  match span_digits s with
  | (EmptyString, _) => None
  | (d, rest) => Some (mark ++ d, rest)
  end.

Definition parse_exp_part (s : string) : option (string * string) :=
  match s with
  | String c s' =>
      if Ascii.eqb c "e"%char || Ascii.eqb c "E"%char then
        match s' with
        | String sg s'' =>
            if Ascii.eqb sg "+"%char || Ascii.eqb sg "-"%char
            then parse_exp_digits (String c (String sg EmptyString)) s''
            else parse_exp_digits (String c EmptyString) s'
        | EmptyString => None
        end
      else Some (EmptyString, s)
  | EmptyString => Some (EmptyString, s)
  end.

(** [-? int frac? exp?] *)
Definition parse_number (s : string) : option (string * string) :=
  let (sign, s0) :=
    match starts_with "-" s with
    | Some s' => ("-", s')
    | None => (EmptyString, s)
    end in
  match parse_int_part s0 with
  | None => None
  | Some (i, s1) =>
      match parse_frac_part s1 with
      | None => None
      | Some (f, s2) =>
          match parse_exp_part s2 with
          | None => None
          | Some (e, s3) => Some (sign ++ i ++ f ++ e, s3)
          end
      end
  end.

(** [s] without its prefix [word]. *)
Fixpoint strip_prefix (word s : string) : option string :=
  match word with
  | EmptyString => Some s
  | String w word' =>
      match s with
      | String c s' => if Ascii.eqb c w then strip_prefix word' s' else None
      | EmptyString => None
      end
  end.

Definition expect (word : string) (v : json) (s : string)
  : option (json * string) :=
  match strip_prefix word s with
  | Some rest => Some (v, rest)
  | None => None
  end.

(** A value that is neither an array nor an object. *)
Definition parse_scalar (s : string) : option (json * string) :=
  match s with
  | EmptyString => None
  | String c s' =>
      if Ascii.eqb c dquote then
        match parse_string_chars s' with
        | Some (str, rest) => Some (JString str, rest)
        | None => None
        end
      else if Ascii.eqb c "t"%char then expect "true" (JBool true) s
      else if Ascii.eqb c "f"%char then expect "false" (JBool false) s
      else if Ascii.eqb c "n"%char then expect "null" JNull s
      else
        match parse_number s with
        | Some (lit, rest) => Some (JNumber lit, rest)
        | None => None
        end
  end.

(** Recursive descent; every nested call spends one unit of [fuel], and
    a value read from [n] characters needs no more than [2 * n + 1]. *)
Fixpoint parse_value (fuel : nat) (s : string) : option (json * string) :=
  match fuel with
  | O => None
  | S fuel' =>
      match starts_with "{" s with
      | Some s' =>
          match starts_with "}" (skip_ws s') with
          | Some rest => Some (JObject [], rest)
          | None => parse_members fuel' [] (skip_ws s')
          end
      | None =>
          match starts_with "[" s with
          | Some s' =>
              match starts_with "]" (skip_ws s') with
              | Some rest => Some (JArray [], rest)
              | None => parse_elements fuel' [] (skip_ws s')
              end
          | None => parse_scalar s
          end
      end
  end

with parse_elements (fuel : nat) (acc : list json) (s : string)
  : option (json * string) :=
  match fuel with
  | O => None
  | S fuel' =>
      match parse_value fuel' s with
      | None => None
      | Some (v, rest) =>
          match starts_with "," (skip_ws rest) with
          | Some rest' => parse_elements fuel' (v :: acc) (skip_ws rest')
          | None =>
              match starts_with "]" (skip_ws rest) with
              | Some rest' => Some (JArray (rev (v :: acc)), rest')
              | None => None
              end
          end
      end
  end

with parse_members (fuel : nat) (acc : obj json) (s : string)
  : option (json * string) :=
  match fuel with
  | O => None
  | S fuel' =>
      match starts_with dquote s with
      | None => None
      | Some s' =>
          match parse_string_chars s' with
          | None => None
          | Some (k, rest) =>
              match starts_with ":" (skip_ws rest) with
              | None => None
              | Some rest' =>
                  match parse_value fuel' (skip_ws rest') with
                  | None => None
                  | Some (v, rest2) =>
                      let acc' := obj_set k v acc in
                      match starts_with "," (skip_ws rest2) with
                      | Some rest3 => parse_members fuel' acc' (skip_ws rest3)
                      | None =>
                          match starts_with "}" (skip_ws rest2) with
                          | Some rest3 => Some (JObject acc', rest3)
                          | None => None
                          end
                      end
                  end
              end
          end
      end
  end.

(** [JSON.parse(text)]; [None] stands for the SyntaxError it throws. *)
Definition JSON_parse (text : string) : option json :=
  match parse_value (2 * String.length text + 2) (skip_ws text) with
  | Some (v, rest) =>
      match skip_ws rest with
      | EmptyString => Some v
      | _ => None
      end
  | None => None
  end.

End Json.


(* ================================================================== *)
(** ** [src/utils/inferSchema.ts] *)
(* ================================================================== *)

Module InferSchema.
Import JS Json.

(** [interface SchemaType]: an absent optional field is [None].  The
    fields are listed in the order in which the object literals of the
    program create them ([type] first). *)
Inductive SchemaType := mkSchemaType {
  type : string;
  properties : option (list (string * SchemaType));
  items : option SchemaType;
  format : option string;
  required : option (list string);
  enum : option (list SchemaType)
}.

(** [{ type: t }] *)
Definition node (t : string) : SchemaType :=
  mkSchemaType t None None None None None.

(** [{ type: 'string', format: f }] *)
Definition string_node (f : string) : SchemaType :=
  mkSchemaType "string" None None (Some f) None None.

(** [{ type: 'array', items: child }] *)
Definition array_node (child : SchemaType) : SchemaType :=
  mkSchemaType "array" None (Some child) None None None.

(** [{ type: 'object', properties, required }] *)
Definition object_node (props : list (string * SchemaType))
    (req : option (list string)) : SchemaType :=
  mkSchemaType "object" (Some props) None None req None.

(** [{ type: 'union', enum: children }] *)
Definition union_node (children : list SchemaType) : SchemaType :=
  mkSchemaType "union" None None None None (Some children).

Definition optional_member {A : Type} (key : string) (to_json : A -> json)
    (field : option A) : list (string * json) :=
  match field with
  | Some x => [(key, to_json x)]
  | None => []
  end.

(** The JSON value that [JSON.stringify] serializes for a node: the
    fields that are not [undefined], in creation order. *)
Fixpoint schema_to_json (s : SchemaType) : json :=
  match s with
  | mkSchemaType ty props its fmt req en =>
      JObject
        ((("type", JString ty)
            :: optional_member "properties"
                 (fun ps => JObject
                    (map (fun kv => (fst kv, schema_to_json (snd kv))) ps))
                 props)
           ++ optional_member "items" schema_to_json its
           ++ optional_member "format" JString fmt
           ++ optional_member "required"
                (fun r => JArray (map JString r)) req
           ++ optional_member "enum"
                (fun l => JArray (map schema_to_json l)) en)%list
  end.

(** [JSON.stringify(schema)] *)
Definition stringify_schema (s : SchemaType) : string :=
  JSON_stringify (schema_to_json s).

Import Regex.

(** [/^\d{4}-\d{2}-\d{2}T\d{2}:\d{2}:\d{2}(\.\d+)?(Z|[+-]\d{2}:\d{2})$/] *)
Definition date_time_pattern : regex :=
  let d := Class digit in
  seq [times 4 d; chr "-"; times 2 d; chr "-"; times 2 d; chr "T";
       times 2 d; chr ":"; times 2 d; chr ":"; times 2 d;
       opt (Cat (chr ".") (plus d));
       Or (chr "Z")
          (seq [Class (one_of "+-"); times 2 d; chr ":"; times 2 d])].

(** [/^[a-zA-Z0-9._%+-]+@[a-zA-Z0-9.-]+\.[a-zA-Z]{2,}$/] *)
Definition email_pattern : regex :=
  seq [plus (Class (fun c => alnum c || one_of "._%+-" c));
       chr "@";
       plus (Class (fun c => alnum c || one_of ".-" c));
       chr ".";
       at_least 2 (Class alpha)].

(** [/^[0-9a-fA-F]{8}-[0-9a-fA-F]{4}-[0-9a-fA-F]{4}-[0-9a-fA-F]{4}-[0-9a-fA-F]{12}$/] *)
Definition uuid_pattern : regex :=
  let h := Class hex in
  seq [times 8 h; chr "-"; times 4 h; chr "-"; times 4 h; chr "-";
       times 4 h; chr "-"; times 12 h].

(** [typeof value] *)
Definition typeof (v : value) : string :=
  match v with
  | VUndefined => "undefined"
  | VNull => "object"
  | VBoolean _ => "boolean"
  | VNumber _ => "number"
  | VString _ => "string"
  | VArray _ => "object"
  | VObject _ => "object"
  | VExotic e => typeof_exotic e
  end.

Definition inferPrimitiveSchema (v : value) : SchemaType :=
  match v with
  | VString s =>
      if test date_time_pattern s then string_node "date-time"
      else if test email_pattern s then string_node "email"
      else if test uuid_pattern s then string_node "uuid"
      else node "string"
  | VNumber x =>
      if Number_isInteger x then node "integer" else node "number"
  | VBoolean _ => node "boolean"
  | _ => node (typeof v)
  end.

(** The [forEach] of [mergeSchemas], one schema at a time: the schemas
    whose serialization was not seen before, in first-seen order, and
    the set of serializations seen. *)
Definition unique_step (acc : list SchemaType * list string)
    (s : SchemaType) : list SchemaType * list string :=
  let (uniqueSchemas, uniqueSchemaStrings) := acc in
  let sString := stringify_schema s in
  if existsb (String.eqb sString) uniqueSchemaStrings then acc
  else ((uniqueSchemas ++ [s])%list, (uniqueSchemaStrings ++ [sString])%list).

Definition collect_unique (schemas : list SchemaType)
  : list SchemaType * list string :=
  fold_left unique_step schemas ([], []).

Definition uniqueSchemas (schemas : list SchemaType) : list SchemaType :=
  fst (collect_unique schemas).

Definition mergeSchemas (schemas : list SchemaType) : SchemaType :=
  match schemas with
  | [] => node "any"
  | [only] => only
  | first :: _ =>
      let firstSchemaType := stringify_schema first in
      let allEffectivelySame :=
        forallb (fun s => String.eqb (stringify_schema s) firstSchemaType)
                schemas in
      if allEffectivelySame then first
      else
        match uniqueSchemas schemas with
        | [single] => single
        | unique => union_node unique
        end
  end.

(** The loop over [Object.entries(data)]: the properties and the keys
    whose value is not [undefined]. *)
Definition infer_entries (infer : value -> SchemaType)
    (entries : list (string * value))
  : list (string * SchemaType) * list string :=
  fold_left
    (fun (acc : list (string * SchemaType) * list string) kv =>
       let (props, req) := acc in
       (obj_put (fst kv) (infer (snd kv)) props,
        if is_defined (snd kv) then (req ++ [fst kv])%list else req))
    entries ([], []).

Fixpoint inferSchema (data : value) : SchemaType :=
  match data with
  | VNull | VUndefined => node "null"
  | VArray elements =>
      match elements with
      | [] => array_node (node "any")
      | _ => array_node (mergeSchemas (map inferSchema elements))
      end
  | VObject entries =>
      let (props, req) := infer_entries inferSchema entries in
      object_node props
        (match req with [] => None | _ => Some req end)
  | _ => inferPrimitiveSchema data
  end.

End InferSchema.


(* ================================================================== *)
(** ** The options shared by the two generators *)
(* ================================================================== *)

Record GenerateOptions := mkGenerateOptions {
  inferOptional : bool;
  prettify : bool;
  interfaceName : option string
}.

(** [name || fallback]: the empty string is falsy. *)
Definition or_default (name : option string) (fallback : string) : string :=
  match name with
  | Some n => if String.eqb n EmptyString then fallback else n
  | None => fallback
  end.

(* ================================================================== *)
(** ** [src/generators/typescript.ts] *)
(* ================================================================== *)

Module TypeScript.
Import JS Json InferSchema.

(** ['  '.repeat(n)] *)
Fixpoint repeat_indent (n : nat) : string :=
  match n with
  | O => EmptyString
  | S n' => "  " ++ repeat_indent n'
  end.

Definition format_is (fmt : option string) (name : string) : bool :=
  match fmt with
  | Some f => String.eqb f name
  | None => false
  end.

(** [schema.required?.includes(key)] *)
Definition isRequired (req : option (list string)) (key : string) : bool :=
  match req with
  | Some r => existsb (String.eqb key) r
  | None => false
  end.

(** A [schema] of the model is always an object, so the guard
    [if (!schema) return 'any'] never fires. *)
Fixpoint generateTypeScriptFromSchema (schema : SchemaType)
    (options : GenerateOptions) (depth : nat) : string :=
  match schema with
  | mkSchemaType ty props its fmt req en =>
      if String.eqb ty "null" then "null"
      else if String.eqb ty "string" then
        if format_is fmt "date-time" then "Date"
        else if format_is fmt "email" then "string"
        else if format_is fmt "uuid" then "string"
        else "string"
      else if String.eqb ty "number" then "number"
      else if String.eqb ty "integer" then "number"
      else if String.eqb ty "boolean" then "boolean"
      else if String.eqb ty "array" then
        let itemType :=
          match its with
          | Some child => generateTypeScriptFromSchema child options (depth + 1)
          | None => "any"
          end in
        itemType ++ "[]"
      else if String.eqb ty "object" then
        match props with
        | None => "Record<string, any>"
        | Some ps =>
            let indent := repeat_indent (depth + 1) in
            ("{" ++ newline)
              ++ String.concat EmptyString
                   (map (fun kv =>
                           let optionalMarker :=
                             if negb (isRequired req (fst kv))
                                && inferOptional options
                             then "?" else EmptyString in
                           indent ++ fst kv ++ optionalMarker ++ ": "
                             ++ generateTypeScriptFromSchema (snd kv) options
                                  (depth + 1)
                             ++ ";" ++ newline)
                        ps)
              ++ repeat_indent depth ++ "}"
        end
      else if String.eqb ty "union" then
        match en with
        | Some children =>
            join " | "
              (map (fun s => generateTypeScriptFromSchema s options depth)
                   children)
        | None => "any"
        end
      else "any"
  end.

(** [generateTypeScript] before the optional pass through prettier. *)
Definition generateTypeScript_unformatted (schema : SchemaType)
    (options : GenerateOptions) : string :=
  "interface " ++ or_default (interfaceName options) "GeneratedInterface"
    ++ " " ++ generateTypeScriptFromSchema schema options 0 ++ newline.

End TypeScript.

(* ================================================================== *)
(** ** [src/generators/jsonSchema.ts] *)
(* ================================================================== *)

Module JsonSchema.
Import JS Json InferSchema.

(** [if (schemaNode.format)]: present and not the empty string. *)
Definition truthy_string (s : option string) : option string :=
  match s with
  | Some f => if String.eqb f EmptyString then None else Some f
  | None => None
  end.

Definition string_array (l : list string) : json := JArray (map JString l).

(** The [required] statements of the 'object' case, applied to the node
    built so far. *)
Definition set_required (inferOpt : bool)
    (props : option (list (string * SchemaType)))
    (req : option (list string)) (jsonSchemaNode : obj json) : obj json :=
  let assigned :=
    if inferOpt then
      match req with
      | Some r =>
          match r with
          | [] => jsonSchemaNode
          | _ => obj_set "required" (string_array r) jsonSchemaNode
          end
      | None => jsonSchemaNode
      end
    else
      match props with
      | Some ps => obj_set "required" (string_array (obj_keys ps)) jsonSchemaNode
      | None => jsonSchemaNode
      end in
  match obj_get "required" assigned with
  | Some (JArray []) => obj_delete "required" assigned
  | _ => assigned
  end.

(** The members of the object the function returns.  The nodes of the
    model are objects, so [if (!schemaNode)] never fires and the filter
    [enum.filter(s => s)] keeps every child. *)
Fixpoint generateJsonSchemaFromSchema (schemaNode : SchemaType)
    (options : GenerateOptions) : obj json :=
  match schemaNode with
  | mkSchemaType ty props its fmt req en =>
      if String.eqb ty "null" then [("type", JString "null")]
      else if String.eqb ty "string" then
        match truthy_string fmt with
        | Some f => obj_set "format" (JString f) [("type", JString "string")]
        | None => [("type", JString "string")]
        end
      else if String.eqb ty "number" then [("type", JString "number")]
      else if String.eqb ty "integer" then [("type", JString "integer")]
      else if String.eqb ty "boolean" then [("type", JString "boolean")]
      else if String.eqb ty "array" then
        obj_set "items"
          (match its with
           | Some child => JObject (generateJsonSchemaFromSchema child options)
           | None => JObject []
           end)
          [("type", JString "array")]
      else if String.eqb ty "object" then
        let rendered :=
          match props with
          | Some ps =>
              fold_left
                (fun acc kv =>
                   obj_put (fst kv)
                     (JObject (generateJsonSchemaFromSchema (snd kv) options))
                     acc)
                ps []
          | None => []
          end in
        set_required (inferOptional options) props req
          (obj_set "properties" (JObject rendered)
             [("type", JString "object")])
      else if String.eqb ty "union" then
        let no_variants :=
          [("description",
            JString "Union type with no specific variants, effectively 'any'.")] in
        match en with
        | Some children =>
            match children with
            | [] => no_variants
            | _ =>
                let anyOf :=
                  map (fun s => JObject (generateJsonSchemaFromSchema s options))
                      children in
                match anyOf with
                | [] => []
                | _ => [("anyOf", JArray anyOf)]
                end
            end
        | None => no_variants
        end
      else [("description", JString ("Represents type: " ++ ty))]
  end.

(** The document object: [{ $schema, title, ...rendered }] *)
Definition schema_document (schema : SchemaType) (options : GenerateOptions)
  : json :=
  JObject
    (obj_spread
       [("$schema", JString "http://json-schema.org/draft-07/schema#");
        ("title", JString (or_default (interfaceName options) "GeneratedSchema"))]
       (generateJsonSchemaFromSchema schema options)).

Definition generateJsonSchema (schema : SchemaType) (options : GenerateOptions)
  : string :=
  if prettify options
  then JSON_stringify_indent2 (schema_document schema options)
  else JSON_stringify (schema_document schema options).

End JsonSchema.


(* ================================================================== *)
(** ** Backtracking regular expressions ([String.prototype.replace]) *)
(* ================================================================== *)

Module RegExp.

(** The constructs used by the patterns of [dedupeUnions]. *)
Inductive pattern :=
| Empty
| Char (p : ascii -> bool)
| Seq (a b : pattern)
| Alt (a b : pattern)             (* [a|b], [a] tried first *)
| Star (a : pattern)              (* greedy [a*] *)
| Group (n : nat) (a : pattern)   (* capturing group number [n] *)
| Backref (n : nat)               (* [\n] *)
| WordBoundary                    (* [\b] *)
| NotFollowedBy (a : pattern).    (* [(?!a)] *)

(** A position in the input: the character before it, the text from it
    on, and the groups captured so far. *)
Record state := mkState {
  prev : option ascii;
  rest : string;
  captures : list (nat * string)
}.

(** [\w] *)
Definition word (c : ascii) : bool :=
  Regex.alnum c || Ascii.eqb c "_"%char.

(** The characters of [\s] below U+0080 *)
Definition space (c : ascii) : bool :=
  let n := N_of_ascii c in
  (((9 <=? n) && (n <=? 13)) || (n =? 32))%N.

Definition word_before (st : state) : bool :=
  match prev st with Some c => word c | None => false end.

Definition word_after (st : state) : bool :=
  match rest st with String c _ => word c | EmptyString => false end.

Fixpoint capture (n : nat) (caps : list (nat * string)) : option string :=
  match caps with
  | [] => None
  | (m, s) :: caps' => if Nat.eqb n m then Some s else capture n caps'
  end.

(** The position [n] characters further. *)
Fixpoint advance (n : nat) (st : state) : state :=
  match n with
  | O => st
  | S n' =>
      match rest st with
      | String c r => advance n' (mkState (Some c) r (captures st))
      | EmptyString => st
      end
  end.

(** The text between two positions of the same input. *)
Definition text_between (from to : state) : string :=
  substring 0 (String.length (rest from) - String.length (rest to)) (rest from).

(** [run p st k]: match [p] at [st], then the continuation [k]; the
    alternatives are tried in the order of a backtracking matcher. *)
Fixpoint run (p : pattern) (st : state) (k : state -> option state)
    {struct p} : option state :=
  match p with
  | Empty => k st
  | Char f =>
      match rest st with
      | String c r => if f c then k (mkState (Some c) r (captures st)) else None
      | EmptyString => None
      end
  | Seq a b => run a st (fun st' => run b st' k)
  | Alt a b =>
      match run a st k with
      | Some r => Some r
      | None => run b st k
      end
  | Star a =>
      (fix iterate (fuel : nat) (st : state) {struct fuel} : option state :=
         match fuel with
         | O => k st
         | S fuel' =>
             match
               run a st
                 (fun st' =>
                    if Nat.ltb (String.length (rest st')) (String.length (rest st))
                    then iterate fuel' st' else None)
             with
             | Some r => Some r
             | None => k st
             end
         end) (String.length (rest st)) st
  | Group n a =>
      run a st
        (fun st' =>
           k (mkState (prev st') (rest st')
                ((n, text_between st st') :: captures st')))
  | Backref n =>
      match capture n (captures st) with
      | Some s =>
          if String.prefix s (rest st) then k (advance (String.length s) st)
          else None
      | None => k st
      end
  | WordBoundary =>
      if xorb (word_before st) (word_after st) then k st else None
  | NotFollowedBy a =>
      match run a st Some with
      | Some _ => None
      | None => k st
      end
  end.

(** A match of [p] that starts at this position: the matched text and
    the captures. *)
Definition match_at (p : pattern) (before : option ascii) (s : string)
  : option (string * list (nat * string)) :=
  let start := mkState before s [] in
  match run p start Some with
  | Some final => Some (text_between start final, captures final)
  | None => None
  end.

(** [s.replace(/p/g, f)]: the matches are sought from left to right on
    the original text; [skip] counts the characters of the last match
    still to be passed over. *)
Fixpoint replace_from (p : pattern)
    (f : string -> list (nat * string) -> string)
    (before : option ascii) (skip : nat) (s : string) : string :=
  match s with
  | EmptyString =>
      match skip, match_at p before s with
      | O, Some (matched, caps) => f matched caps
      | _, _ => EmptyString
      end
  | String c s' =>
      match skip with
      | S n => replace_from p f (Some c) n s'
      | O =>
          match match_at p before s with
          | Some (matched, caps) =>
              match String.length matched with
              | O => f matched caps ++ String c (replace_from p f (Some c) 0 s')
              | S n => f matched caps ++ replace_from p f (Some c) n s'
              end
          | None => String c (replace_from p f (Some c) 0 s')
          end
      end
  end.

Definition replace_all (p : pattern)
    (f : string -> list (nat * string) -> string) (s : string) : string :=
  replace_from p f None 0 s.

Definition lit (c : ascii) : pattern := Char (Ascii.eqb c).
Definition plus (a : pattern) : pattern := Seq a (Star a).
Definition opt (a : pattern) : pattern := Alt a Empty.

Fixpoint seq (ps : list pattern) : pattern :=
  match ps with
  | [] => Empty
  | [a] => a
  | a :: ps' => Seq a (seq ps')
  end.

Definition byte (n : N) : pattern := Char (fun c => (N_of_ascii c =? n)%N).

(** [\s]: the white space and the line terminators of ECMAScript.  A
    string holds the bytes of its UTF-8 encoding, so a character above
    U+007F is the sequence of its bytes: U+00A0, U+1680, U+2000 to
    U+200A, U+2028, U+2029, U+202F, U+205F, U+3000 and U+FEFF. *)
Definition white_space : pattern :=
  Alt (Char space)
  (Alt (seq [byte 194; byte 160])
  (Alt (seq [byte 225; byte 154; byte 128])
  (Alt (seq [byte 226; byte 128;
             Char (fun c => Regex.between 128 138 c
                            || Regex.between 168 169 c
                            || (N_of_ascii c =? 175)%N)])
  (Alt (seq [byte 226; byte 129; byte 159])
  (Alt (seq [byte 227; byte 128; byte 128])
       (seq [byte 239; byte 187; byte 191])))))).

End RegExp.

(* ================================================================== *)
(** ** [dedupeUnions] of [src/index.ts] *)
(* ================================================================== *)

Module Index.
Import JS Json RegExp.

Inductive output_format := typescript | jsonschema.

(** [(\b\w+(?:\[\])?\b)] as group [n] *)
Definition type_name (n : nat) : pattern :=
  Group n (seq [WordBoundary; plus (Char word);
                opt (Seq (lit "[") (lit "]")); WordBoundary]).

(** [/(\b\w+(?:\[\])?\b)\s*\|\s*\1(?!\w)/g] *)
Definition repeated_member : pattern :=
  seq [type_name 1; Star white_space; lit "|"; Star white_space;
       Backref 1; NotFollowedBy (Char word)].

(** [/(\b\w+(?:\[\])?\b)\s*\|\s*(\b\w+(?:\[\])?\b)/g] *)
Definition member_pair : pattern :=
  seq [type_name 1; Star white_space; lit "|"; Star white_space;
       type_name 2].

Definition group (n : nat) (caps : list (nat * string)) : string :=
  match capture n caps with Some s => s | None => EmptyString end.

(** The filter of [walk]: the members whose serialization was not seen
    before. *)
Fixpoint filter_unseen (seen : list string) (subs : list json) : list json :=
  match subs with
  | [] => []
  | sub :: subs' =>
      let key := JSON_stringify sub in
      if existsb (String.eqb key) seen then filter_unseen seen subs'
      else sub :: filter_unseen (seen ++ [key])%list subs'
  end.

Definition N_to_string (n : N) : string :=
  NilZero.string_of_uint (N.to_uint n).

Fixpoint indexed {A : Type} (i : N) (l : list A) : list (string * A) :=
  match l with
  | [] => []
  | x :: l' => (N_to_string i, x) :: indexed (i + 1) l'
  end.

(** The characters of a string, one for each byte: for text below
    U+0080 these are the code units whose properties [Object.assign]
    copies from a string. *)
Fixpoint characters (s : string) : list json :=
  match s with
  | EmptyString => []
  | String c s' => JString (String c EmptyString) :: characters s'
  end.

(** The own enumerable properties that [Object.assign] copies from a
    source value. *)
Definition own_entries (v : json) : obj json :=
  match v with
  | JObject members => members
  | JArray elements => indexed 0 elements
  | JString s => indexed 0 (characters s)
  | _ => []
  end.

(** The statements of [walk] before the descent into the values. *)
Definition collapse_anyOf (node : obj json) : obj json :=
  match obj_get "anyOf" node with
  | Some (JArray subs) =>
      let filtered := filter_unseen [] subs in
      let node' := obj_set "anyOf" (JArray filtered) node in
      match filtered with
      | [only] => obj_delete "anyOf" (obj_assign node' (own_entries only))
      | _ => node'
      end
  | _ => node
  end.

(** [walk]; the result is the value the mutated argument holds at the
    end.  [fuel] bounds the depth of the descent. *)
Fixpoint walk_fuel (fuel : nat) (node : json) : json :=
  match fuel with
  | O => node
  | S fuel' =>
      match node with
      | JObject members =>
          JObject (map (fun kv => (fst kv, walk_fuel fuel' (snd kv)))
                       (collapse_anyOf members))
      | JArray elements => JArray (map (walk_fuel fuel') elements)
      | _ => node
      end
  end.

Fixpoint depth (v : json) : nat :=
  match v with
  | JArray elements => S (fold_right (fun e d => Nat.max (depth e) d) 0 elements)
  | JObject members =>
      S (fold_right (fun kv d => Nat.max (depth (snd kv)) d) 0 members)
  | _ => 0
  end.

Definition walk (obj : json) : json := walk_fuel (S (depth obj)) obj.

Section DedupeUnions.

(** [String.prototype.localeCompare] depends on the collation of the
    host; the program only looks at the sign of its result. *)
Variable localeCompare : string -> string -> Z.

(** One turn of the [do ... while] loop. *)
Definition dedupe_pass (text : string) : string :=
  let collapsed := replace_all repeated_member (fun _ caps => group 1 caps) text in
  replace_all member_pair
    (fun matched caps =>
       let p1 := group 1 caps in
       let p2 := group 2 caps in
       if (localeCompare p1 p2 >? 0)%Z then p2 ++ " | " ++ p1 else matched)
    collapsed.

(** The loop, for at most [fuel] turns; [None] when it would go on. *)
Fixpoint dedupe_typescript (fuel : nat) (dedupedText : string) : option string :=
  match fuel with
  | O => None
  | S fuel' =>
      let previousText := dedupedText in
      let dedupedText := dedupe_pass dedupedText in
      if String.eqb previousText dedupedText then Some dedupedText
      else dedupe_typescript fuel' dedupedText
  end.

(** The [try] block; the [catch] returns the text.  [JSON.parse] is the
    only call of the block that fails here: the depth of nesting that an
    engine can parse, walk and print is not bounded in the model. *)
Definition dedupe_jsonschema (text : string) (prettify : bool) : string :=
  match JSON_parse text with
  | Some obj =>
      if prettify then JSON_stringify_indent2 (walk obj)
      else JSON_stringify (walk obj)
  | None => text
  end.

(** [fuel] bounds the turns of the interface-target loop; the other
    branch does not use it. *)
Definition dedupeUnions (fuel : nat) (text : string) (format : output_format)
    (prettify : bool) : option string :=
  match format with
  | typescript => dedupe_typescript fuel text
  | jsonschema => Some (dedupe_jsonschema text prettify)
  end.

End DedupeUnions.

End Index.


(* ================================================================== *)
(** ** Structural equality as the specification defines it *)
(* ================================================================== *)

Module Spec.
Import JS InferSchema.

Definition same_set (a b : list string) : bool :=
  forallb (fun x => existsb (String.eqb x) b) a
  && forallb (fun y => existsb (String.eqb y) a) b.

Definition same_option {A : Type} (eq : A -> A -> bool) (a b : option A) : bool :=
  match a, b with
  | Some x, Some y => eq x y
  | None, None => true
  | _, _ => false
  end.

(** Follows the specification (section 3), not the code: two nodes are
    equal when they agree on the type tag, the format, the element
    child, the field-to-child mapping taken without order, the required
    names taken as a set and the union children taken as a set. *)
Fixpoint structurally_equal (a b : SchemaType) {struct a} : bool :=
  match a, b with
  | mkSchemaType ta pa ia fa ra ea, mkSchemaType tb pb ib fb rb eb =>
      String.eqb ta tb
      && same_option String.eqb fa fb
      && same_option same_set ra rb
      && match ia, ib with
         | Some x, Some y => structurally_equal x y
         | None, None => true
         | _, _ => false
         end
      && match pa, pb with
         | Some psa, Some psb =>
             Nat.eqb (List.length psa) (List.length psb)
             && forallb
                  (fun kv =>
                     match obj_get (fst kv) psb with
                     | Some child => structurally_equal (snd kv) child
                     | None => false
                     end)
                  psa
         | None, None => true
         | _, _ => false
         end
      && match ea, eb with
         | Some la, Some lb =>
             forallb (fun x => existsb (fun y => structurally_equal x y) lb) la
             && forallb (fun y => existsb (fun x => structurally_equal x y) la) lb
         | None, None => true
         | _, _ => false
         end
  end.

End Spec.

(* ================================================================== *)
(** ** The invariant of union nodes, on serializations *)
(* ================================================================== *)

Module Invariant.
Import JS InferSchema.

(** No string occurs twice. *)
Fixpoint distinct (l : list string) : bool :=
  match l with
  | [] => true
  | k :: l' => negb (existsb (String.eqb k) l') && distinct l'
  end.

(** Every node of type union in the tree has at least two children, and
    its children have pairwise different serializations. *)
Fixpoint unions_well_formed (s : SchemaType) : bool :=
  match s with
  | mkSchemaType ty props its fmt req en =>
      (if String.eqb ty "union" then
         match en with
         | Some l => (2 <=? List.length l)%nat && distinct (map stringify_schema l)
         | None => false
         end
       else true)
      && match props with
         | Some ps => forallb (fun kv => unions_well_formed (snd kv)) ps
         | None => true
         end
      && match its with
         | Some child => unions_well_formed child
         | None => true
         end
      && match en with
         | Some l => forallb unions_well_formed l
         | None => true
         end
  end.

End Invariant.

(* ================================================================== *)
(** ** Sample inputs and observations *)
(* ================================================================== *)

Import JS Json InferSchema TypeScript JsonSchema Index Invariant.

(** Sample inputs. *)
Definition plain_options : GenerateOptions := mkGenerateOptions false false None.
Definition number_one : value :=
  VNumber (S754_finite false 4503599627370496 (-52)).

(** A document with a union inside a union. *)
Definition nested_anyOf : string :=
  json_text
    "{'anyOf':[{'anyOf':[{'type':'string'},{'type':'string'}]},{'type':'string'}]}".

(** The value of the JSON text [[[{"__proto__": 1}, {}], [{}]]]. *)
Definition nested_samples : value :=
  VArray [VArray [VObject [("__proto__", number_one)]; VObject []];
          VArray [VObject []]].

(** The text of a generated document of type array whose [items] is
    [items_text], with the default title. *)
Definition generated_document (items_text : string) : string :=
  json_text
    "{'$schema':'http://json-schema.org/draft-07/schema#','title':'GeneratedSchema','type':'array','items':"
    ++ json_text items_text ++ "}".

(** The member [required] of a rendered object; none when the key is
    absent. *)
Definition required_member (rendered : obj json) : option json :=
  obj_get "required" rendered.

(** A successful parse leaves no more text than it was given, and
    succeeds with the same result under any fuel above twice the number
    of characters it read. *)
Definition fuel_enough {A : Type} (parse : nat -> A -> string -> option (json * string))
    (fuel : nat) : Prop :=
  forall a s v rest,
    parse fuel a s = Some (v, rest) ->
    String.length rest <= String.length s
    /\ forall fuel',
         2 * (String.length s - String.length rest) < fuel' ->
         parse fuel' a s = Some (v, rest).

(** Every value of the object has depth at most [d]. *)
Definition values_within (d : nat) (o : obj json) : Prop :=
  Forall (fun kv => depth (snd kv) <= d) o.

(** The recorded present set of a node. *)
Definition present_set (schema : SchemaType) : list string :=
  match required schema with Some r => r | None => [] end.

(** Two samples with the same fields, written in a different order:
    [{x: undefined, a: 1}] and [{a: 1, x: undefined}]. *)
Definition sample_xa : value := VObject [("x", VUndefined); ("a", number_one)].
Definition sample_ax : value := VObject [("a", number_one); ("x", VUndefined)].

(** The same with values that JSON text can hold: [{"a": 1, "b": 1}] and
    [{"b": 1, "a": 1}]. *)
Definition sample_ab : value := VObject [("a", number_one); ("b", number_one)].
Definition sample_ba : value := VObject [("b", number_one); ("a", number_one)].

(* ================================================================== *)
(** ** The shape of inferred trees *)
(* ================================================================== *)

Module Shape.
Import JS InferSchema.

Definition present {A : Type} (field : option A) : bool :=
  match field with Some _ => true | None => false end.

(** Every node of type array holds an [items] child, every node of type
    object a [properties] map and every node of type union an [enum]
    list, at every depth. *)
Fixpoint well_shaped (s : SchemaType) : bool :=
  match s with
  | mkSchemaType ty props its fmt req en =>
      (if String.eqb ty "array" then present its else true)
      && (if String.eqb ty "object" then present props else true)
      && (if String.eqb ty "union" then present en else true)
      && match props with
         | Some ps => forallb (fun kv => well_shaped (snd kv)) ps
         | None => true
         end
      && match its with
         | Some child => well_shaped child
         | None => true
         end
      && match en with
         | Some l => forallb well_shaped l
         | None => true
         end
  end.

End Shape.

(* ================================================================== *)
(** ** The custom fields of [processGeneration] *)
(* ================================================================== *)

Module CustomFields.
Import JS InferSchema.

(** [interface CustomField] *)
Record CustomField := mkCustomField {
  name : string;
  field_type : string
}.

(** [s.split(sep)] for a separator of one character. *)
Fixpoint split (sep : ascii) (s : string) : list string :=
  match s with
  | EmptyString => [EmptyString]
  | String c s' =>
      if Ascii.eqb c sep then EmptyString :: split sep s'
      else
        match split sep s' with
        | piece :: pieces => String c piece :: pieces
        | [] => [String c EmptyString]
        end
  end.

(** The schema built for one field.  Element 1 of the split exists
    whenever the type starts with [array_]. *)
Definition fieldSchemaType (field : CustomField) : SchemaType :=
  if String.prefix "array_" (field_type field) then
    let itemType := nth 1 (split "_" (field_type field)) EmptyString in
    array_node (node itemType)
  else if String.eqb (field_type field) "object" then
    mkSchemaType "object" (Some []) None None None None
  else node (field_type field).

(** The [forEach] over the custom fields. *)
Definition graft (fields : list CustomField)
    (props : list (string * SchemaType)) : list (string * SchemaType) :=
  fold_left (fun acc field => obj_put (name field) (fieldSchemaType field) acc)
            fields props.

(** The block [if (opts.customFields && opts.customFields.length > 0)]
    of [processGeneration]; the warning printed for a base schema that is
    not an object is not modelled. *)
Definition addCustomFields (customFields : option (list CustomField))
    (data : SchemaType) : SchemaType :=
  match customFields with
  | Some fields =>
      match fields with
      | [] => data
      | _ =>
          if negb (String.eqb (type data) "object") then data
          else
            let props :=
              match properties data with Some ps => ps | None => [] end in
            mkSchemaType (type data) (Some (graft fields props))
              (items data) (format data) (required data) (enum data)
      end
  | None => data
  end.

(** The last field of the list that has the name [k]. *)
Definition last_named (k : string) (fields : list CustomField)
  : option CustomField :=
  find (fun field => String.eqb (name field) k) (rev fields).

End CustomFields.

(** The member names that [generateJsonSchemaFromSchema] assigns. *)
Definition rendered_key_names : list string :=
  ["type"; "format"; "items"; "properties"; "required"; "anyOf"; "description"].

(* ================================================================== *)
(** ** Documents that [JSON.stringify] and [JSON.parse] carry over *)
(* ================================================================== *)

Module Printable.
Import JS Json.

(** The members are in the order in which a JavaScript object holds
    them: defining them one after the other on an empty object gives the
    same list. *)
Definition ordered (members : obj json) : bool :=
  let replayed := obj_spread [] members in
  (List.length replayed =? List.length members)%nat
  && forallb (fun p => String.eqb (fst (fst p)) (fst (snd p)))
             (combine replayed members).

(** A value without numbers whose objects are all ordered. *)
Fixpoint printable (v : json) : bool :=
  match v with
  | JNumber _ => false
  | JArray elements => forallb printable elements
  | JObject members =>
      ordered members && forallb (fun kv => printable (snd kv)) members
  | _ => true
  end.

(** No object of the value holds an [anyOf] list with a repeated member
    or with a single member. *)
Fixpoint settled (v : json) : bool :=
  match v with
  | JArray elements => forallb settled elements
  | JObject members =>
      match obj_get "anyOf" members with
      | Some (JArray subs) =>
          Invariant.distinct (map JSON_stringify subs)
          && negb (List.length subs =? 1)%nat
      | _ => true
      end
      && forallb (fun kv => settled (snd kv)) members
  | _ => true
  end.

End Printable.

(** The text of one member in [JSON.stringify(v)]. *)
Definition member_text (kv : string * Json.json) : string :=
  Json.quote (fst kv) ++ ":" ++ Json.JSON_stringify (snd kv).

(** [v] is read back from its text, whatever follows the text, with fuel
    for twice the characters at hand. *)
Definition reads_back (v : Json.json) : Prop :=
  forall rest fuel,
    2 * String.length (Json.JSON_stringify v ++ rest) <= fuel ->
    Json.parse_value fuel (Json.JSON_stringify v ++ rest) = Some (v, rest).

(* ================================================================== *)
(** ** The order of the keys of a JavaScript object *)
(* ================================================================== *)

Module KeyOrder.
Import JS.

(** [k1] may stand before [k2]: array indices stand before the other
    keys, in ascending order. *)
Definition key_before (k1 k2 : string) : Prop :=
  match array_index k1, array_index k2 with
  | Some a, Some b => (a <= b)%N
  | Some _, None => True
  | None, Some _ => False
  | None, None => True
  end.

(** The keys are pairwise different and every key may stand before the
    keys that follow it. *)
Definition js_ordered {A : Type} (o : obj A) : Prop :=
  NoDup (obj_keys o) /\ StronglySorted key_before (obj_keys o).

End KeyOrder.

(** No node of the tree that the renderers visit has the type union. *)
Fixpoint union_free (s : InferSchema.SchemaType) : bool :=
  match s with
  | InferSchema.mkSchemaType ty props its fmt req en =>
      negb (String.eqb ty "union")
      && match props with
         | Some ps => forallb (fun kv => union_free (snd kv)) ps
         | None => true
         end
      && match its with
         | Some child => union_free child
         | None => true
         end
  end.

(** Only white space. *)
Fixpoint blank (s : string) : bool :=
  match s with
  | EmptyString => true
  | String c s' => Json.is_ws c && blank s'
  end.

(** [text] is read back as [v], whatever follows it, with fuel for twice
    the characters at hand; it starts with a character that is neither
    white space nor a closing bracket. *)
Definition reads_as (text : string) (v : Json.json) : Prop :=
  (forall rest fuel,
      2 * String.length (text ++ rest) <= fuel ->
      Json.parse_value fuel (text ++ rest) = Some (v, rest))
  /\ (forall tail,
         Json.skip_ws (text ++ tail) = text ++ tail
         /\ Json.starts_with "]" (text ++ tail) = None).

(** The text of one member in [JSON.stringify(v, null, 2)], from the
    text of its value. *)
Definition spaced_member (text : Json.json -> string)
    (kv : string * Json.json) : string :=
  Json.quote (fst kv) ++ ": " ++ text (snd kv).

(* ================================================================== *)
(** ** The alphabets of the format patterns *)
(* ================================================================== *)

Module Alphabet.
Import Regex.

Definition all_ascii : list ascii := map ascii_of_nat (List.seq 0 256).

(** Every character that a class of [r] accepts satisfies [P]. *)
Fixpoint within (P : ascii -> bool) (r : regex) : bool :=
  match r with
  | Void => true
  | Eps => true
  | Class p => forallb (fun a => implb (p a) (P a)) all_ascii
  | Cat r1 r2 => within P r1 && within P r2
  | Or r1 r2 => within P r1 && within P r2
  | Star r1 => within P r1
  end.

(** A check on the syntax of [r] that finds no word made only of
    characters that satisfy [P]. *)
Fixpoint dead_on (P : ascii -> bool) (r : regex) : bool :=
  match r with
  | Void => true
  | Eps => false
  | Class p => forallb (fun a => negb (p a && P a)) all_ascii
  | Cat r1 r2 => dead_on P r1 || dead_on P r2
  | Or r1 r2 => dead_on P r1 && dead_on P r2
  | Star _ => false
  end.

(** Every character of [s] satisfies [P]. *)
Fixpoint chars_all (P : ascii -> bool) (s : string) : bool :=
  match s with
  | EmptyString => true
  | String c s' => P c && chars_all P s'
  end.

Definition other_than (c : ascii) (a : ascii) : bool := negb (Ascii.eqb a c).

End Alphabet.

(* ================================================================== *)
(** ** Data as [JSON.parse] gives it *)
(* ================================================================== *)

Definition same_names (a b : list string) : bool :=
  if list_eq_dec string_dec a b then true else false.

(** No mapping of the value holds an undefined value or the key
    [__proto__], and each lists its entries in the order of a JavaScript
    object: defining them one after the other on an empty object gives
    the same keys. *)
Fixpoint plain_data (v : JS.value) : bool :=
  match v with
  | JS.VArray elements => forallb plain_data elements
  | JS.VObject entries =>
      same_names (JS.obj_keys (JS.obj_spread [] entries)) (JS.obj_keys entries)
      && forallb (fun kv =>
                    JS.is_defined (snd kv)
                    && negb (String.eqb (fst kv) "__proto__")
                    && plain_data (snd kv))
                 entries
  | _ => true
  end.

(** Every node records as present exactly its property names, in their
    order. *)
Fixpoint saturated (s : InferSchema.SchemaType) : bool :=
  match s with
  | InferSchema.mkSchemaType ty props its fmt req en =>
      same_names (match req with Some r => r | None => [] end)
                 (match props with Some ps => JS.obj_keys ps | None => [] end)
      && match props with
         | Some ps => forallb (fun kv => saturated (snd kv)) ps
         | None => true
         end
      && match its with
         | Some child => saturated child
         | None => true
         end
      && match en with
         | Some l => forallb saturated l
         | None => true
         end
  end.

(* ================================================================== *)
(** ** Text without a vertical bar *)
(* ================================================================== *)

(** A check on the syntax of [p] that every text it matches holds the
    character [c]. *)
Fixpoint needs (c : ascii) (p : RegExp.pattern) : bool :=
  match p with
  | RegExp.Char f =>
      forallb (fun a => implb (f a) (Ascii.eqb a c)) Alphabet.all_ascii
  | RegExp.Seq a b => needs c a || needs c b
  | RegExp.Alt a b => needs c a && needs c b
  | RegExp.Group _ a => needs c a
  | _ => false
  end.

Definition no_bar (s : string) : bool :=
  Alphabet.chars_all (Alphabet.other_than "|") s.

(** No node that the renderers visit is a union and no property name
    holds a vertical bar. *)
Fixpoint bar_free (s : InferSchema.SchemaType) : bool :=
  match s with
  | InferSchema.mkSchemaType ty props its fmt req en =>
      negb (String.eqb ty "union")
      && match props with
         | Some ps =>
             forallb (fun kv => no_bar (fst kv) && bar_free (snd kv)) ps
         | None => true
         end
      && match its with
         | Some child => bar_free child
         | None => true
         end
  end.

(* ================================================================== *)
(** * Properties *)
(* ================================================================== *)

(* ------------------------------------------------------------------ *)
(** ** The embedding on sample inputs *)

Example classify_numbers :
  inferSchema number_one = node "integer"
  /\ inferSchema (VNumber (S754_finite false 4503599627370496 (-53)))
     = node "number"
  /\ inferSchema (VNumber (S754_zero true)) = node "integer".
Proof. repeat split; reflexivity. Qed.

Example classify_strings :
  inferSchema (VString "2024-01-01T00:00:00Z") = string_node "date-time"
  /\ inferSchema (VString "2024-01-01T00:00:00.5+05:30") = string_node "date-time"
  /\ inferSchema (VString "2024-01-01 00:00:00Z") = node "string"
  /\ inferSchema (VString "user@example.com") = string_node "email"
  /\ inferSchema (VString "user@example.c") = node "string"
  /\ inferSchema (VString "123e4567-e89b-12d3-a456-426614174000")
     = string_node "uuid"
  /\ inferSchema (VString "hello") = node "string".
Proof. repeat split; vm_compute; reflexivity. Qed.

Example infer_mixed_sequence :
  inferSchema (VArray [number_one; VString "a"; VBoolean true; number_one])
  = array_node (union_node [node "integer"; node "string"; node "boolean"]).
Proof. vm_compute. reflexivity. Qed.

Example stringify_inferred_object :
  stringify_schema
    (inferSchema (VObject [("b", VNull); ("1", number_one); ("c", VUndefined)]))
  = json_text
      "{'type':'object','properties':{'1':{'type':'integer'},'b':{'type':'null'},'c':{'type':'null'}},'required':['b','1']}".
Proof. vm_compute. reflexivity. Qed.

Example render_interface :
  generateTypeScript_unformatted
    (inferSchema (VObject [("id", number_one); ("tags", VArray [VString "a"])]))
    (mkGenerateOptions true false (Some "Item"))
  = "interface Item {" ++ newline
      ++ "  id: number;" ++ newline
      ++ "  tags: string[];" ++ newline
      ++ "}" ++ newline.
Proof. vm_compute. reflexivity. Qed.

Example parse_accepts :
  JSON_parse (json_text " { 'a' : [1, -2.5e+3, true, null, 'x\ny'], 'a' : {} } ")
  = Some (JObject [("a", JObject [])])
  /\ JSON_parse (json_text "['\u0041', []]") = Some (JArray [JString "A"; JArray []]).
Proof. split; vm_compute; reflexivity. Qed.

Example parse_rejects :
  JSON_parse "{oops" = None
  /\ JSON_parse "[1,]" = None
  /\ JSON_parse "01" = None
  /\ JSON_parse "1 2" = None
  /\ JSON_parse (json_text "{'a' 1}") = None
  /\ JSON_parse EmptyString = None.
Proof. repeat split; vm_compute; reflexivity. Qed.

Example stringify_indented :
  option_map JSON_stringify_indent2 (JSON_parse (json_text "{'a':[{'b':'c'},[]],'d':{}}"))
  = Some ("{" ++ newline
          ++ json_text "  'a': [" ++ newline
          ++ "    {" ++ newline
          ++ json_text "      'b': 'c'" ++ newline
          ++ "    }," ++ newline
          ++ "    []" ++ newline
          ++ "  ]," ++ newline
          ++ json_text "  'd': {}" ++ newline
          ++ "}").
Proof. vm_compute. reflexivity. Qed.

Example dedupe_interface_text :
  dedupeUnions (fun _ _ => 0%Z) 5 "id: number | number; tag: (string | string)[]"
    typescript false
  = Some "id: number; tag: (string)[]".
Proof. vm_compute. reflexivity. Qed.

Example dedupe_splices_single_member :
  dedupeUnions (fun _ _ => 0%Z) 0
    (json_text "{'items':{'anyOf':[{'type':'null'},{'type':'null'}]}}")
    jsonschema false
  = Some (json_text "{'items':{'type':'null'}}").
Proof. vm_compute. reflexivity. Qed.

(** [Object.assign] overwrites an own property named [__proto__]. *)
Example dedupe_overwrites_own_proto :
  dedupeUnions (fun _ _ => 0%Z) 0
    (json_text "{'__proto__':1,'anyOf':[{'__proto__':2}]}")
    jsonschema false
  = Some (json_text "{'__proto__':2}").
Proof. vm_compute. reflexivity. Qed.

(** A no-break space (U+00A0) around the bar is white space for [\s]. *)
Example dedupe_interface_text_no_break_space :
  dedupeUnions (fun _ _ => 0%Z) 5
    ("A" ++ String "194"%char (String "160"%char "|")
         ++ String "194"%char (String "160"%char "A"))
    typescript false
  = Some "A".
Proof. vm_compute. reflexivity. Qed.

(* ------------------------------------------------------------------ *)
(** ** Interface rendering of string nodes *)

(** C1, as stated, fails: the string node that the classifier gives an
    ISO date-time is rendered as [Date], not as [string]. *)
Lemma date_time_string_renders_Date :
  inferSchema (VString "2024-01-01T00:00:00Z") = string_node "date-time"
  /\ generateTypeScriptFromSchema (string_node "date-time") plain_options 0
     = "Date"
  /\ generateTypeScriptFromSchema (string_node "date-time") plain_options 0
     <> "string".
Proof.
  repeat split; try reflexivity.
  vm_compute. discriminate.
Qed.

(** C1, amended: a node of type string is rendered as [Date] when its
    format is date-time and as [string] for every other format (none,
    email, uuid or anything else), whatever its other fields, the options
    and the depth. *)
Theorem string_node_rendering (schema : SchemaType)
    (options : GenerateOptions) (depth : nat) :
  type schema = "string" ->
  generateTypeScriptFromSchema schema options depth
  = if format_is (format schema) "date-time" then "Date" else "string".
Proof.
  destruct schema as [ty props its fmt req en]; simpl; intros ->.
  cbn [String.eqb Ascii.eqb Bool.eqb].
  destruct (format_is fmt "date-time"); [reflexivity|].
  destruct (format_is fmt "email"); [reflexivity|].
  destruct (format_is fmt "uuid"); reflexivity.
Qed.

(** The theorem at the string node of format email. *)
Lemma string_node_rendering_witness :
  generateTypeScriptFromSchema (string_node "email") plain_options 0 = "string".
Proof.
  exact (string_node_rendering (string_node "email") plain_options 0 eq_refl).
Defined.

(* ------------------------------------------------------------------ *)
(** ** The empty mapping *)



(* ------------------------------------------------------------------ *)
(** ** The empty sequence *)

(** C3, as stated, fails: the placeholder child of the node inferred
    from the empty sequence is rendered with a description, so [items]
    is not the empty schema. *)
Lemma empty_sequence_items_not_empty :
  generateJsonSchemaFromSchema (inferSchema (VArray [])) plain_options
  <> [("type", JString "array"); ("items", JObject [])].
Proof.
  vm_compute. discriminate.
Qed.

Lemma obj_set_plain {A : Type} (k : string) (v : A) (o : obj A) :
  array_index k = None -> obj_get k o = None ->
  obj_set k v o = (o ++ [(k, v)])%list.
Proof.
  intros Hk Hget. unfold obj_set, obj_has. now rewrite Hget, Hk.
Qed.

(** The members that the 'object' case leaves after the [required]
    statements. *)
Lemma set_required_members (inferOpt : bool)
    (props : option (list (string * SchemaType)))
    (req : option (list string)) (rendered : json) :
  let recorded := match req with Some r => r | None => [] end in
  let keys := match props with Some ps => obj_keys ps | None => [] end in
  let listed := if inferOpt then recorded else keys in
  set_required inferOpt props req
    (obj_set "properties" rendered [("type", JString "object")])
  = match listed with
    | [] => [("type", JString "object"); ("properties", rendered)]
    | _ => [("type", JString "object"); ("properties", rendered);
            ("required", string_array listed)]
    end.
Proof.
  unfold set_required.
  destruct inferOpt.
  - destruct req as [[|r0 r]|]; reflexivity.
  - destruct props as [[|[k0 v0] ps]|]; reflexivity.
Qed.

(** No node is rendered as the empty object. *)
Lemma rendered_not_empty (schema : SchemaType) (options : GenerateOptions) :
  generateJsonSchemaFromSchema schema options <> [].
Proof.
  destruct schema as [ty props its fmt req en].
  cbn [generateJsonSchemaFromSchema].
  destruct (String.eqb ty "null"); [discriminate|].
  destruct (String.eqb ty "string").
  { destruct (truthy_string fmt); [|discriminate].
    rewrite obj_set_plain by reflexivity. cbn [app]. discriminate. }
  destruct (String.eqb ty "number"); [discriminate|].
  destruct (String.eqb ty "integer"); [discriminate|].
  destruct (String.eqb ty "boolean"); [discriminate|].
  destruct (String.eqb ty "array").
  { rewrite obj_set_plain by reflexivity. cbn [app]. discriminate. }
  destruct (String.eqb ty "object").
  { rewrite set_required_members.
    destruct (if inferOptional options
              then match req with Some r => r | None => [] end
              else match props with Some ps => obj_keys ps | None => [] end);
      discriminate. }
  destruct (String.eqb ty "union"); [|discriminate].
  destruct en as [[|c cs]|]; cbn [map]; discriminate.
Qed.

(** The member [items] of a rendered node is the empty object exactly
    for a node of type array without a child. *)
Lemma items_empty_iff (schema : SchemaType) (options : GenerateOptions) :
  obj_get "items" (generateJsonSchemaFromSchema schema options)
  = Some (JObject [])
  <-> type schema = "array" /\ items schema = None.
Proof.
  destruct schema as [ty props its fmt req en]. cbn [type items]. split.
  - cbn [generateJsonSchemaFromSchema].
    destruct (String.eqb ty "null"); [discriminate|].
    destruct (String.eqb ty "string").
    { destruct (truthy_string fmt); [|discriminate].
      rewrite obj_set_plain by reflexivity. cbn [app]. discriminate. }
    destruct (String.eqb ty "number"); [discriminate|].
    destruct (String.eqb ty "integer"); [discriminate|].
    destruct (String.eqb ty "boolean"); [discriminate|].
    destruct (String.eqb ty "array") eqn:Harray.
    { apply String.eqb_eq in Harray. rewrite obj_set_plain by reflexivity.
      cbn [app obj_get String.eqb Ascii.eqb Bool.eqb].
      destruct its as [child|]; [|now split].
      intros [= Hempty]. now apply rendered_not_empty in Hempty. }
    destruct (String.eqb ty "object").
    { rewrite set_required_members.
      destruct (if inferOptional options
                then match req with Some r => r | None => [] end
                else match props with Some ps => obj_keys ps | None => [] end);
        discriminate. }
    destruct (String.eqb ty "union"); [|discriminate].
    destruct en as [[|c cs]|]; cbn [map]; discriminate.
  - intros [-> ->]. reflexivity.
Qed.

(** C3, amended: inferring the empty sequence yields an array node whose
    child is the placeholder of type any; the JSON-Schema renderer gives
    it the body [type: array] with [items] holding only the description
    [Represents type: any], under every option.  No node is rendered as
    the empty object, and the member [items] of a rendered node is the
    empty schema exactly when the node is of type array and has no
    child; an array node with a child gets the rendering of the child. *)
Theorem empty_sequence_rendering (options : GenerateOptions)
    (schema : SchemaType) :
  inferSchema (VArray []) = array_node (node "any")
  /\ generateJsonSchemaFromSchema (inferSchema (VArray [])) options
     = [("type", JString "array");
        ("items", JObject [("description", JString "Represents type: any")])]
  /\ generateJsonSchemaFromSchema (node "array") options
     = [("type", JString "array"); ("items", JObject [])]
  /\ generateJsonSchema (inferSchema (VArray [])) plain_options
     = json_text
         "{'$schema':'http://json-schema.org/draft-07/schema#','title':'GeneratedSchema','type':'array','items':{'description':'Represents type: any'}}"
  /\ generateJsonSchemaFromSchema schema options <> []
  /\ (obj_get "items" (generateJsonSchemaFromSchema schema options)
      = Some (JObject [])
      <-> type schema = "array" /\ items schema = None)
  /\ (forall props child fmt req en,
        generateJsonSchemaFromSchema
          (mkSchemaType "array" props (Some child) fmt req en) options
        = [("type", JString "array");
           ("items", JObject (generateJsonSchemaFromSchema child options))]).
Proof.
  split; [reflexivity|]. split; [reflexivity|]. split; [reflexivity|].
  split; [reflexivity|].
  split; [apply rendered_not_empty|].
  split; [apply items_empty_iff|].
  intros props child fmt req en. reflexivity.
Qed.

(* ------------------------------------------------------------------ *)
(** ** Unifying no node *)

(** C4, as stated, fails: the call on the empty list throws nothing. *)
Lemma mergeSchemas_empty_does_not_throw :
  ~ (exists error, call mergeSchemas [] = Throw error).
Proof.
  intros [error H]. discriminate H.
Qed.

(** C4, amended: unifying the empty list completes normally and returns
    the placeholder node of type any. *)
Theorem mergeSchemas_empty_returns_any :
  call mergeSchemas [] = Normal (node "any").
Proof.
  reflexivity.
Qed.

(* ------------------------------------------------------------------ *)
(** ** Numbers that are not finite *)

(** C9: for NaN and for both infinities the primitive classifier, and
    the inferrer that delegates to it, return the number node, which is
    not the integer node. *)
Theorem non_finite_is_number (x : spec_float) :
  is_finite x = false ->
  inferPrimitiveSchema (VNumber x) = node "number"
  /\ inferSchema (VNumber x) = node "number"
  /\ inferPrimitiveSchema (VNumber x) <> node "integer".
Proof.
  destruct x; simpl; try discriminate; intros _;
    repeat split; discriminate.
Qed.

(** The theorem at NaN. *)
Lemma non_finite_is_number_witness :
  inferPrimitiveSchema (VNumber S754_nan) = node "number"
  /\ inferSchema (VNumber S754_nan) = node "number"
  /\ inferPrimitiveSchema (VNumber S754_nan) <> node "integer".
Proof.
  exact (non_finite_is_number S754_nan eq_refl).
Defined.

(* ------------------------------------------------------------------ *)
(** ** The parser never runs out of fuel *)

Lemma skip_ws_length (s : string) :
  String.length (skip_ws s) <= String.length s.
Proof.
  induction s as [|c s IH]; cbn [skip_ws String.length]; [lia|].
  destruct (is_ws c); cbn [String.length]; lia.
Qed.

Lemma starts_with_length (c : ascii) (s rest : string) :
  starts_with c s = Some rest -> String.length s = S (String.length rest).
Proof.
  destruct s as [|c' s]; cbn [starts_with]; [discriminate|].
  destruct (Ascii.eqb c' c); [intros [= <-]; reflexivity|discriminate].
Qed.

Lemma prepend_length (p : string) (r : option (string * string))
    (k rest : string) :
  prepend p r = Some (k, rest) -> exists k', r = Some (k', rest).
Proof.
  destruct r as [[k' rest']|]; cbn [prepend]; [|discriminate].
  intros [= _ <-]. now exists k'.
Qed.

Lemma parse_string_chars_length (n : nat) :
  forall s k rest,
    String.length s <= n ->
    parse_string_chars s = Some (k, rest) ->
    String.length rest < String.length s.
Proof.
  induction n as [|n IH]; intros s k rest Hn H.
  - destruct s; [discriminate H|cbn [String.length] in Hn; lia].
  - destruct s as [|c s']; [discriminate H|].
    cbn [parse_string_chars] in H. cbn [String.length] in *.
    destruct (Ascii.eqb c dquote); [injection H as _ <-; lia|].
    destruct (Ascii.eqb c backslash).
    + destruct s' as [|e s'']; [discriminate H|]. cbn [String.length] in *.
      destruct (simple_escape e).
      * apply prepend_length in H. destruct H as [k' H].
        apply IH in H; lia.
      * destruct (Ascii.eqb e "u"%char); [|discriminate H].
        destruct s'' as [|h1 [|h2 [|h3 [|h4 tail]]]]; try discriminate H.
        destruct (hex4 h1 h2 h3 h4); [|discriminate H].
        apply prepend_length in H. destruct H as [k' H].
        cbn [String.length] in *. apply IH in H; lia.
    + destruct (N_of_ascii c <? 32)%N; [discriminate H|].
      apply prepend_length in H. destruct H as [k' H].
      apply IH in H; lia.
Qed.

Lemma strip_prefix_length (word : string) :
  forall s rest,
    strip_prefix word s = Some rest -> String.length rest <= String.length s.
Proof.
  induction word as [|w word IH]; intros s rest; cbn [strip_prefix].
  - intros [= <-]. lia.
  - destruct s as [|c s]; [discriminate|].
    destruct (Ascii.eqb c w); [|discriminate].
    intros H. apply IH in H. cbn [String.length]. lia.
Qed.

Lemma span_digits_length (s : string) :
  String.length (snd (span_digits s)) <= String.length s.
Proof.
  induction s as [|c s IH]; cbn [span_digits]; [cbn; lia|].
  destruct (is_digit c); [|cbn [snd]; lia].
  destruct (span_digits s) as [d rest]. cbn [snd String.length] in *. lia.
Qed.

Lemma parse_exp_digits_length (mark s lit rest : string) :
  parse_exp_digits mark s = Some (lit, rest) ->
  String.length rest <= String.length s.
Proof.
  unfold parse_exp_digits. pose proof (span_digits_length s) as H.
  destruct (span_digits s) as [[|d0 d] r]; [discriminate|].
  intros [= _ <-]. exact H.
Qed.

Lemma parse_int_part_length (s lit rest : string) :
  parse_int_part s = Some (lit, rest) ->
  String.length rest <= String.length s.
Proof.
  unfold parse_int_part.
  destruct (starts_with "0" s) as [r|] eqn:H0.
  - intros [= _ <-]. apply starts_with_length in H0. lia.
  - pose proof (span_digits_length s) as Hd.
    destruct (span_digits s) as [[|? ?] ?]; [discriminate|].
    intros [= _ <-]. exact Hd.
Qed.

Lemma parse_frac_part_length (s lit rest : string) :
  parse_frac_part s = Some (lit, rest) ->
  String.length rest <= String.length s.
Proof.
  unfold parse_frac_part.
  destruct (starts_with "." s) as [r|] eqn:H0.
  - apply starts_with_length in H0.
    pose proof (span_digits_length r) as Hd.
    destruct (span_digits r) as [[|? ?] ?]; [discriminate|].
    intros [= _ <-]. cbn [snd] in Hd. lia.
  - intros [= _ <-]. lia.
Qed.

Lemma parse_exp_part_length (s lit rest : string) :
  parse_exp_part s = Some (lit, rest) ->
  String.length rest <= String.length s.
Proof.
  unfold parse_exp_part. destruct s as [|c t].
  - intros [= _ <-]. lia.
  - destruct (Ascii.eqb c "e"%char || Ascii.eqb c "E"%char).
    + destruct t as [|sg t']; [discriminate|].
      destruct (Ascii.eqb sg "+"%char || Ascii.eqb sg "-"%char); intros H;
        apply parse_exp_digits_length in H; cbn [String.length] in *; lia.
    + intros [= _ <-]. lia.
Qed.

Lemma parse_number_length (s lit rest : string) :
  parse_number s = Some (lit, rest) ->
  String.length rest <= String.length s.
Proof.
  unfold parse_number.
  destruct (starts_with "-" s) as [s'|] eqn:Hsign.
  - apply starts_with_length in Hsign.
    destruct (parse_int_part s') as [[i s1]|] eqn:Hi; [|discriminate].
    destruct (parse_frac_part s1) as [[f s2]|] eqn:Hf; [|discriminate].
    destruct (parse_exp_part s2) as [[e s3]|] eqn:He; [|discriminate].
    intros [= _ <-].
    apply parse_int_part_length in Hi. apply parse_frac_part_length in Hf.
    apply parse_exp_part_length in He. lia.
  - destruct (parse_int_part s) as [[i s1]|] eqn:Hi; [|discriminate].
    destruct (parse_frac_part s1) as [[f s2]|] eqn:Hf; [|discriminate].
    destruct (parse_exp_part s2) as [[e s3]|] eqn:He; [|discriminate].
    intros [= _ <-].
    apply parse_int_part_length in Hi. apply parse_frac_part_length in Hf.
    apply parse_exp_part_length in He. lia.
Qed.

Lemma expect_length (word : string) (v v' : json) (s rest : string) :
  expect word v s = Some (v', rest) -> String.length rest <= String.length s.
Proof.
  unfold expect. destruct (strip_prefix word s) as [r|] eqn:H; [|discriminate].
  intros [= _ <-]. now apply strip_prefix_length in H.
Qed.

Lemma parse_scalar_length (s : string) (v : json) (rest : string) :
  parse_scalar s = Some (v, rest) -> String.length rest <= String.length s.
Proof.
  unfold parse_scalar. destruct s as [|c s']; [discriminate|].
  destruct (Ascii.eqb c dquote).
  - destruct (parse_string_chars s') as [[str r]|] eqn:H; [|discriminate].
    intros [= _ <-].
    apply (parse_string_chars_length (String.length s')) in H; [|lia].
    cbn [String.length]. lia.
  - destruct (Ascii.eqb c "t"%char); [apply expect_length|].
    destruct (Ascii.eqb c "f"%char); [apply expect_length|].
    destruct (Ascii.eqb c "n"%char); [apply expect_length|].
    destruct (parse_number (String c s')) as [[lit r]|] eqn:H; [|discriminate].
    intros [= _ <-]. now apply parse_number_length in H.
Qed.

Lemma parse_fuel_enough (fuel : nat) :
  fuel_enough (fun f (_ : unit) s => parse_value f s) fuel
  /\ fuel_enough parse_elements fuel
  /\ fuel_enough parse_members fuel.
Proof.
  induction fuel as [|fuel (IHv & IHe & IHm)].
  - repeat split; discriminate.
  - split; [|split]; intros a s v rest H.
    + cbn [parse_value] in H.
      destruct (starts_with "{" s) as [s'|] eqn:Hobj.
      { pose proof (starts_with_length _ _ _ Hobj) as L1.
        pose proof (skip_ws_length s') as L2.
        destruct (starts_with "}" (skip_ws s')) as [r|] eqn:Hclose.
        - injection H as <- <-.
          pose proof (starts_with_length _ _ _ Hclose) as L3.
          split; [lia|]. intros [|fuel'] Hf; [lia|].
          cbn [parse_value]. now rewrite Hobj, Hclose.
        - apply IHm in H. destruct H as [L3 H].
          split; [lia|]. intros [|fuel'] Hf; [lia|].
          cbn [parse_value]. rewrite Hobj, Hclose. apply H. lia. }
      destruct (starts_with "[" s) as [s'|] eqn:Harr.
      { pose proof (starts_with_length _ _ _ Harr) as L1.
        pose proof (skip_ws_length s') as L2.
        destruct (starts_with "]" (skip_ws s')) as [r|] eqn:Hclose.
        - injection H as <- <-.
          pose proof (starts_with_length _ _ _ Hclose) as L3.
          split; [lia|]. intros [|fuel'] Hf; [lia|].
          cbn [parse_value]. now rewrite Hobj, Harr, Hclose.
        - apply IHe in H. destruct H as [L3 H].
          split; [lia|]. intros [|fuel'] Hf; [lia|].
          cbn [parse_value]. rewrite Hobj, Harr, Hclose. apply H. lia. }
      pose proof (parse_scalar_length _ _ _ H) as L1.
      split; [lia|]. intros [|fuel'] Hf; [lia|].
      cbn [parse_value]. now rewrite Hobj, Harr.
    + cbn [parse_elements] in H.
      destruct (parse_value fuel s) as [[v1 r1]|] eqn:Hv; [|discriminate].
      apply (IHv tt) in Hv. destruct Hv as [L1 Hv].
      pose proof (skip_ws_length r1) as L2.
      destruct (starts_with "," (skip_ws r1)) as [r2|] eqn:Hcomma.
      { pose proof (starts_with_length _ _ _ Hcomma) as L3.
        pose proof (skip_ws_length r2) as L4.
        apply IHe in H. destruct H as [L5 H].
        split; [lia|]. intros [|fuel'] Hf; [lia|].
        cbn [parse_elements]. rewrite Hv by lia. rewrite Hcomma.
        apply H. lia. }
      destruct (starts_with "]" (skip_ws r1)) as [r2|] eqn:Hclose; [|discriminate].
      injection H as <- <-.
      pose proof (starts_with_length _ _ _ Hclose) as L3.
      split; [lia|]. intros [|fuel'] Hf; [lia|].
      cbn [parse_elements]. rewrite Hv by lia. now rewrite Hcomma, Hclose.
    + cbn [parse_members] in H.
      destruct (starts_with dquote s) as [s'|] eqn:Hq; [|discriminate].
      pose proof (starts_with_length _ _ _ Hq) as L0.
      destruct (parse_string_chars s') as [[k r0]|] eqn:Hk; [|discriminate].
      pose proof (parse_string_chars_length _ _ _ _ (le_n _) Hk) as L1.
      pose proof (skip_ws_length r0) as L2.
      destruct (starts_with ":" (skip_ws r0)) as [r1|] eqn:Hcolon; [|discriminate].
      pose proof (starts_with_length _ _ _ Hcolon) as L3.
      pose proof (skip_ws_length r1) as L4.
      destruct (parse_value fuel (skip_ws r1)) as [[v1 r2]|] eqn:Hv; [|discriminate].
      apply (IHv tt) in Hv. destruct Hv as [L5 Hv].
      pose proof (skip_ws_length r2) as L6.
      cbv zeta in H.
      destruct (starts_with "," (skip_ws r2)) as [r3|] eqn:Hcomma.
      { pose proof (starts_with_length _ _ _ Hcomma) as L7.
        pose proof (skip_ws_length r3) as L8.
        apply IHm in H. destruct H as [L9 H].
        split; [lia|]. intros [|fuel'] Hf; [lia|].
        cbn [parse_members]. rewrite Hq, Hk, Hcolon. rewrite Hv by lia.
        cbv zeta. rewrite Hcomma. apply H. lia. }
      destruct (starts_with "}" (skip_ws r2)) as [r3|] eqn:Hclose; [|discriminate].
      injection H as <- <-.
      pose proof (starts_with_length _ _ _ Hclose) as L7.
      split; [lia|]. intros [|fuel'] Hf; [lia|].
      cbn [parse_members]. rewrite Hq, Hk, Hcolon. rewrite Hv by lia.
      cbv zeta. now rewrite Hcomma, Hclose.
Qed.

(** The fuel of [JSON_parse] is enough: a text that some amount of fuel
    parses is parsed, to the same value, by [JSON_parse]. *)
Lemma JSON_parse_fuel_enough (fuel : nat) (text : string) (v : json)
    (rest : string) :
  parse_value fuel (skip_ws text) = Some (v, rest) ->
  skip_ws rest = EmptyString ->
  JSON_parse text = Some v.
Proof.
  intros H Hrest. unfold JSON_parse.
  destruct (parse_fuel_enough fuel) as [Hv _].
  apply (Hv tt) in H. destruct H as [L H].
  pose proof (skip_ws_length text) as L2.
  rewrite H by lia. now rewrite Hrest.
Qed.

(* ------------------------------------------------------------------ *)
(** ** Text that is not JSON *)

(** C10: when the text does not parse as JSON, the pass for the
    JSON-Schema target returns the text itself, with or without
    prettifying, and does not fail. *)
Theorem dedupeUnions_unparseable_unchanged
    (localeCompare : string -> string -> Z) (fuel : nat) (text : string)
    (pretty : bool) :
  JSON_parse text = None ->
  dedupeUnions localeCompare fuel text jsonschema pretty = Some text.
Proof.
  intros H. unfold dedupeUnions, dedupe_jsonschema. rewrite H. reflexivity.
Qed.

(** The theorem at an interface text, which is not JSON. *)
Lemma dedupeUnions_unparseable_unchanged_witness :
  dedupeUnions (fun _ _ => 0%Z) 0 "interface A { x: string | string }"
    jsonschema true
  = Some "interface A { x: string | string }".
Proof.
  apply (dedupeUnions_unparseable_unchanged (fun _ _ => 0%Z) 0
           "interface A { x: string | string }" true).
  vm_compute. reflexivity.
Defined.

(* ------------------------------------------------------------------ *)
(** ** The required list of the JSON-Schema renderer *)

Lemma set_required_lookup (inferOpt : bool)
    (props : option (list (string * SchemaType)))
    (req : option (list string)) (rendered : json) :
  let recorded := match req with Some r => r | None => [] end in
  let keys := match props with Some ps => obj_keys ps | None => [] end in
  let listed := if inferOpt then recorded else keys in
  obj_get "required"
    (set_required inferOpt props req
       [("type", JString "object"); ("properties", rendered)])
  = match listed with
    | [] => None
    | _ => Some (string_array listed)
    end.
Proof.
  unfold set_required.
  destruct inferOpt.
  - destruct req as [[|r0 r]|]; reflexivity.
  - destruct props as [[|[k0 v0] ps]|]; reflexivity.
Qed.

(** C6: for an object node, with inferOptional the rendered [required]
    is the recorded required list of the node, and the key is absent when
    that list is empty or missing; without inferOptional it is the list
    of all keys of [properties], whatever the recorded list (the key is
    absent when there is no property). *)
Theorem required_follows_inferOptional (schema : SchemaType)
    (options : GenerateOptions) :
  type schema = "object" ->
  let recorded := match required schema with Some r => r | None => [] end in
  let keys := match properties schema with Some ps => obj_keys ps | None => [] end in
  let listed := if inferOptional options then recorded else keys in
  required_member (generateJsonSchemaFromSchema schema options)
  = match listed with
    | [] => None
    | _ => Some (string_array listed)
    end.
Proof.
  destruct schema as [ty props its fmt req en]; simpl; intros ->.
  cbn [String.eqb Ascii.eqb Bool.eqb].
  unfold required_member.
  apply (set_required_lookup (inferOptional options) props req).
Qed.

(** The theorem at an object node with properties [a] and [b] of which
    only [a] is recorded as present, with and without inferOptional. *)
Lemma required_follows_inferOptional_witness :
  required_member
    (generateJsonSchemaFromSchema
       (object_node [("a", node "integer"); ("b", node "string")] (Some ["a"]))
       (mkGenerateOptions true false None))
  = Some (string_array ["a"])
  /\ required_member
       (generateJsonSchemaFromSchema
          (object_node [("a", node "integer"); ("b", node "string")] (Some ["a"]))
          (mkGenerateOptions false false None))
     = Some (string_array ["a"; "b"]).
Proof.
  split.
  - exact (required_follows_inferOptional
             (object_node [("a", node "integer"); ("b", node "string")]
                (Some ["a"]))
             (mkGenerateOptions true false None) eq_refl).
  - exact (required_follows_inferOptional
             (object_node [("a", node "integer"); ("b", node "string")]
                (Some ["a"]))
             (mkGenerateOptions false false None) eq_refl).
Defined.

(* ------------------------------------------------------------------ *)
(** ** The present set of an inferred object *)

Lemma infer_entries_required (infer : value -> SchemaType)
    (entries : list (string * value)) :
  snd (infer_entries infer entries)
  = map fst (filter (fun kv => is_defined (snd kv)) entries).
Proof.
  unfold infer_entries.
  assert (G : forall props req,
             snd (fold_left
                    (fun (acc : list (string * SchemaType) * list string) kv =>
                       let (props, req) := acc in
                       (obj_put (fst kv) (infer (snd kv)) props,
                        if is_defined (snd kv) then (req ++ [fst kv])%list
                        else req))
                    entries (props, req))
             = (req ++ map fst (filter (fun kv => is_defined (snd kv)) entries))%list).
  { induction entries as [|[k v] entries IH]; intros props req; simpl.
    - now rewrite app_nil_r.
    - rewrite IH. destruct (is_defined v); simpl.
      + now rewrite <- app_assoc.
      + reflexivity. }
  apply (G [] []).
Qed.

Lemma inferSchema_object_present (entries : list (string * value)) :
  present_set (inferSchema (VObject entries))
  = map fst (filter (fun kv => is_defined (snd kv)) entries).
Proof.
  cbn [inferSchema].
  rewrite <- (infer_entries_required inferSchema entries).
  destruct (infer_entries inferSchema entries) as [props [|r0 r]]; reflexivity.
Qed.

(** C7: the node inferred from a keyed mapping is an object node, and a
    key is in its present set exactly when the mapping holds it with a
    value other than undefined; a key held with the value null is
    therefore in the set. *)
Theorem present_iff_not_undefined (entries : list (string * value))
    (key : string) :
  type (inferSchema (VObject entries)) = "object"
  /\ (In key (present_set (inferSchema (VObject entries)))
      <-> exists v, In (key, v) entries /\ v <> VUndefined)
  /\ (In (key, VNull) entries ->
      In key (present_set (inferSchema (VObject entries)))).
Proof.
  assert (E : In key (present_set (inferSchema (VObject entries)))
              <-> exists v, In (key, v) entries /\ v <> VUndefined).
  { rewrite inferSchema_object_present, in_map_iff. split.
    - intros [[k v] [Hk Hin]]. simpl in Hk. subst k.
      apply filter_In in Hin. destruct Hin as [Hin Hdef]. simpl in Hdef.
      exists v. split; [assumption|]. intros ->. discriminate.
    - intros [v [Hin Hv]]. exists (key, v). split; [reflexivity|].
      apply filter_In. split; [assumption|].
      destruct v; try reflexivity. now elim Hv. }
  split; [|split].
  - cbn [inferSchema].
    destruct (infer_entries inferSchema entries) as [props req]. reflexivity.
  - exact E.
  - intros Hin. apply E. exists VNull. split; [assumption|discriminate].
Qed.

(* ------------------------------------------------------------------ *)
(** ** The unifier *)

Lemma seen_iff_In (k : string) (seen : list string) :
  existsb (String.eqb k) seen = true <-> In k seen.
Proof.
  rewrite existsb_exists. split.
  - intros [y [Hin Heq]]. apply String.eqb_eq in Heq. now subst.
  - intros Hin. exists k. split; [assumption|apply String.eqb_refl].
Qed.

(** What the deduplication loop keeps, from any starting point in which
    the set of strings is the serialization of the schemas kept. *)
Lemma unique_fold_invariant (schemas : list SchemaType) :
  forall (kept : list SchemaType) (seen : list string),
    seen = map stringify_schema kept ->
    NoDup seen ->
    let r := fold_left unique_step schemas (kept, seen) in
    snd r = map stringify_schema (fst r)
    /\ NoDup (snd r)
    /\ (exists added, fst r = (kept ++ added)%list /\ incl added schemas)
    /\ (forall s, In s schemas -> In (stringify_schema s) (snd r))
    /\ (forall k, In k (snd r) ->
                  In k seen \/ In k (map stringify_schema schemas)).
Proof.
  induction schemas as [|s schemas IH]; intros kept seen Hseen Hnd;
    cbn [fold_left].
  - cbn [fst snd]. repeat split; auto.
    + exists []. split; [now rewrite app_nil_r|apply incl_refl].
    + intros s [].
  - replace (unique_step (kept, seen) s)
      with (if existsb (String.eqb (stringify_schema s)) seen
            then (kept, seen)
            else ((kept ++ [s])%list, (seen ++ [stringify_schema s])%list))
      by reflexivity.
    destruct (existsb (String.eqb (stringify_schema s)) seen) eqn:Hs.
    + destruct (IH kept seen Hseen Hnd) as (A & B & (added & C1 & C2) & D & E).
      repeat split; auto.
      * exists added. split; [assumption|]. now apply incl_tl.
      * intros s' [<-|Hin]; [|now apply D].
        apply seen_iff_In in Hs.
        destruct (in_dec string_dec (stringify_schema s)
                    (snd (fold_left unique_step schemas (kept, seen))))
          as [Hyes|Hno]; [assumption|].
        exfalso. apply Hno. rewrite A, C1, map_app, in_app_iff. left.
        now rewrite <- Hseen.
      * intros k Hk. destruct (E k Hk); [now left|right; now right].
    + assert (Hnot : ~ In (stringify_schema s) seen).
      { intros Hin. apply seen_iff_In in Hin. congruence. }
      destruct (IH (kept ++ [s])%list (seen ++ [stringify_schema s])%list)
        as (A & B & (added & C1 & C2) & D & E).
      * rewrite map_app, Hseen. reflexivity.
      * apply NoDup_app; auto.
        -- constructor; [intros []|constructor].
        -- intros k Hk [<-|[]]. contradiction.
      * repeat split; auto.
        -- exists (s :: added). split.
           ++ rewrite C1, <- app_assoc. reflexivity.
           ++ intros y [<-|Hy]; [now left|right; now apply C2].
        -- intros s' [<-|Hin]; [|now apply D].
           rewrite A, C1, map_app, in_app_iff. left.
           rewrite map_app, in_app_iff. right. now left.
        -- intros k Hk. destruct (E k Hk) as [Hin|Hin]; [|right; now right].
           apply in_app_iff in Hin.
           destruct Hin as [Hin|[<-|[]]]; [now left|right; now left].
Qed.

Lemma uniqueSchemas_cons (x : SchemaType) (rest : list SchemaType) :
  uniqueSchemas (x :: rest)
  = fst (fold_left unique_step rest ([x], [stringify_schema x])).
Proof.
  reflexivity.
Qed.

(** The schemas kept from a nonempty list: the first schema, then
    schemas of the rest, with pairwise different serializations that
    cover those of the whole list; only the first is kept exactly when
    every schema serializes like it. *)
Lemma uniqueSchemas_facts (x : SchemaType) (rest : list SchemaType) :
  let unique := uniqueSchemas (x :: rest) in
  (exists added, unique = x :: added /\ incl added rest)
  /\ NoDup (map stringify_schema unique)
  /\ (forall s, In s (x :: rest) ->
                In (stringify_schema s) (map stringify_schema unique))
  /\ (List.length unique = 1
      <-> Forall (fun s => stringify_schema s = stringify_schema x) rest).
Proof.
  cbv zeta. rewrite uniqueSchemas_cons.
  destruct (unique_fold_invariant rest [x] [stringify_schema x] eq_refl)
    as (A & B & (added & C1 & C2) & D & E).
  { constructor; [intros []|constructor]. }
  set (r := fold_left unique_step rest ([x], [stringify_schema x])) in *.
  cbn [app] in C1.
  split; [|split; [|split]].
  - exists added. split; assumption.
  - rewrite <- A. exact B.
  - intros s [<-|Hin].
    + rewrite C1. now left.
    + rewrite <- A. now apply D.
  - split.
    + intros Hlen. rewrite C1 in Hlen. cbn [List.length] in Hlen.
      assert (added = []) by (destruct added; [reflexivity|discriminate]).
      subst added. apply Forall_forall. intros s Hin.
      specialize (D s Hin). rewrite A, C1 in D.
      destruct D as [D|[]]. now symmetry.
    + intros Hall. rewrite Forall_forall in Hall.
      assert (Hincl : incl (snd r) [stringify_schema x]).
      { intros k Hk. destruct (E k Hk) as [Hin|Hin]; [assumption|].
        apply in_map_iff in Hin. destruct Hin as [s [<- Hs]].
        left. symmetry. now apply Hall. }
      apply (NoDup_incl_length B) in Hincl.
      rewrite A, length_map, C1 in Hincl. rewrite C1.
      cbn [List.length] in *. lia.
Qed.

Lemma mergeSchemas_cases (x : SchemaType) (rest : list SchemaType) :
  let unique := uniqueSchemas (x :: rest) in
  (List.length unique = 1 /\ mergeSchemas (x :: rest) = x)
  \/ (2 <= List.length unique
      /\ mergeSchemas (x :: rest) = union_node unique).
Proof.
  cbv zeta.
  destruct (uniqueSchemas_facts x rest) as ((added & U & Hincl) & Hnd & Hcover & Hone).
  destruct rest as [|y rest'].
  - left. split; reflexivity.
  - change (mergeSchemas (x :: y :: rest'))
      with (if forallb (fun s => String.eqb (stringify_schema s)
                                            (stringify_schema x))
                       (x :: y :: rest')
            then x
            else match uniqueSchemas (x :: y :: rest') with
                 | [single] => single
                 | unique => union_node unique
                 end).
    destruct (forallb _ (x :: y :: rest')) eqn:Hall.
    + left. split; [|reflexivity].
      apply Hone. apply Forall_forall. intros s Hs.
      rewrite forallb_forall in Hall.
      apply String.eqb_eq. apply Hall. now right.
    + right.
      assert (Hnot : List.length (uniqueSchemas (x :: y :: rest')) <> 1).
      { intros Hlen. apply Hone in Hlen. rewrite Forall_forall in Hlen.
        assert (forallb (fun s => String.eqb (stringify_schema s)
                                             (stringify_schema x))
                        (x :: y :: rest') = true) as Htrue.
        { apply forallb_forall. intros s [<-|Hs].
          - apply String.eqb_refl.
          - apply String.eqb_eq. now apply Hlen. }
        congruence. }
      rewrite U in *. destruct added as [|a added'].
      * now elim Hnot.
      * split; [cbn [List.length]; lia|reflexivity].
Qed.

(** Induction on values, with the elements of arrays and the values of
    objects as premises. *)
Lemma value_induction (P : value -> Prop) :
  P VUndefined ->
  P VNull ->
  (forall b, P (VBoolean b)) ->
  (forall x, P (VNumber x)) ->
  (forall s, P (VString s)) ->
  (forall elements, Forall P elements -> P (VArray elements)) ->
  (forall entries, Forall (fun kv => P (snd kv)) entries -> P (VObject entries)) ->
  (forall e, P (VExotic e)) ->
  forall v, P v.
Proof.
  intros Hu Hn Hb Hx Hs Ha Ho He.
  fix IH 1. intros [| |b|x|s|elements|entries|e].
  - exact Hu.
  - exact Hn.
  - apply Hb.
  - apply Hx.
  - apply Hs.
  - apply Ha. induction elements as [|v elements IHl]; constructor.
    + apply IH.
    + exact IHl.
  - apply Ho. induction entries as [|[k v] entries IHl]; constructor.
    + apply IH.
    + exact IHl.
  - apply He.
Qed.

Lemma distinct_of_NoDup (l : list string) : NoDup l -> distinct l = true.
Proof.
  induction 1 as [|k l Hnot Hnd IH]; [reflexivity|].
  cbn [distinct]. rewrite IH, andb_true_r.
  destruct (existsb (String.eqb k) l) eqn:Hk; [|reflexivity].
  apply seen_iff_In in Hk. contradiction.
Qed.

Section ObjectSetPreserves.
Context {A : Type} (P : A -> Prop).

Lemma obj_replace_Forall (k : string) (v : A) (o : obj A) :
  P v -> Forall (fun kv => P (snd kv)) o ->
  Forall (fun kv => P (snd kv)) (obj_replace k v o).
Proof.
  intros Hv. induction 1 as [|[k' v'] o Hh Ht IH]; cbn [obj_replace].
  - constructor.
  - destruct (String.eqb k k'); constructor; auto.
Qed.

Lemma obj_insert_index_Forall (n : N) (k : string) (v : A) (o : obj A) :
  P v -> Forall (fun kv => P (snd kv)) o ->
  Forall (fun kv => P (snd kv)) (obj_insert_index n k v o).
Proof.
  intros Hv. induction 1 as [|[k' v'] o Hh Ht IH]; cbn [obj_insert_index].
  - constructor; [exact Hv|constructor].
  - destruct (array_index k') as [n'|].
    + destruct (n <? n')%N; repeat constructor; auto.
    + repeat constructor; auto.
Qed.

Lemma obj_set_Forall (k : string) (v : A) (o : obj A) :
  P v -> Forall (fun kv => P (snd kv)) o ->
  Forall (fun kv => P (snd kv)) (obj_set k v o).
Proof.
  intros Hv Ho. unfold obj_set. destruct (obj_has k o).
  - now apply obj_replace_Forall.
  - destruct (array_index k).
    + now apply obj_insert_index_Forall.
    + apply Forall_app. split; [assumption|]. constructor; [exact Hv|constructor].
Qed.

Lemma obj_put_Forall (k : string) (v : A) (o : obj A) :
  P v -> Forall (fun kv => P (snd kv)) o ->
  Forall (fun kv => P (snd kv)) (obj_put k v o).
Proof.
  intros Hv Ho. unfold obj_put. destruct (String.eqb k "__proto__").
  - destruct (obj_has k o); [now apply obj_set_Forall|exact Ho].
  - now apply obj_set_Forall.
Qed.

End ObjectSetPreserves.

Lemma infer_entries_Forall (P : SchemaType -> Prop) (infer : value -> SchemaType)
    (entries : list (string * value)) :
  Forall (fun kv => P (infer (snd kv))) entries ->
  Forall (fun kv => P (snd kv)) (fst (infer_entries infer entries)).
Proof.
  unfold infer_entries.
  assert (G : forall props req,
             Forall (fun kv => P (infer (snd kv))) entries ->
             Forall (fun kv : string * SchemaType => P (snd kv)) props ->
             Forall (fun kv : string * SchemaType => P (snd kv))
               (fst (fold_left
                       (fun (acc : list (string * SchemaType) * list string) kv =>
                          let (props, req) := acc in
                          (obj_put (fst kv) (infer (snd kv)) props,
                           if is_defined (snd kv) then (req ++ [fst kv])%list
                           else req))
                       entries (props, req)))).
  { induction entries as [|[k v] entries IH]; intros props req Hall Hprops;
      cbn [fold_left].
    - exact Hprops.
    - inversion Hall as [|? ? Hv Hrest]; subst. apply IH; [exact Hrest|].
      now apply obj_put_Forall. }
  intros Hall. apply G; [exact Hall|constructor].
Qed.

Lemma mergeSchemas_well_formed (x : SchemaType) (rest : list SchemaType) :
  Forall (fun s => unions_well_formed s = true) (x :: rest) ->
  unions_well_formed (mergeSchemas (x :: rest)) = true.
Proof.
  intros Hall.
  destruct (uniqueSchemas_facts x rest) as ((added & U & Hincl) & Hnd & _ & _).
  destruct (mergeSchemas_cases x rest) as [[_ ->]|[Hlen ->]].
  - now inversion Hall.
  - cbn [unions_well_formed union_node]. cbn [String.eqb Ascii.eqb Bool.eqb].
    rewrite (distinct_of_NoDup _ Hnd), andb_true_r.
    apply Nat.leb_le in Hlen. rewrite Hlen. cbn [andb].
    apply forallb_forall. intros s Hs.
    rewrite Forall_forall in Hall. apply Hall.
    rewrite U in Hs. destruct Hs as [<-|Hs]; [now left|right; now apply Hincl].
Qed.

(** Every tree that inference builds satisfies the invariant. *)
Lemma inferSchema_unions_well_formed (data : value) :
  unions_well_formed (inferSchema data) = true.
Proof.
  induction data as [| |b|x|s|elements IH|entries IH|e] using value_induction.
  - reflexivity.
  - reflexivity.
  - reflexivity.
  - cbn [inferSchema inferPrimitiveSchema].
    destruct (Number_isInteger x); reflexivity.
  - cbn [inferSchema inferPrimitiveSchema].
    destruct (Regex.test date_time_pattern s); [reflexivity|].
    destruct (Regex.test email_pattern s); [reflexivity|].
    destruct (Regex.test uuid_pattern s); reflexivity.
  - destruct elements as [|v elements]; [reflexivity|].
    cbn [inferSchema].
    change (unions_well_formed
              (array_node (mergeSchemas (map inferSchema (v :: elements))))
            = true).
    cbn [unions_well_formed array_node]. cbn [String.eqb Ascii.eqb Bool.eqb].
    cbn [map]. rewrite mergeSchemas_well_formed; [reflexivity|].
    rewrite <- map_cons. apply Forall_map. exact IH.
  - cbn [inferSchema].
    pose proof (infer_entries_Forall (fun s => unions_well_formed s = true)
                  inferSchema entries IH) as Hprops.
    destruct (infer_entries inferSchema entries) as [props req].
    cbn [fst] in Hprops.
    cbn [unions_well_formed object_node]. cbn [String.eqb Ascii.eqb Bool.eqb].
    cbn [andb]. rewrite !andb_true_r.
    apply forallb_forall. rewrite Forall_forall in Hprops. exact Hprops.
  - destruct e; reflexivity.
Qed.

(** C5, as stated, fails: two samples with the same fields written in a
    different order give two nodes that have equal type, fields,
    children and required names, yet the unifier keeps both as the
    children of a union, so this union has no two children that differ
    structurally.  In the first pair even the required lists are equal
    as lists; the second pair comes from JSON text. *)
Lemma union_of_structurally_equal_children :
  (inferSchema (VArray [sample_xa; sample_ax])
   = array_node (union_node [inferSchema sample_xa; inferSchema sample_ax])
   /\ mergeSchemas [inferSchema sample_xa; inferSchema sample_ax]
      = union_node [inferSchema sample_xa; inferSchema sample_ax]
   /\ required (inferSchema sample_xa) = required (inferSchema sample_ax)
   /\ ~ (exists a b,
           In a [inferSchema sample_xa; inferSchema sample_ax]
           /\ In b [inferSchema sample_xa; inferSchema sample_ax]
           /\ Spec.structurally_equal a b = false))
  /\ (inferSchema (VArray [sample_ab; sample_ba])
      = array_node (union_node [inferSchema sample_ab; inferSchema sample_ba])
      /\ ~ (exists a b,
              In a [inferSchema sample_ab; inferSchema sample_ba]
              /\ In b [inferSchema sample_ab; inferSchema sample_ba]
              /\ Spec.structurally_equal a b = false)).
Proof.
  split; [split; [|split; [|split]]|split]; try (vm_compute; reflexivity);
    intros (a & b & Ha & Hb & Hne);
    destruct Ha as [<-|[<-|[]]]; destruct Hb as [<-|[<-|[]]];
    vm_compute in Hne; discriminate.
Qed.

(** The deduplication, one more schema at the end of the list: the
    schema is kept, after those kept before, exactly when no schema of
    the list serializes like it. *)
Lemma uniqueSchemas_snoc (schemas : list SchemaType) (s : SchemaType) :
  uniqueSchemas (schemas ++ [s])%list
  = if existsb (String.eqb (stringify_schema s))
         (map stringify_schema schemas)
    then uniqueSchemas schemas
    else (uniqueSchemas schemas ++ [s])%list.
Proof.
  unfold uniqueSchemas, collect_unique. rewrite fold_left_app.
  cbn [fold_left].
  destruct (unique_fold_invariant schemas [] [] eq_refl (NoDup_nil _))
    as (A & _ & _ & D & E).
  destruct (fold_left unique_step schemas ([], [])) as [kept seen].
  cbn [fst snd] in *. unfold unique_step.
  assert (Hsame : existsb (String.eqb (stringify_schema s)) seen
                  = existsb (String.eqb (stringify_schema s))
                      (map stringify_schema schemas)).
  { destruct (existsb (String.eqb (stringify_schema s))
                (map stringify_schema schemas)) eqn:Hin.
    - apply seen_iff_In. apply seen_iff_In in Hin.
      apply in_map_iff in Hin. destruct Hin as [s' [<- Hs']]. now apply D.
    - destruct (existsb (String.eqb (stringify_schema s)) seen) eqn:Hseen;
        [|reflexivity].
      apply seen_iff_In in Hseen. destruct (E _ Hseen) as [[]|Hin'].
      apply seen_iff_In in Hin'. congruence. }
  rewrite Hsame.
  now destruct (existsb (String.eqb (stringify_schema s))
                  (map stringify_schema schemas)).
Qed.

(** A schema kept stands in the list where its serialization is seen
    for the first time, and the schemas kept before it are those kept
    from the part of the list before it. *)
Lemma uniqueSchemas_first_seen (schemas : list SchemaType) :
  forall before a after,
    uniqueSchemas schemas = (before ++ a :: after)%list ->
    exists p1 p2,
      schemas = (p1 ++ a :: p2)%list
      /\ uniqueSchemas p1 = before
      /\ ~ In (stringify_schema a) (map stringify_schema p1).
Proof.
  induction schemas as [|s schemas IH] using rev_ind; intros before a after H.
  - destruct before; discriminate H.
  - rewrite uniqueSchemas_snoc in H.
    destruct (existsb (String.eqb (stringify_schema s))
                (map stringify_schema schemas)) eqn:Hseen.
    + destruct (IH before a after H) as (p1 & p2 & -> & Hb & Hnot).
      exists p1, (p2 ++ [s])%list. split; [|split; assumption].
      now rewrite <- app_assoc.
    + destruct (exists_last (l := a :: after)) as (front & z & Hlast);
        [discriminate|].
      rewrite Hlast, app_assoc in H. apply app_inj_tail in H.
      destruct H as [H <-].
      destruct front as [|a' front'].
      * cbn [app] in Hlast. injection Hlast as -> ->.
        rewrite app_nil_r in H.
        exists schemas, []. split; [reflexivity|]. split; [exact H|].
        intros Hin. apply seen_iff_In in Hin. congruence.
      * cbn [app] in Hlast. injection Hlast as <- ->.
        destruct (IH before a front' H) as (p1 & p2 & -> & Hb & Hnot).
        exists p1, (p2 ++ [s])%list. split; [|split; assumption].
        now rewrite <- app_assoc.
Qed.

(** C5, amended: a singleton list is returned unchanged; the schemas
    kept by the deduplication are the first schema followed by schemas
    of the list, with pairwise different JSON serializations, and every
    schema of the list serializes like one of them; each schema kept
    stands in the list where its serialization occurs for the first
    time, and the schemas kept are in the order of these first
    occurrences; exactly one is kept if and only if every schema
    serializes like the first; the unifier then returns the first
    schema, and otherwise returns the union node of the kept schemas,
    which are at least two.  Hence in every tree that inference builds,
    each union node has at least two children and they differ pairwise
    in serialization.  Distinctness is that of the serializations, which
    depend on the order of the keys. *)
Theorem mergeSchemas_union_by_serialization (x : SchemaType)
    (rest : list SchemaType) (data : value) :
  let schemas := x :: rest in
  let unique := uniqueSchemas schemas in
  mergeSchemas [x] = x
  /\ unions_well_formed (inferSchema data) = true
  /\ hd_error unique = Some x
  /\ incl unique schemas
  /\ NoDup (map stringify_schema unique)
  /\ (forall s, In s schemas ->
                In (stringify_schema s) (map stringify_schema unique))
  /\ (forall k1 a k2,
        unique = (k1 ++ a :: k2)%list ->
        exists p1 p2,
          schemas = (p1 ++ a :: p2)%list
          /\ ~ In (stringify_schema a) (map stringify_schema p1))
  /\ (forall k1 a k2 b k3,
        unique = (k1 ++ a :: k2 ++ b :: k3)%list ->
        exists p1 p2 p3,
          schemas = (p1 ++ a :: p2 ++ b :: p3)%list
          /\ ~ In (stringify_schema a) (map stringify_schema p1)
          /\ ~ In (stringify_schema b)
                (map stringify_schema (p1 ++ a :: p2)%list))
  /\ (List.length unique = 1
      <-> Forall (fun s => stringify_schema s = stringify_schema x) rest)
  /\ ((List.length unique = 1 /\ mergeSchemas schemas = x)
      \/ (2 <= List.length unique
          /\ mergeSchemas schemas = union_node unique)).
Proof.
  cbv zeta.
  destruct (uniqueSchemas_facts x rest) as ((added & U & Hincl) & Hnd & Hcover & Hone).
  split; [reflexivity|].
  split; [apply inferSchema_unions_well_formed|].
  split; [rewrite U; reflexivity|].
  split.
  { rewrite U. intros s [<-|Hs]; [now left|right; now apply Hincl]. }
  split; [exact Hnd|].
  split; [exact Hcover|].
  split.
  { intros k1 a k2 H.
    destruct (uniqueSchemas_first_seen _ _ _ _ H) as (p1 & p2 & E & _ & Hnot).
    now exists p1, p2. }
  split.
  { intros k1 a k2 b k3 H.
    change (k1 ++ a :: k2 ++ b :: k3)%list
      with (k1 ++ (a :: k2) ++ b :: k3)%list in H.
    rewrite app_assoc in H.
    destruct (uniqueSchemas_first_seen _ _ _ _ H) as (q1 & p3 & E & Hq & Hb).
    destruct (uniqueSchemas_first_seen _ _ _ _ Hq) as (p1 & p2 & -> & _ & Ha).
    exists p1, p2, p3. split; [|split; assumption].
    rewrite E, <- app_assoc. reflexivity. }
  split; [exact Hone|].
  apply mergeSchemas_cases.
Qed.

(* ------------------------------------------------------------------ *)
(** ** The descent of [walk] never runs out of fuel *)

Lemma depth_JObject (members : obj json) (d : nat) :
  depth (JObject members) <= S d <-> values_within d members.
Proof.
  cbn [depth]. unfold values_within.
  induction members as [|[k v] members IH]; cbn [fold_right snd].
  - split; [constructor|lia].
  - split.
    + intros H. constructor; [cbn [snd]; lia|apply IH; lia].
    + intros H. inversion H as [|? ? Hv Hrest]; subst. cbn [snd] in Hv.
      apply IH in Hrest. lia.
Qed.

Lemma depth_JArray (elements : list json) (d : nat) :
  depth (JArray elements) <= S d <-> Forall (fun e => depth e <= d) elements.
Proof.
  cbn [depth].
  induction elements as [|v elements IH]; cbn [fold_right].
  - split; [constructor|lia].
  - split.
    + intros H. constructor; [lia|apply IH; lia].
    + intros H. inversion H as [|? ? Hv Hrest]; subst.
      apply IH in Hrest. lia.
Qed.

Lemma obj_get_within (d : nat) (k : string) (o : obj json) (v : json) :
  values_within d o -> obj_get k o = Some v -> depth v <= d.
Proof.
  induction 1 as [|[k' v'] o Hh Ht IH]; cbn [obj_get]; [discriminate|].
  destruct (String.eqb k k'); [intros [= <-]; exact Hh|exact IH].
Qed.

Lemma obj_delete_within (d : nat) (k : string) (o : obj json) :
  values_within d o -> values_within d (obj_delete k o).
Proof.
  induction 1 as [|[k' v'] o Hh Ht IH]; cbn [obj_delete]; [constructor|].
  destruct (String.eqb k k'); [exact Ht|constructor; assumption].
Qed.

Lemma obj_assign_within (d : nat) (src o : obj json) :
  values_within d src -> values_within d o -> values_within d (obj_assign o src).
Proof.
  unfold obj_assign. intros Hsrc. revert o.
  induction Hsrc as [|[k v] src Hh Ht IH]; intros o Ho; cbn [fold_left].
  - exact Ho.
  - apply IH. apply (obj_put_Forall (fun v => depth v <= d)); assumption.
Qed.

Lemma filter_unseen_within (d : nat) (subs : list json) :
  forall seen,
    Forall (fun e => depth e <= d) subs ->
    Forall (fun e => depth e <= d) (filter_unseen seen subs).
Proof.
  induction subs as [|sub subs IH]; intros seen H; cbn [filter_unseen].
  - constructor.
  - inversion H as [|? ? Hh Ht]; subst.
    destruct (existsb _ seen); [now apply IH|constructor; [exact Hh|now apply IH]].
Qed.

Lemma indexed_within (d : nat) (l : list json) :
  forall i, Forall (fun e => depth e <= d) l -> values_within d (indexed i l).
Proof.
  induction l as [|x l IH]; intros i H; cbn [indexed]; [constructor|].
  inversion H; subst. constructor; [assumption|now apply IH].
Qed.

Lemma characters_flat (s : string) (d : nat) :
  Forall (fun e => depth e <= d) (characters s).
Proof.
  induction s as [|c s IH]; cbn [characters]; constructor;
    [cbn [depth]; lia|exact IH].
Qed.

Lemma own_entries_within (d : nat) (v : json) :
  depth v <= S d -> values_within d (own_entries v).
Proof.
  destruct v as [| | | s | elements | members]; cbn [own_entries];
    try (intros _; constructor).
  - intros _. apply indexed_within, characters_flat.
  - intros H. apply indexed_within. now apply depth_JArray.
  - intros H. now apply depth_JObject.
Qed.

Lemma collapse_anyOf_within (d : nat) (members : obj json) :
  values_within d members -> values_within d (collapse_anyOf members).
Proof.
  intros H. unfold collapse_anyOf.
  destruct (obj_get "anyOf" members) as [[| | | |subs|]|] eqn:Hget; try exact H.
  pose proof (obj_get_within d _ _ _ H Hget) as Hd.
  destruct d as [|d]; [cbn [depth] in Hd; lia|].
  apply depth_JArray in Hd.
  pose proof (filter_unseen_within d subs [] Hd) as Hf.
  assert (Hset : values_within (S d)
                   (obj_set "anyOf" (JArray (filter_unseen [] subs)) members)).
  { apply (obj_set_Forall (fun v => depth v <= S d)); [|exact H].
    now apply depth_JArray. }
  destruct (filter_unseen [] subs) as [|only [|second others]]; try exact Hset.
  apply obj_delete_within, obj_assign_within; [|exact Hset].
  inversion Hf as [|? ? Honly _]; subst.
  destruct d as [|d].
  - destruct only; cbn [depth] in Honly; try lia; cbn [own_entries];
      try constructor. apply indexed_within.
    apply Forall_impl with (2 := characters_flat s 0). intros; lia.
  - apply Forall_impl with (P := fun kv => depth (snd kv) <= d).
    + intros; lia.
    + now apply own_entries_within.
Qed.

Lemma walk_fuel_stable (n : nat) :
  forall m v, depth v < n -> depth v < m -> walk_fuel n v = walk_fuel m v.
Proof.
  induction n as [|n IH]; intros m v Hn Hm; [lia|].
  destruct m as [|m]; [lia|].
  destruct v as [| | | | elements | members]; try reflexivity.
  - cbn [walk_fuel]. f_equal. apply map_ext_in. intros e He.
    assert (Hd : depth (JArray elements) <= S (Nat.min n m - 1)) by lia.
    destruct (Nat.min n m) as [|k] eqn:Hk.
    + cbn [depth] in Hn, Hm. lia.
    + apply depth_JArray in Hd. rewrite Forall_forall in Hd.
      specialize (Hd e He). apply IH; lia.
  - cbn [walk_fuel]. f_equal. apply map_ext_in. intros kv Hkv.
    destruct (Nat.min n m) as [|k] eqn:Hk.
    + cbn [depth] in Hn, Hm. lia.
    + assert (Hd : depth (JObject members) <= S k) by lia.
      apply depth_JObject, collapse_anyOf_within in Hd.
      unfold values_within in Hd. rewrite Forall_forall in Hd.
      specialize (Hd kv Hkv). f_equal. apply IH; lia.
Qed.

(** More fuel than the depth of the value changes nothing. *)
Lemma walk_fuel_enough (n : nat) (v : json) :
  depth v < n -> walk_fuel n v = walk v.
Proof.
  intros H. unfold walk. apply walk_fuel_stable; lia.
Qed.

(* ------------------------------------------------------------------ *)
(** ** Running the deduplication pass twice *)

(** The interface-target loop stops on a text that one more turn leaves
    unchanged. *)
Lemma dedupe_typescript_fixed_point (localeCompare : string -> string -> Z)
    (fuel : nat) :
  forall text result,
    dedupe_typescript localeCompare fuel text = Some result ->
    dedupe_pass localeCompare result = result.
Proof.
  induction fuel as [|fuel IH]; intros text result; cbn [dedupe_typescript].
  - discriminate.
  - destruct (String.eqb text (dedupe_pass localeCompare text)) eqn:Hstop.
    + intros [= <-]. apply String.eqb_eq in Hstop. now rewrite <- Hstop at 1.
    + apply IH.
Qed.

(** X20: the interface-target pass is idempotent: on a text it has
    returned, it returns that text after a single turn. *)
Lemma dedupe_typescript_idempotent (localeCompare : string -> string -> Z)
    (fuel : nat) (text result : string) :
  dedupeUnions localeCompare fuel text typescript false = Some result ->
  forall fuel',
    dedupeUnions localeCompare (S fuel') result typescript false = Some result.
Proof.
  cbn [dedupeUnions dedupe_typescript]. intros H fuel'.
  rewrite (dedupe_typescript_fixed_point _ _ _ _ H).
  now rewrite String.eqb_refl.
Qed.

(** C8 fails for the JSON-Schema target.  In [nested_anyOf] the inner
    list collapses to a member equal to its sibling only after the outer
    list has been filtered, so the text of the first pass still holds a
    repeated member and the second pass changes it.  The same happens to
    the document generated, without inferOptional, from the data
    [[[{"__proto__": 1}, {}], [{}]]]. *)
Theorem dedupeUnions_jsonschema_second_pass_changes
    (localeCompare : string -> string -> Z) (fuel : nat) :
  let once := json_text "{'anyOf':[{'type':'string'},{'type':'string'}]}" in
  let twice := json_text "{'type':'string'}" in
  dedupeUnions localeCompare fuel nested_anyOf jsonschema false = Some once
  /\ dedupeUnions localeCompare fuel once jsonschema false = Some twice
  /\ once <> twice
  /\ dedupeUnions localeCompare fuel
       (generateJsonSchema (inferSchema nested_samples) plain_options)
       jsonschema false
     = Some (generated_document
               "{'anyOf':[{'type':'array','items':{'type':'object','properties':{}}},{'type':'array','items':{'type':'object','properties':{}}}]}")
  /\ dedupeUnions localeCompare fuel
       (generated_document
          "{'anyOf':[{'type':'array','items':{'type':'object','properties':{}}},{'type':'array','items':{'type':'object','properties':{}}}]}")
       jsonschema false
     = Some (generated_document
               "{'type':'array','items':{'type':'object','properties':{}}}").
Proof.
  cbv zeta. split; [vm_compute; reflexivity|].
  split; [vm_compute; reflexivity|].
  split; [vm_compute; discriminate|].
  split; vm_compute; reflexivity.
Qed.

(* ------------------------------------------------------------------ *)
(** ** More on the unifier *)

(** The serializations kept are those of the list, each once. *)
Lemma uniqueSchemas_keys (schemas : list SchemaType) :
  NoDup (map stringify_schema (uniqueSchemas schemas))
  /\ incl (uniqueSchemas schemas) schemas
  /\ forall k, In k (map stringify_schema (uniqueSchemas schemas))
               <-> In k (map stringify_schema schemas).
Proof.
  unfold uniqueSchemas, collect_unique.
  destruct (unique_fold_invariant schemas [] [] eq_refl (NoDup_nil _))
    as (A & B & (added & C1 & C2) & D & E).
  cbn [app] in C1.
  split; [rewrite <- A; exact B|].
  split; [rewrite C1; exact C2|].
  intros k. rewrite <- A. split.
  - intros Hk. destruct (E k Hk) as [[]|Hin]. exact Hin.
  - intros Hk. apply in_map_iff in Hk. destruct Hk as [s [<- Hs]].
    now apply D.
Qed.

Lemma unique_fold_all_seen (schemas : list SchemaType) :
  forall kept seen,
    (forall s, In s schemas -> In (stringify_schema s) seen) ->
    fold_left unique_step schemas (kept, seen) = (kept, seen).
Proof.
  induction schemas as [|s schemas IH]; intros kept seen Hall; cbn [fold_left].
  - reflexivity.
  - replace (unique_step (kept, seen) s) with (kept, seen).
    + apply IH. intros s' Hs'. apply Hall. now right.
    + unfold unique_step.
      assert (H : existsb (String.eqb (stringify_schema s)) seen = true).
      { apply seen_iff_In, Hall. now left. }
      now rewrite H.
Qed.

Lemma unique_fold_fresh (schemas : list SchemaType) :
  forall kept seen,
    NoDup (map stringify_schema schemas) ->
    (forall s, In s schemas -> ~ In (stringify_schema s) seen) ->
    fold_left unique_step schemas (kept, seen)
    = ((kept ++ schemas)%list, (seen ++ map stringify_schema schemas)%list).
Proof.
  induction schemas as [|s schemas IH]; intros kept seen Hnd Hfresh;
    cbn [fold_left map].
  - now rewrite !app_nil_r.
  - inversion Hnd as [|? ? Hnot Hnd']; subst.
    replace (unique_step (kept, seen) s)
      with ((kept ++ [s])%list, (seen ++ [stringify_schema s])%list).
    + rewrite IH; [now rewrite <- !app_assoc|exact Hnd'|].
      intros s' Hs' Hin. apply in_app_iff in Hin. destruct Hin as [Hin|[Heq|[]]].
      * apply (Hfresh s'); [now right|exact Hin].
      * apply Hnot. rewrite Heq. now apply in_map.
    + unfold unique_step.
      destruct (existsb (String.eqb (stringify_schema s)) seen) eqn:Hs;
        [|reflexivity].
      apply seen_iff_In in Hs. exfalso. apply (Hfresh s); [now left|exact Hs].
Qed.

(** X1: the deduplication keeps a list whose serializations are pairwise
    different as it is, so it is idempotent. *)
Theorem uniqueSchemas_idempotent (schemas : list SchemaType) :
  uniqueSchemas (uniqueSchemas schemas) = uniqueSchemas schemas.
Proof.
  destruct (uniqueSchemas_keys schemas) as (Hnd & _ & _).
  unfold uniqueSchemas at 1. unfold collect_unique.
  rewrite unique_fold_fresh; [reflexivity|exact Hnd|].
  intros s _ [].
Qed.

Lemma fold_unique_app (l l' : list SchemaType) (acc : list SchemaType * list string) :
  fold_left unique_step (l ++ l')%list acc
  = fold_left unique_step l' (fold_left unique_step l acc).
Proof. apply fold_left_app. Qed.

Lemma mergeSchemas_by_unique (x : SchemaType) (rest rest' : list SchemaType) :
  uniqueSchemas (x :: rest) = uniqueSchemas (x :: rest') ->
  mergeSchemas (x :: rest) = mergeSchemas (x :: rest').
Proof.
  intros H.
  destruct (mergeSchemas_cases x rest) as [[L1 ->]|[L1 ->]];
    destruct (mergeSchemas_cases x rest') as [[L2 ->]|[L2 ->]];
    rewrite H in *; try reflexivity; lia.
Qed.

(** X2: schemas whose serialization already occurs in a nonempty list
    change nothing when they are appended to it. *)
Theorem mergeSchemas_absorbs_repeats (x : SchemaType)
    (rest more : list SchemaType) :
  (forall s, In s more ->
             In (stringify_schema s) (map stringify_schema (x :: rest))) ->
  mergeSchemas ((x :: rest) ++ more) = mergeSchemas (x :: rest).
Proof.
  intros Hall. cbn [app]. apply mergeSchemas_by_unique.
  unfold uniqueSchemas, collect_unique.
  change (x :: (rest ++ more)%list) with ((x :: rest) ++ more)%list.
  rewrite fold_unique_app.
  destruct (unique_fold_invariant (x :: rest) [] [] eq_refl (NoDup_nil _))
    as (A & _ & _ & D & _).
  destruct (fold_left unique_step (x :: rest) ([], [])) as [kept seen] eqn:Hr.
  cbn [fst snd] in *.
  rewrite unique_fold_all_seen; [reflexivity|].
  intros s Hs. specialize (Hall s Hs). apply in_map_iff in Hall.
  destruct Hall as [s' [<- Hs']]. now apply D.
Qed.

Lemma mergeSchemas_absorbs_repeats_witness :
  mergeSchemas ([node "integer"; node "string"] ++ [node "string"; node "integer"])
  = mergeSchemas [node "integer"; node "string"].
Proof.
  apply (mergeSchemas_absorbs_repeats (node "integer") [node "string"]
           [node "string"; node "integer"]).
  intros s [<-|[<-|[]]]; vm_compute; auto.
Defined.

(** X3: reordering the list changes neither the number of schemas kept
    nor the set of their serializations; either both orders give the
    union of the schemas they keep, which are at least two, or both give
    their first schema, and all schemas serialize alike. *)
Theorem mergeSchemas_permutation (x y : SchemaType) (rest rest' : list SchemaType) :
  Permutation (x :: rest) (y :: rest') ->
  List.length (uniqueSchemas (x :: rest)) = List.length (uniqueSchemas (y :: rest'))
  /\ (forall k, In k (map stringify_schema (uniqueSchemas (x :: rest)))
                <-> In k (map stringify_schema (uniqueSchemas (y :: rest'))))
  /\ ((mergeSchemas (x :: rest) = x /\ mergeSchemas (y :: rest') = y
       /\ stringify_schema x = stringify_schema y)
      \/ (2 <= List.length (uniqueSchemas (x :: rest))
          /\ mergeSchemas (x :: rest) = union_node (uniqueSchemas (x :: rest))
          /\ mergeSchemas (y :: rest') = union_node (uniqueSchemas (y :: rest')))).
Proof.
  intros Hperm.
  destruct (uniqueSchemas_keys (x :: rest)) as (N1 & _ & K1).
  destruct (uniqueSchemas_keys (y :: rest')) as (N2 & _ & K2).
  assert (Hsame : forall k,
             In k (map stringify_schema (uniqueSchemas (x :: rest)))
             <-> In k (map stringify_schema (uniqueSchemas (y :: rest')))).
  { intros k. rewrite K1, K2. split; apply Permutation_in.
    - now apply Permutation_map.
    - apply Permutation_map. now apply Permutation_sym. }
  assert (Hlen : List.length (uniqueSchemas (x :: rest))
                 = List.length (uniqueSchemas (y :: rest'))).
  { rewrite <- (length_map stringify_schema (uniqueSchemas (x :: rest))).
    rewrite <- (length_map stringify_schema (uniqueSchemas (y :: rest'))).
    apply Nat.le_antisymm; apply NoDup_incl_length; try assumption;
      intros k Hk; now apply Hsame. }
  split; [exact Hlen|]. split; [exact Hsame|].
  destruct (mergeSchemas_cases x rest) as [[L1 ->]|[L1 ->]];
    destruct (mergeSchemas_cases y rest') as [[L2 ->]|[L2 ->]]; try lia.
  - left. repeat split.
    destruct (uniqueSchemas_facts x rest) as (_ & _ & _ & Hone).
    apply Hone in L1. rewrite Forall_forall in L1.
    assert (Hy : In y (x :: rest)).
    { apply Permutation_in with (l := y :: rest');
        [now apply Permutation_sym|now left]. }
    destruct Hy as [->|Hy]; [reflexivity|]. symmetry. now apply L1.
  - right. repeat split. exact L1.
Qed.

Lemma mergeSchemas_permutation_witness :
  List.length (uniqueSchemas [node "integer"; node "string"; node "integer"])
  = List.length (uniqueSchemas [node "string"; node "integer"; node "integer"]).
Proof.
  exact (proj1 (mergeSchemas_permutation (node "integer") (node "string")
                  [node "string"; node "integer"] [node "integer"; node "integer"]
                  (perm_swap _ _ _))).
Defined.

(* ------------------------------------------------------------------ *)
(** ** More on inference *)

(** X4: a sequence whose elements all infer to schemas with the
    serialization of the first gives an array of the first element's
    schema: no union is built. *)
Theorem inferSchema_homogeneous_sequence (first : value) (others : list value) :
  Forall (fun v => stringify_schema (inferSchema v)
                   = stringify_schema (inferSchema first)) others ->
  inferSchema (VArray (first :: others)) = array_node (inferSchema first).
Proof.
  intros Hall.
  change (inferSchema (VArray (first :: others)))
    with (array_node (mergeSchemas (inferSchema first :: map inferSchema others))).
  f_equal.
  destruct (uniqueSchemas_facts (inferSchema first) (map inferSchema others))
    as (_ & _ & _ & Hone).
  destruct (mergeSchemas_cases (inferSchema first) (map inferSchema others))
    as [[_ H]|[Hlen _]]; [exact H|].
  assert (H1 : List.length (uniqueSchemas (inferSchema first :: map inferSchema others)) = 1).
  { apply Hone. apply Forall_map. exact Hall. }
  lia.
Qed.

Lemma inferSchema_homogeneous_sequence_witness :
  inferSchema (VArray [number_one; number_one; number_one])
  = array_node (inferSchema number_one).
Proof.
  apply (inferSchema_homogeneous_sequence number_one [number_one; number_one]).
  repeat constructor.
Defined.

Lemma mergeSchemas_well_shaped (x : SchemaType) (rest : list SchemaType) :
  Forall (fun s => Shape.well_shaped s = true) (x :: rest) ->
  Shape.well_shaped (mergeSchemas (x :: rest)) = true.
Proof.
  intros Hall.
  destruct (uniqueSchemas_facts x rest) as ((added & U & Hincl) & _).
  destruct (mergeSchemas_cases x rest) as [[_ ->]|[Hlen ->]].
  - now inversion Hall.
  - cbn [Shape.well_shaped union_node Shape.present].
    cbn [String.eqb Ascii.eqb Bool.eqb andb].
    apply forallb_forall. intros s Hs.
    rewrite Forall_forall in Hall. apply Hall.
    rewrite U in Hs. destruct Hs as [<-|Hs]; [now left|right; now apply Hincl].
Qed.

(** X5: in every inferred tree each array node has its [items] child,
    each object node its [properties] map and each union node its [enum]
    list, and the root is never a union node or the placeholder of type
    any. *)
Theorem inferSchema_well_shaped (data : value) :
  Shape.well_shaped (inferSchema data) = true
  /\ type (inferSchema data) <> "union"
  /\ type (inferSchema data) <> "any".
Proof.
  split.
  - induction data as [| |b|x|s|elements IH|entries IH|e] using value_induction.
    + reflexivity.
    + reflexivity.
    + reflexivity.
    + cbn [inferSchema inferPrimitiveSchema].
      destruct (Number_isInteger x); reflexivity.
    + cbn [inferSchema inferPrimitiveSchema].
      destruct (Regex.test date_time_pattern s); [reflexivity|].
      destruct (Regex.test email_pattern s); [reflexivity|].
      destruct (Regex.test uuid_pattern s); reflexivity.
    + destruct elements as [|v elements]; [reflexivity|].
      change (Shape.well_shaped
                (array_node (mergeSchemas (map inferSchema (v :: elements))))
              = true).
      cbn [Shape.well_shaped array_node Shape.present].
      cbn [String.eqb Ascii.eqb Bool.eqb andb].
      cbn [map]. rewrite mergeSchemas_well_shaped; [reflexivity|].
      rewrite <- map_cons. apply Forall_map. exact IH.
    + cbn [inferSchema].
      pose proof (infer_entries_Forall (fun s => Shape.well_shaped s = true)
                    inferSchema entries IH) as Hprops.
      destruct (infer_entries inferSchema entries) as [props req].
      cbn [fst] in Hprops.
      cbn [Shape.well_shaped object_node Shape.present].
      cbn [String.eqb Ascii.eqb Bool.eqb andb]. rewrite !andb_true_r.
      apply forallb_forall. rewrite Forall_forall in Hprops. exact Hprops.
    + destruct e; reflexivity.
  - destruct data as [| |b|x|s|elements|entries|e];
      cbn [inferSchema inferPrimitiveSchema].
    + split; discriminate.
    + split; discriminate.
    + split; discriminate.
    + destruct (Number_isInteger x); split; discriminate.
    + destruct (Regex.test date_time_pattern s); [split; discriminate|].
      destruct (Regex.test email_pattern s); [split; discriminate|].
      destruct (Regex.test uuid_pattern s); split; discriminate.
    + destruct elements; split; discriminate.
    + destruct (infer_entries inferSchema entries) as [props req].
      split; discriminate.
    + destruct e; split; discriminate.
Qed.

(* ------------------------------------------------------------------ *)
(** ** Lookup after assignment *)

Section ObjectLookup.
Context {A : Type}.

Lemma obj_get_None (k : string) (o : obj A) :
  obj_get k o = None <-> ~ In k (obj_keys o).
Proof.
  unfold obj_keys. induction o as [|[k' v'] o IH]; cbn [obj_get map fst In].
  - split; [intros _ []|reflexivity].
  - destruct (String.eqb k k') eqn:E.
    + apply String.eqb_eq in E. subst k'. split; [discriminate|].
      intros H. elim H. now left.
    + apply String.eqb_neq in E. rewrite IH. split.
      * intros H [Heq|Hin]; [now elim E|now elim H].
      * intros H Hin. apply H. now right.
Qed.

Lemma obj_get_replace (k k' : string) (v : A) (o : obj A) :
  obj_get k' (obj_replace k v o)
  = if String.eqb k' k then option_map (fun _ => v) (obj_get k o)
    else obj_get k' o.
Proof.
  induction o as [|[k0 v0] o IH]; cbn [obj_replace obj_get option_map].
  - now destruct (String.eqb k' k).
  - destruct (String.eqb k k0) eqn:E0; cbn [obj_get].
    + apply String.eqb_eq in E0. subst k0.
      destruct (String.eqb k' k); reflexivity.
    + destruct (String.eqb k' k0) eqn:E1.
      * apply String.eqb_eq in E1. subst k0.
        rewrite String.eqb_sym, E0. reflexivity.
      * exact IH.
Qed.

Lemma obj_get_insert_index (n : N) (k k' : string) (v : A) (o : obj A) :
  obj_get k o = None ->
  obj_get k' (obj_insert_index n k v o)
  = if String.eqb k' k then Some v else obj_get k' o.
Proof.
  induction o as [|[k0 v0] o IH]; cbn [obj_insert_index obj_get]; intros Hk.
  - reflexivity.
  - destruct (String.eqb k k0) eqn:E0; [discriminate|].
    destruct (array_index k0) as [n0|].
    + destruct (n <? n0)%N; cbn [obj_get].
      * reflexivity.
      * destruct (String.eqb k' k0) eqn:E1.
        -- apply String.eqb_eq in E1. subst k0.
           now rewrite String.eqb_sym, E0.
        -- now apply IH.
    + reflexivity.
Qed.

Lemma obj_get_app (k' : string) (o o' : obj A) :
  obj_get k' (o ++ o')%list
  = match obj_get k' o with Some v => Some v | None => obj_get k' o' end.
Proof.
  induction o as [|[k0 v0] o IH]; cbn [app obj_get]; [reflexivity|].
  now destruct (String.eqb k' k0).
Qed.

(** Reading a key after an own property was set. *)
Lemma obj_get_set (k k' : string) (v : A) (o : obj A) :
  obj_get k' (obj_set k v o)
  = if String.eqb k' k then Some v else obj_get k' o.
Proof.
  unfold obj_set, obj_has. destruct (obj_get k o) as [v0|] eqn:Hk.
  - rewrite obj_get_replace, Hk. reflexivity.
  - destruct (array_index k) as [n|].
    + now apply obj_get_insert_index.
    + rewrite obj_get_app. cbn [obj_get].
      destruct (String.eqb k' k) eqn:E.
      * apply String.eqb_eq in E. subst k'. now rewrite Hk.
      * now destruct (obj_get k' o).
Qed.

Lemma obj_get_put (k k' : string) (v : A) (o : obj A) :
  obj_get k' (obj_put k v o)
  = if String.eqb k "__proto__" && negb (obj_has k o) then obj_get k' o
    else if String.eqb k' k then Some v else obj_get k' o.
Proof.
  unfold obj_put. destruct (String.eqb k "__proto__"); [|apply obj_get_set].
  destruct (obj_has k o); [apply obj_get_set|reflexivity].
Qed.

Lemma obj_keys_replace (k : string) (v : A) (o : obj A) :
  obj_keys (obj_replace k v o) = obj_keys o.
Proof.
  unfold obj_keys. induction o as [|[k0 v0] o IH]; cbn [obj_replace map fst];
    [reflexivity|].
  destruct (String.eqb k k0); cbn [map fst]; [reflexivity|now rewrite IH].
Qed.

Lemma obj_keys_insert_index (n : N) (k : string) (v : A) (o : obj A) :
  Permutation (obj_keys (obj_insert_index n k v o)) (k :: obj_keys o).
Proof.
  unfold obj_keys. induction o as [|[k0 v0] o IH];
    cbn [obj_insert_index map fst]; [reflexivity|].
  destruct (array_index k0) as [n0|]; [|reflexivity].
  destruct (n <? n0)%N; cbn [map fst]; [reflexivity|].
  rewrite IH. apply perm_swap.
Qed.

(** Setting a property keeps the keys distinct. *)
Lemma obj_set_NoDup (k : string) (v : A) (o : obj A) :
  NoDup (obj_keys o) -> NoDup (obj_keys (obj_set k v o)).
Proof.
  intros Hnd. unfold obj_set, obj_has.
  destruct (obj_get k o) as [v0|] eqn:Hk.
  - now rewrite obj_keys_replace.
  - apply obj_get_None in Hk.
    destruct (array_index k) as [n|].
    + apply Permutation_NoDup with (l := k :: obj_keys o).
      * apply Permutation_sym, obj_keys_insert_index.
      * now constructor.
    + unfold obj_keys in *. rewrite map_app. cbn [map fst].
      apply NoDup_app; [assumption|constructor; [intros []|constructor]|].
      intros k' Hin [<-|[]]. contradiction.
Qed.

Lemma obj_put_NoDup (k : string) (v : A) (o : obj A) :
  NoDup (obj_keys o) -> NoDup (obj_keys (obj_put k v o)).
Proof.
  unfold obj_put. destruct (String.eqb k "__proto__"); [|apply obj_set_NoDup].
  destruct (obj_has k o); [apply obj_set_NoDup|trivial].
Qed.

Lemma obj_keys_get (k : string) (o : obj A) :
  In k (obj_keys o) <-> obj_get k o <> None.
Proof.
  pose proof (obj_get_None k o) as H.
  destruct (obj_get k o) as [v|].
  - split; [discriminate|]. intros _.
    destruct (in_dec string_dec k (obj_keys o)) as [Hin|Hnot]; [exact Hin|].
    apply H in Hnot. discriminate.
  - split; [|intros C; now elim C]. intros Hin. now apply H in Hin.
Qed.

Lemma obj_keys_put (k k' : string) (v : A) (o : obj A) :
  In k' (obj_keys (obj_put k v o))
  <-> (k' = k /\ k <> "__proto__") \/ In k' (obj_keys o).
Proof.
  rewrite !obj_keys_get, obj_get_put.
  destruct (String.eqb k "__proto__") eqn:Ep.
  - apply String.eqb_eq in Ep. unfold obj_has.
    destruct (obj_get k o) as [held|] eqn:Hheld; cbn [andb negb].
    + destruct (String.eqb k' k) eqn:E.
      * apply String.eqb_eq in E. subst k'. rewrite Hheld.
        split; [now right|discriminate].
      * split; [now right|]. intros [[_ C]|H]; [now elim C|exact H].
    + split; [now right|].
      intros [[_ C]|H]; [now elim C|exact H].
  - apply String.eqb_neq in Ep. cbn [andb]. destruct (String.eqb k' k) eqn:E.
    + apply String.eqb_eq in E. split; [now left|discriminate].
    + apply String.eqb_neq in E. split; [now right|].
      intros [[C _]|H]; [now elim E|exact H].
Qed.

End ObjectLookup.

(* ------------------------------------------------------------------ *)
(** ** The properties and the present set of an inferred object *)

Lemma infer_entries_keys (infer : value -> SchemaType)
    (entries : list (string * value)) :
  NoDup (obj_keys (fst (infer_entries infer entries)))
  /\ forall k, In k (obj_keys (fst (infer_entries infer entries)))
               <-> In k (map fst entries) /\ k <> "__proto__".
Proof.
  unfold infer_entries.
  assert (G : forall props req,
             NoDup (obj_keys props) ->
             let r := fold_left
                        (fun (acc : list (string * SchemaType) * list string) kv =>
                           let (props, req) := acc in
                           (obj_put (fst kv) (infer (snd kv)) props,
                            if is_defined (snd kv) then (req ++ [fst kv])%list
                            else req))
                        entries (props, req) in
             NoDup (obj_keys (fst r))
             /\ forall k, In k (obj_keys (fst r))
                          <-> (In k (map fst entries) /\ k <> "__proto__")
                              \/ In k (obj_keys props)).
  { induction entries as [|[k0 v0] entries IH]; intros props req Hnd;
      cbn [fold_left].
    - cbn [fst map In]. split; [exact Hnd|]. intros k. split; [now right|].
      intros [[[] _]|H]; exact H.
    - cbn [fst snd].
      destruct (IH (obj_put k0 (infer v0) props)
                   (if is_defined v0 then (req ++ [k0])%list else req)
                   (obj_put_NoDup _ _ _ Hnd)) as [N K].
      split; [exact N|]. intros k. rewrite K, obj_keys_put. cbn [map fst In].
      split.
      + intros [[Hin Hp]|[[-> Hp]|Hin]].
        * left. split; [now right|exact Hp].
        * left. split; [now left|exact Hp].
        * now right.
      + intros [[[<-|Hin] Hp]|Hin].
        * right. left. now split.
        * left. now split.
        * right. now right. }
  destruct (G [] [] (NoDup_nil _)) as [N K]. split; [exact N|].
  intros k. rewrite K. cbn [obj_keys map In]. split.
  - intros [H|[]]. exact H.
  - intros H. now left.
Qed.

Lemma inferred_object_keys_aux (entries : list (string * value)) :
  exists props,
    properties (inferSchema (VObject entries)) = Some props
    /\ NoDup (obj_keys props)
    /\ (forall k, In k (obj_keys props)
                  <-> In k (map fst entries) /\ k <> "__proto__")
    /\ (forall k, In k (present_set (inferSchema (VObject entries))) ->
                  k <> "__proto__" -> In k (obj_keys props)).
Proof.
  pose proof (infer_entries_keys inferSchema entries) as [N K].
  pose proof (inferSchema_object_present entries) as Hp.
  cbn [inferSchema] in *.
  destruct (infer_entries inferSchema entries) as [props req].
  cbn [fst] in *. exists props. cbn [object_node properties].
  split; [reflexivity|]. split; [exact N|]. split; [exact K|].
  intros k Hk Hproto. apply K. split; [|exact Hproto].
  rewrite Hp in Hk. apply in_map_iff in Hk. destruct Hk as [[k' v] [<- Hin]].
  apply filter_In in Hin. destruct Hin as [Hin _].
  apply in_map_iff. now exists (k', v).
Qed.

(** X6: the property names of the node inferred from a keyed mapping are
    pairwise different and are the keys of the mapping other than
    [__proto__]; every name of its present set other than [__proto__]
    is a property name. *)
Theorem inferred_object_keys (entries : list (string * value)) :
  exists props,
    properties (inferSchema (VObject entries)) = Some props
    /\ NoDup (obj_keys props)
    /\ (forall k, In k (obj_keys props)
                  <-> In k (map fst entries) /\ k <> "__proto__")
    /\ (forall k, In k (present_set (inferSchema (VObject entries))) ->
                  k <> "__proto__" -> In k (obj_keys props)).
Proof.
  exact (inferred_object_keys_aux entries).
Qed.

(** X7: when no value of the mapping is undefined and no key is
    [__proto__], as for a mapping read from JSON text without that key,
    the present set and the property names of the inferred node hold the
    same names: the two [required] policies of the JSON-Schema renderer
    then list the same names. *)
Theorem inferred_object_all_present (entries : list (string * value)) :
  Forall (fun kv => snd kv <> VUndefined /\ fst kv <> "__proto__") entries ->
  exists props,
    properties (inferSchema (VObject entries)) = Some props
    /\ forall k, In k (present_set (inferSchema (VObject entries)))
                 <-> In k (obj_keys props).
Proof.
  intros Hall. rewrite Forall_forall in Hall.
  destruct (inferred_object_keys_aux entries) as (props & Hprops & _ & K & Hsub).
  exists props. split; [exact Hprops|]. intros k. split.
  - intros Hk. apply Hsub; [exact Hk|].
    rewrite inferSchema_object_present in Hk. apply in_map_iff in Hk.
    destruct Hk as [[k' v] [<- Hin]]. apply filter_In in Hin.
    now apply Hall.
  - intros Hk. apply K in Hk. destruct Hk as [Hin _].
    rewrite inferSchema_object_present. apply in_map_iff in Hin.
    destruct Hin as [[k' v] [<- Hin]]. apply in_map_iff.
    exists (k', v). split; [reflexivity|]. apply filter_In. split; [exact Hin|].
    destruct (Hall _ Hin) as [Hv _]. cbn [snd] in *.
    destruct v; try reflexivity. now elim Hv.
Qed.

Lemma inferred_object_all_present_witness :
  exists props,
    properties (inferSchema sample_ab) = Some props
    /\ forall k, In k (present_set (inferSchema sample_ab))
                 <-> In k (obj_keys props).
Proof.
  apply (inferred_object_all_present
           [("a", number_one); ("b", number_one)]).
  repeat constructor; cbn; discriminate.
Defined.

(* ------------------------------------------------------------------ *)
(** ** Custom fields *)

Import CustomFields.

Lemma graft_lookup (fields : list CustomField) :
  forall props k,
    k <> "__proto__" ->
    obj_get k (graft fields props)
    = match last_named k fields with
      | Some field => Some (fieldSchemaType field)
      | None => obj_get k props
      end.
Proof.
  unfold last_named, graft.
  induction fields as [|f fields IH] using rev_ind; intros props k Hk.
  - reflexivity.
  - rewrite fold_left_app, rev_app_distr. cbn [fold_left rev app find].
    rewrite obj_get_put.
    destruct (String.eqb (name f) k) eqn:E.
    + apply String.eqb_eq in E. subst k.
      apply String.eqb_neq in Hk. rewrite Hk, String.eqb_refl. reflexivity.
    + rewrite (String.eqb_sym k (name f)), E.
      destruct (String.eqb (name f) "__proto__" && negb (obj_has (name f) _));
        now apply IH.
Qed.

Lemma graft_keys (fields : list CustomField) :
  forall props k,
    In k (obj_keys (graft fields props))
    <-> (In k (map name fields) /\ k <> "__proto__") \/ In k (obj_keys props).
Proof.
  unfold graft.
  induction fields as [|f fields IH]; intros props k; cbn [fold_left map In].
  - split; [now right|]. intros [[[] _]|H]; exact H.
  - rewrite IH, obj_keys_put. split.
    + intros [[Hin Hp]|[[-> Hp]|Hin]].
      * left. split; [now right|exact Hp].
      * left. split; [now left|exact Hp].
      * now right.
    + intros [[[<-|Hin] Hp]|Hin].
      * right. left. now split.
      * left. now split.
      * right. now right.
Qed.

(** X8: on an object schema, custom fields keep the type, the required
    list and the other fields, and the properties map then holds, under
    every name other than [__proto__], the schema of the last custom
    field of that name if there is one and the property it held before
    otherwise. *)
Theorem addCustomFields_lookup (fields : list CustomField) (data : SchemaType)
    (k : string) :
  k <> "__proto__" ->
  type data = "object" ->
  fields <> [] ->
  type (addCustomFields (Some fields) data) = type data
  /\ required (addCustomFields (Some fields) data) = required data
  /\ exists props,
       properties (addCustomFields (Some fields) data) = Some props
       /\ obj_get k props
          = match last_named k fields with
            | Some field => Some (fieldSchemaType field)
            | None =>
                match properties data with
                | Some ps => obj_get k ps
                | None => None
                end
            end.
Proof.
  intros Hk Hty Hne. unfold addCustomFields.
  destruct fields as [|f fields]; [now elim Hne|].
  rewrite Hty. cbn [String.eqb Ascii.eqb Bool.eqb negb type required properties].
  split; [reflexivity|]. split; [reflexivity|].
  eexists. split; [reflexivity|].
  rewrite graft_lookup by exact Hk.
  destruct (last_named k (f :: fields)); [reflexivity|].
  now destruct (properties data).
Qed.

(** The theorem at a schema inferred from a mapping, with two fields. *)
Lemma addCustomFields_lookup_witness :
  exists props,
    properties
      (addCustomFields
         (Some [mkCustomField "a" "string"; mkCustomField "tags" "array_string"])
         (inferSchema sample_ab)) = Some props
    /\ obj_get "tags" props = Some (array_node (node "string")).
Proof.
  assert (H : "tags" <> "__proto__") by discriminate.
  assert (N : [mkCustomField "a" "string"; mkCustomField "tags" "array_string"]
              <> []) by discriminate.
  destruct (addCustomFields_lookup
              [mkCustomField "a" "string"; mkCustomField "tags" "array_string"]
              (inferSchema sample_ab) "tags" H eq_refl N)
    as (_ & _ & props & Hp & Hget).
  exists props. split; [exact Hp|exact Hget].
Defined.

Lemma inferSchema_object_type (data : value) :
  type (inferSchema data) = "object" -> exists entries, data = VObject entries.
Proof.
  destruct data as [| |b|x|s|elements|entries|e];
    cbn [inferSchema inferPrimitiveSchema].
  - discriminate.
  - discriminate.
  - discriminate.
  - destruct (Number_isInteger x); discriminate.
  - destruct (Regex.test date_time_pattern s); [discriminate|].
    destruct (Regex.test email_pattern s); [discriminate|].
    destruct (Regex.test uuid_pattern s); discriminate.
  - destruct elements; discriminate.
  - intros _. now exists entries.
  - destruct e; discriminate.
Qed.

(** X9: custom fields are applied only to the schema of a keyed mapping:
    for any other sample, such as the sequence of rows of a CSV file or
    a JSON array, the inferred schema is left as it is. *)
Theorem addCustomFields_only_on_mappings (customFields : option (list CustomField))
    (data : value) :
  (forall entries, data <> VObject entries) ->
  addCustomFields customFields (inferSchema data) = inferSchema data.
Proof.
  intros Hnot. unfold addCustomFields.
  destruct customFields as [[|f fields]|]; try reflexivity.
  destruct (String.eqb (type (inferSchema data)) "object") eqn:E;
    [|reflexivity].
  apply String.eqb_eq, inferSchema_object_type in E.
  destruct E as [entries ->]. now elim (Hnot entries).
Qed.

(** The theorem at a sequence of two mappings. *)
Lemma addCustomFields_only_on_mappings_witness :
  addCustomFields (Some [mkCustomField "note" "string"])
    (inferSchema (VArray [sample_ab; sample_ba]))
  = inferSchema (VArray [sample_ab; sample_ba]).
Proof.
  apply (addCustomFields_only_on_mappings (Some [mkCustomField "note" "string"])
           (VArray [sample_ab; sample_ba])).
  intros entries. discriminate.
Defined.

(** The [required] member of a rendered object node. *)
Lemma rendered_required (ty : string) (props : option (list (string * SchemaType)))
    (its : option SchemaType) (fmt : option string) (req : option (list string))
    (en : option (list SchemaType)) (options : GenerateOptions) :
  ty = "object" ->
  let recorded := match req with Some r => r | None => [] end in
  let keys := match props with Some ps => obj_keys ps | None => [] end in
  let listed := if inferOptional options then recorded else keys in
  required_member
    (generateJsonSchemaFromSchema (mkSchemaType ty props its fmt req en) options)
  = match listed with
    | [] => None
    | _ => Some (string_array listed)
    end.
Proof.
  intros ->. cbn [generateJsonSchemaFromSchema].
  cbn [String.eqb Ascii.eqb Bool.eqb].
  unfold required_member.
  apply (set_required_lookup (inferOptional options) props req).
Qed.

(** X10: custom fields are never recorded as present.  With inferOptional
    the [required] member rendered for an object schema is the same with
    and without them; without inferOptional it lists every custom field
    name other than [__proto__]. *)
Theorem custom_fields_required (fields : list CustomField) (data : SchemaType)
    (pretty : bool) (title : option string) :
  type data = "object" ->
  required_member
    (generateJsonSchemaFromSchema (addCustomFields (Some fields) data)
       (mkGenerateOptions true pretty title))
  = required_member
      (generateJsonSchemaFromSchema data (mkGenerateOptions true pretty title))
  /\ forall field,
       In field fields -> name field <> "__proto__" ->
       exists listed,
         required_member
           (generateJsonSchemaFromSchema (addCustomFields (Some fields) data)
              (mkGenerateOptions false pretty title))
         = Some (string_array listed)
         /\ In (name field) listed.
Proof.
  intros Hty. destruct data as [ty props its fmt req en]. cbn [type] in Hty.
  subst ty. split.
  - destruct fields as [|f fields]; [reflexivity|].
    unfold addCustomFields. cbn [type String.eqb Ascii.eqb Bool.eqb negb].
    cbn [properties items format required enum].
    now rewrite !rendered_required.
  - intros field Hin Hname.
    destruct fields as [|f fields]; [destruct Hin|].
    unfold addCustomFields. cbn [type String.eqb Ascii.eqb Bool.eqb negb].
    cbn [properties items format required enum].
    rewrite rendered_required by reflexivity. cbn [inferOptional].
    set (props' := graft (f :: fields)
                     match props with Some ps => ps | None => [] end).
    assert (Hk : In (name field) (obj_keys props')).
    { apply graft_keys. left. split; [now apply in_map|exact Hname]. }
    destruct (obj_keys props') as [|k0 ks]; [destruct Hk|].
    exists (k0 :: ks). split; [reflexivity|exact Hk].
Qed.

Lemma custom_fields_required_witness :
  required_member
    (generateJsonSchemaFromSchema
       (addCustomFields (Some [mkCustomField "note" "string"])
          (inferSchema sample_ab))
       (mkGenerateOptions true false None))
  = required_member
      (generateJsonSchemaFromSchema (inferSchema sample_ab)
         (mkGenerateOptions true false None)).
Proof.
  apply (custom_fields_required [mkCustomField "note" "string"]
           (inferSchema sample_ab) false None eq_refl).
Defined.

(* ------------------------------------------------------------------ *)
(** ** The JSON-Schema document *)

Lemma rendered_keys (schema : SchemaType) (options : GenerateOptions) :
  NoDup (obj_keys (generateJsonSchemaFromSchema schema options))
  /\ incl (obj_keys (generateJsonSchemaFromSchema schema options))
          rendered_key_names.
Proof.
  assert (Hsub : forall l, (forall k, In k l -> In k rendered_key_names) ->
                           incl l rendered_key_names) by (intros l H; exact H).
  destruct schema as [ty props its fmt req en].
  cbn [generateJsonSchemaFromSchema].
  repeat match goal with
         | |- context [if String.eqb ty ?s then _ else _] =>
             destruct (String.eqb ty s)
         end.
  - split; [repeat constructor; cbn; intuition discriminate|].
    apply Hsub. cbn. intuition.
  - destruct (truthy_string fmt); (split;
      [repeat constructor; cbn; intuition discriminate|apply Hsub; cbn; intuition]).
  - split; [repeat constructor; cbn; intuition discriminate|].
    apply Hsub. cbn. intuition.
  - split; [repeat constructor; cbn; intuition discriminate|].
    apply Hsub. cbn. intuition.
  - split; [repeat constructor; cbn; intuition discriminate|].
    apply Hsub. cbn. intuition.
  - split; [repeat constructor; cbn; intuition discriminate|].
    apply Hsub. cbn. intuition.
  - unfold set_required.
    destruct (inferOptional options).
    + destruct req as [[|r0 r]|]; (split;
        [repeat constructor; cbn; intuition discriminate|apply Hsub; cbn; intuition]).
    + destruct props as [[|[k0 v0] ps]|]; (split;
        [repeat constructor; cbn; intuition discriminate|apply Hsub; cbn; intuition]).
  - destruct en as [[|c cs]|]; (split;
      [repeat constructor; cbn; intuition discriminate|apply Hsub; cbn; intuition]).
  - split; [repeat constructor; cbn; intuition discriminate|].
    apply Hsub. cbn. intuition.
Qed.

Lemma obj_spread_fresh (src : obj json) :
  forall base,
    NoDup (obj_keys src) ->
    (forall k, In k (obj_keys src) ->
               array_index k = None /\ ~ In k (obj_keys base)) ->
    obj_spread base src = (base ++ src)%list.
Proof.
  unfold obj_spread.
  induction src as [|[k v] src IH]; intros base Hnd Hfresh; cbn [fold_left].
  - now rewrite app_nil_r.
  - cbn [obj_keys map fst] in Hnd. inversion Hnd as [|? ? Hnot Hnd']; subst.
    destruct (Hfresh k (or_introl eq_refl)) as [Hidx Hbase].
    cbn [fst snd]. unfold obj_set at 2, obj_has.
    apply obj_get_None in Hbase. rewrite Hbase, Hidx.
    rewrite IH.
    + now rewrite <- app_assoc.
    + exact Hnd'.
    + intros k' Hk'. destruct (Hfresh k' (or_intror Hk')) as [Hi Hb].
      split; [exact Hi|]. unfold obj_keys. rewrite map_app, in_app_iff.
      intros [Hin|[<-|[]]]; [now apply Hb|now apply Hnot].
Qed.

Lemma schema_document_members (schema : SchemaType) (options : GenerateOptions) :
  schema_document schema options
  = JObject
      (("$schema", JString "http://json-schema.org/draft-07/schema#")
       :: ("title",
           JString (match interfaceName options with
                    | Some (String c rest) => String c rest
                    | _ => "GeneratedSchema"
                    end))
       :: generateJsonSchemaFromSchema schema options).
Proof.
  unfold schema_document. f_equal.
  destruct (rendered_keys schema options) as [Hnd Hincl].
  rewrite obj_spread_fresh.
  - cbn [app]. unfold or_default.
    destruct (interfaceName options) as [[|c rest]|]; reflexivity.
  - exact Hnd.
  - intros k Hk. apply Hincl in Hk. cbn in Hk.
    repeat destruct Hk as [<-|Hk]; try (now destruct Hk);
      (split; [reflexivity|cbn; intuition discriminate]).
Qed.

(** X11: the document is the [$schema] member, then the [title] member,
    then the members rendered for the schema, unchanged and in their
    order: no rendered member replaces or precedes the two.  The title is
    the name given in the options, or [GeneratedSchema] when the name is
    absent or empty. *)
Theorem schema_document_layout (schema : SchemaType) (options : GenerateOptions) :
  schema_document schema options
  = JObject
      (("$schema", JString "http://json-schema.org/draft-07/schema#")
       :: ("title",
           JString (match interfaceName options with
                    | Some (String c rest) => String c rest
                    | _ => "GeneratedSchema"
                    end))
       :: generateJsonSchemaFromSchema schema options).
Proof.
  exact (schema_document_members schema options).
Qed.

(* ------------------------------------------------------------------ *)
(** ** Round trip through [JSON.stringify] and [JSON.parse] *)

Import Printable.

Lemma append_assoc (a b c : string) : (a ++ b) ++ c = a ++ (b ++ c).
Proof.
  induction a as [|x a IH]; cbn [append]; [reflexivity|now rewrite IH].
Qed.

Lemma append_length (a b : string) :
  String.length (a ++ b) = String.length a + String.length b.
Proof.
  induction a as [|x a IH]; cbn [append String.length]; [reflexivity|].
  now rewrite IH.
Qed.

(** Induction on JSON values, with the elements and the member values
    as premises. *)
Lemma json_induction (P : json -> Prop) :
  P JNull ->
  (forall b, P (JBool b)) ->
  (forall lit, P (JNumber lit)) ->
  (forall s, P (JString s)) ->
  (forall elements, Forall P elements -> P (JArray elements)) ->
  (forall members, Forall (fun kv => P (snd kv)) members -> P (JObject members)) ->
  forall v, P v.
Proof.
  intros Hn Hb Hl Hs Ha Ho.
  fix IH 1. intros [|b|lit|s|elements|members].
  - exact Hn.
  - apply Hb.
  - apply Hl.
  - apply Hs.
  - apply Ha. induction elements as [|v elements IHl]; constructor;
      [apply IH|exact IHl].
  - apply Ho. induction members as [|[k v] members IHl]; constructor;
      [apply IH|exact IHl].
Qed.

Lemma parse_escape_char (c : ascii) (tail : string) :
  parse_string_chars (escape_char c ++ tail)
  = prepend (String c EmptyString) (parse_string_chars tail).
Proof.
  destruct c as [[] [] [] [] [] [] [] []]; reflexivity.
Qed.

(** Reading back a quoted string gives the string: every character that
    [JSON.stringify] escapes is decoded by [JSON.parse] to itself. *)
Lemma parse_quoted (s rest : string) :
  parse_string_chars (escape s ++ String dquote rest) = Some (s, rest).
Proof.
  induction s as [|c s IH]; cbn [escape].
  - cbn [append parse_string_chars]. now rewrite Ascii.eqb_refl.
  - rewrite append_assoc, parse_escape_char, IH. reflexivity.
Qed.

Lemma append_nil_r (a : string) : a ++ EmptyString = a.
Proof.
  induction a as [|x a IH]; cbn [append]; [reflexivity|now rewrite IH].
Qed.

Lemma stringify_array (elements : list json) :
  JSON_stringify (JArray elements)
  = match elements with
    | [] => "[]"
    | _ => "[" ++ join "," (map JSON_stringify elements) ++ "]"
    end.
Proof.
  unfold JSON_stringify. cbn [serialize append]. unfold enclose.
  destruct elements; reflexivity.
Qed.

Lemma stringify_object (members : obj json) :
  JSON_stringify (JObject members)
  = match members with
    | [] => "{}"
    | _ => "{" ++ join "," (map member_text members) ++ "}"
    end.
Proof.
  unfold JSON_stringify. cbn [serialize append]. unfold enclose.
  destruct members; reflexivity.
Qed.

Lemma join_cons_append (sep p : string) (ps : list string) (tail : string) :
  join sep (p :: ps) ++ tail
  = p ++ match ps with
         | [] => tail
         | _ => sep ++ join sep ps ++ tail
         end.
Proof.
  destruct ps as [|q ps]; cbn [join]; [reflexivity|].
  now rewrite !append_assoc.
Qed.

(** The text of a printable value starts with a character that is not
    white space and closes no array. *)
Lemma stringify_head (v : json) (tail : string) :
  printable v = true ->
  skip_ws (JSON_stringify v ++ tail) = JSON_stringify v ++ tail
  /\ starts_with "]" (JSON_stringify v ++ tail) = None.
Proof.
  destruct v as [|[]|lit|s|elements|members]; intros Hp;
    try (split; reflexivity); try discriminate Hp.
  - rewrite stringify_array. destruct elements; split; reflexivity.
  - rewrite stringify_object. destruct members; split; reflexivity.
Qed.

Lemma member_head (kv : string * json) (tail : string) :
  skip_ws (member_text kv ++ tail) = member_text kv ++ tail
  /\ starts_with "}" (member_text kv ++ tail) = None
  /\ starts_with dquote (member_text kv ++ tail)
     = Some (escape (fst kv)
               ++ String dquote (":" ++ JSON_stringify (snd kv) ++ tail)).
Proof.
  unfold member_text, quote. cbn [append].
  repeat split. cbn [starts_with]. rewrite Ascii.eqb_refl.
  now rewrite !append_assoc.
Qed.

Lemma parse_value_array (fuel : nat) (body : string) :
  parse_value (S fuel) (String "[" body)
  = match starts_with "]" (skip_ws body) with
    | Some rest => Some (JArray [], rest)
    | None => parse_elements fuel [] (skip_ws body)
    end.
Proof. reflexivity. Qed.

Lemma parse_value_object (fuel : nat) (body : string) :
  parse_value (S fuel) (String "{" body)
  = match starts_with "}" (skip_ws body) with
    | Some rest => Some (JObject [], rest)
    | None => parse_members fuel [] (skip_ws body)
    end.
Proof. reflexivity. Qed.

Lemma parse_value_string (fuel : nat) (body : string) :
  parse_value (S fuel) (String dquote body)
  = match parse_string_chars body with
    | Some (str, rest) => Some (JString str, rest)
    | None => None
    end.
Proof. reflexivity. Qed.

Lemma parse_elements_step (fuel : nat) (acc : list json) (s : string) :
  parse_elements (S fuel) acc s
  = match parse_value fuel s with
    | None => None
    | Some (v, rest) =>
        match starts_with "," (skip_ws rest) with
        | Some rest' => parse_elements fuel (v :: acc) (skip_ws rest')
        | None =>
            match starts_with "]" (skip_ws rest) with
            | Some rest' => Some (JArray (rev (v :: acc)), rest')
            | None => None
            end
        end
    end.
Proof. reflexivity. Qed.

Lemma parse_members_step (fuel : nat) (acc : obj json) (s : string) :
  parse_members (S fuel) acc s
  = match starts_with dquote s with
    | None => None
    | Some s' =>
        match parse_string_chars s' with
        | None => None
        | Some (k, rest) =>
            match starts_with ":" (skip_ws rest) with
            | None => None
            | Some rest' =>
                match parse_value fuel (skip_ws rest') with
                | None => None
                | Some (v, rest2) =>
                    match starts_with "," (skip_ws rest2) with
                    | Some rest3 =>
                        parse_members fuel (obj_set k v acc) (skip_ws rest3)
                    | None =>
                        match starts_with "}" (skip_ws rest2) with
                        | Some rest3 => Some (JObject (obj_set k v acc), rest3)
                        | None => None
                        end
                    end
                end
            end
        end
    end.
Proof. reflexivity. Qed.

Lemma skip_ws_mark (c : ascii) (tail : string) :
  is_ws c = false -> skip_ws (String c tail) = String c tail.
Proof. intros H. cbn [skip_ws]. now rewrite H. Qed.

Lemma starts_with_same (c : ascii) (tail : string) :
  starts_with c (String c tail) = Some tail.
Proof. cbn [starts_with]. now rewrite Ascii.eqb_refl. Qed.

Lemma starts_with_other (c c' : ascii) (tail : string) :
  Ascii.eqb c' c = false -> starts_with c (String c' tail) = None.
Proof. intros H. cbn [starts_with]. now rewrite H. Qed.

Lemma parse_elements_back (es : list json) :
  forall e acc rest fuel,
    Forall (fun v => printable v = true) (e :: es) ->
    Forall reads_back (e :: es) ->
    2 * String.length
          (join "," (map JSON_stringify (e :: es)) ++ String "]" rest) + 1
    <= fuel ->
    parse_elements fuel acc
      (join "," (map JSON_stringify (e :: es)) ++ String "]" rest)
    = Some (JArray (rev acc ++ e :: es), rest).
Proof.
  induction es as [|e2 es IH]; intros e acc rest fuel Hp Hr Hfuel;
    (destruct fuel as [|fuel]; [lia|]);
    inversion Hr as [|? ? He Hr']; subst;
    inversion Hp as [|? ? Hpe Hp']; subst;
    cbn [map] in *; rewrite join_cons_append in *; rewrite parse_elements_step.
  - rewrite He by lia.
    rewrite skip_ws_mark by reflexivity.
    rewrite starts_with_other by reflexivity.
    rewrite starts_with_same. reflexivity.
  - cbn [append] in *.
    assert (L : String.length
                  (join "," (JSON_stringify e2 :: map JSON_stringify es)
                     ++ String "]" rest)
                < String.length
                    (JSON_stringify e
                       ++ String ","
                            (join "," (JSON_stringify e2 :: map JSON_stringify es)
                               ++ String "]" rest))).
    { rewrite (append_length (JSON_stringify e)). cbn [String.length]. lia. }
    rewrite He by lia.
    rewrite skip_ws_mark by reflexivity. rewrite starts_with_same.
    assert (Hskip : skip_ws
                      (join "," (JSON_stringify e2 :: map JSON_stringify es)
                         ++ String "]" rest)
                    = join "," (JSON_stringify e2 :: map JSON_stringify es)
                        ++ String "]" rest).
    { rewrite join_cons_append. apply stringify_head. now inversion Hp'. }
    rewrite Hskip. rewrite (IH e2 (e :: acc) rest fuel Hp' Hr') by lia.
    cbn [rev]. now rewrite <- app_assoc.
Qed.

Lemma parse_members_back (ms : obj json) :
  forall m acc rest fuel,
    Forall (fun kv => printable (snd kv) = true) (m :: ms) ->
    Forall (fun kv => reads_back (snd kv)) (m :: ms) ->
    2 * String.length
          (join "," (map member_text (m :: ms)) ++ String "}" rest) + 1
    <= fuel ->
    parse_members fuel acc
      (join "," (map member_text (m :: ms)) ++ String "}" rest)
    = Some (JObject (obj_spread acc (m :: ms)), rest).
Proof.
  induction ms as [|m2 ms IH]; intros [k v] acc rest fuel Hp Hr Hfuel;
    (destruct fuel as [|fuel]; [lia|]);
    inversion Hr as [|? ? He Hr']; subst;
    inversion Hp as [|? ? Hpe Hp']; subst;
    cbn [map snd] in *; rewrite join_cons_append in *;
    rewrite parse_members_step.
  - destruct (member_head (k, v) (String "}" rest)) as (_ & _ & Hq).
    rewrite Hq. cbn [fst snd]. rewrite parse_quoted.
    cbn [append].
    rewrite skip_ws_mark by reflexivity. rewrite starts_with_same.
    destruct (stringify_head v (String "}" rest) Hpe) as [Hskip _].
    rewrite Hskip.
    assert (L : String.length (JSON_stringify v ++ String "}" rest)
                <= String.length (member_text (k, v) ++ String "}" rest)).
    { unfold member_text. cbn [fst snd]. rewrite !append_length. lia. }
    rewrite He by lia.
    rewrite skip_ws_mark by reflexivity.
    rewrite starts_with_other by reflexivity.
    rewrite starts_with_same. reflexivity.
  - cbn [append] in *.
    set (tail := join "," (member_text m2 :: map member_text ms)
                   ++ String "}" rest) in *.
    destruct (member_head (k, v) (String "," tail)) as (_ & _ & Hq).
    rewrite Hq. cbn [fst snd]. rewrite parse_quoted.
    cbn [append].
    rewrite skip_ws_mark by reflexivity. rewrite starts_with_same.
    destruct (stringify_head v (String "," tail) Hpe) as [Hskip _].
    rewrite Hskip.
    assert (L : String.length (JSON_stringify v ++ String "," tail)
                <= String.length (member_text (k, v) ++ String "," tail)).
    { unfold member_text. cbn [fst snd]. rewrite !append_length. lia. }
    assert (L2 : String.length tail
                 < String.length (member_text (k, v) ++ String "," tail)).
    { rewrite append_length. cbn [String.length]. lia. }
    rewrite He by lia.
    rewrite skip_ws_mark by reflexivity. rewrite starts_with_same.
    assert (Hskip2 : skip_ws tail = tail).
    { subst tail. rewrite join_cons_append. apply member_head. }
    rewrite Hskip2. subst tail.
    rewrite (IH m2 (obj_set k v acc) rest fuel Hp' Hr') by lia.
    reflexivity.
Qed.

Lemma obj_spread_NoDup (members : obj json) :
  forall base, NoDup (obj_keys base) -> NoDup (obj_keys (obj_spread base members)).
Proof.
  unfold obj_spread.
  induction members as [|[k v] members IH]; intros base Hnd; cbn [fold_left].
  - exact Hnd.
  - apply IH. now apply obj_set_NoDup.
Qed.

Lemma obj_spread_get (k : string) (members : obj json) :
  forall base,
    NoDup (obj_keys members) ->
    obj_get k (obj_spread base members)
    = match obj_get k members with
      | Some v => Some v
      | None => obj_get k base
      end.
Proof.
  unfold obj_spread.
  induction members as [|[k0 v0] members IH]; intros base Hnd;
    cbn [fold_left obj_get].
  - reflexivity.
  - cbn [obj_keys map fst] in Hnd. inversion Hnd as [|? ? Hnot Hnd']; subst.
    rewrite IH by exact Hnd'. cbn [fst snd]. rewrite obj_get_set.
    destruct (String.eqb k k0) eqn:E.
    + apply String.eqb_eq in E. subst k0.
      apply obj_get_None in Hnot. now rewrite Hnot.
    + reflexivity.
Qed.

Lemma obj_same_keys_same_values (a : obj json) :
  forall b : obj json,
    NoDup (obj_keys a) ->
    obj_keys a = obj_keys b ->
    (forall k, obj_get k a = obj_get k b) ->
    a = b.
Proof.
  unfold obj_keys at 1 2 3.
  induction a as [|[k v] a IH]; intros [|[k' v'] b] Hnd Hkeys Hget;
    cbn [map fst] in Hkeys; try discriminate; [reflexivity|].
  injection Hkeys as <- Hkeys.
  inversion Hnd as [|? ? Hnot Hnd']; subst.
  pose proof (Hget k) as Hk. cbn [obj_get] in Hk.
  rewrite String.eqb_refl in Hk. injection Hk as <-.
  f_equal. apply IH; [exact Hnd'|exact Hkeys|].
  intros k2. specialize (Hget k2). cbn [obj_get] in Hget.
  destruct (String.eqb k2 k) eqn:E; [|exact Hget].
  apply String.eqb_eq in E. subst k2.
  assert (Ha : obj_get k a = None) by now apply obj_get_None.
  assert (Hb : obj_get k b = None).
  { apply obj_get_None. unfold obj_keys. now rewrite <- Hkeys. }
  now rewrite Ha, Hb.
Qed.

Lemma same_keys_of_combine (a : obj json) :
  forall b : obj json,
    List.length a = List.length b ->
    forallb (fun p => String.eqb (fst (fst p)) (fst (snd p))) (combine a b) = true ->
    obj_keys a = obj_keys b.
Proof.
  unfold obj_keys.
  induction a as [|[k v] a IH]; intros [|[k' v'] b] Hlen Hall;
    cbn [List.length] in Hlen; try discriminate; [reflexivity|].
  cbn [combine forallb fst snd] in Hall.
  apply andb_prop in Hall. destruct Hall as [Hk Hall].
  apply String.eqb_eq in Hk. subst k'. cbn [map fst]. f_equal.
  apply IH; [lia|exact Hall].
Qed.

(** Replaying the members of an ordered object gives the object. *)
Lemma ordered_replay (members : obj json) :
  ordered members = true -> obj_spread [] members = members.
Proof.
  unfold ordered. cbv zeta. intros H. apply andb_prop in H.
  destruct H as [Hlen Hall]. apply Nat.eqb_eq in Hlen.
  pose proof (same_keys_of_combine _ _ Hlen Hall) as Hkeys.
  pose proof (obj_spread_NoDup members [] (NoDup_nil _)) as Hnd.
  apply obj_same_keys_same_values; [exact Hnd|exact Hkeys|].
  intros k. rewrite obj_spread_get.
  - now destruct (obj_get k members).
  - now rewrite <- Hkeys.
Qed.

Lemma reads_back_printable (v : json) : printable v = true -> reads_back v.
Proof.
  induction v as [|b|lit|s|elements IH|members IH] using json_induction;
    intros Hp rest fuel Hfuel.
  - destruct fuel as [|fuel]; [cbn in Hfuel; lia|]. reflexivity.
  - destruct fuel as [|fuel]; [destruct b; cbn in Hfuel; lia|].
    destruct b; reflexivity.
  - discriminate Hp.
  - destruct fuel as [|fuel]; [cbn in Hfuel; lia|].
    unfold JSON_stringify. cbn [serialize]. unfold quote. cbn [append].
    rewrite parse_value_string, append_assoc. cbn [append].
    now rewrite parse_quoted.
  - cbn [printable] in Hp. rewrite forallb_forall in Hp.
    rewrite stringify_array in *.
    destruct elements as [|e es].
    + destruct fuel as [|fuel]; [cbn in Hfuel; lia|]. reflexivity.
    + destruct fuel as [|fuel]; [cbn in Hfuel; lia|].
      rewrite !append_assoc in *. cbn [append] in *.
      rewrite parse_value_array.
      assert (Hall : Forall (fun v => printable v = true) (e :: es)).
      { apply Forall_forall. exact Hp. }
      assert (Hback : Forall reads_back (e :: es)).
      { rewrite Forall_forall in *. intros x Hx. apply IH; [exact Hx|].
        now apply Hp. }
      assert (Hskip : skip_ws (join "," (map JSON_stringify (e :: es))
                                 ++ String "]" rest)
                      = join "," (map JSON_stringify (e :: es)) ++ String "]" rest
                      /\ starts_with "]"
                           (join "," (map JSON_stringify (e :: es))
                              ++ String "]" rest) = None).
      { cbn [map]. rewrite join_cons_append. apply stringify_head.
        apply Hp. now left. }
      destruct Hskip as [Hskip Hclose]. rewrite Hskip, Hclose.
      rewrite parse_elements_back; [reflexivity|exact Hall|exact Hback|].
      cbn [String.length] in Hfuel. lia.
  - cbn [printable] in Hp. apply andb_prop in Hp. destruct Hp as [Hord Hp].
    rewrite forallb_forall in Hp.
    rewrite stringify_object in *.
    destruct members as [|m ms].
    + destruct fuel as [|fuel]; [cbn in Hfuel; lia|]. reflexivity.
    + destruct fuel as [|fuel]; [cbn in Hfuel; lia|].
      rewrite !append_assoc in *. cbn [append] in *.
      rewrite parse_value_object.
      assert (Hall : Forall (fun kv => printable (snd kv) = true) (m :: ms)).
      { apply Forall_forall. exact Hp. }
      assert (Hback : Forall (fun kv => reads_back (snd kv)) (m :: ms)).
      { rewrite Forall_forall in *. intros x Hx. apply IH; [exact Hx|].
        now apply Hp. }
      assert (Hskip : skip_ws (join "," (map member_text (m :: ms))
                                 ++ String "}" rest)
                      = join "," (map member_text (m :: ms)) ++ String "}" rest
                      /\ starts_with "}"
                           (join "," (map member_text (m :: ms))
                              ++ String "}" rest) = None).
      { cbn [map]. rewrite join_cons_append.
        destruct (member_head m
                    (match map member_text ms with
                     | [] => String "}" rest
                     | _ => "," ++ join "," (map member_text ms) ++ String "}" rest
                     end)) as (A & B & _).
        split; assumption. }
      destruct Hskip as [Hskip Hclose]. rewrite Hskip, Hclose.
      rewrite parse_members_back; [|exact Hall|exact Hback|].
      * now rewrite (ordered_replay _ Hord).
      * cbn [String.length] in Hfuel. lia.
Qed.

Lemma parse_stringify_aux (v : json) :
  printable v = true ->
  JSON_parse (JSON_stringify v) = Some v.
Proof.
  intros Hp. unfold JSON_parse.
  destruct (stringify_head v EmptyString Hp) as [Hskip _].
  rewrite append_nil_r in Hskip. rewrite Hskip.
  pose proof (reads_back_printable v Hp EmptyString
                (2 * String.length (JSON_stringify v) + 2)) as H.
  rewrite append_nil_r in H. rewrite H by lia. reflexivity.
Qed.

(* ------------------------------------------------------------------ *)
(** ** Round trip through [JSON.stringify(v, null, 2)] *)

Lemma skip_ws_blank (w tail : string) :
  blank w = true -> skip_ws (w ++ tail) = skip_ws tail.
Proof.
  induction w as [|c w IH]; cbn [blank append skip_ws]; [reflexivity|].
  intros H. apply andb_prop in H. destruct H as [Hc Hw].
  rewrite Hc. now apply IH.
Qed.

Lemma blank_app (a b : string) : blank (a ++ b) = blank a && blank b.
Proof.
  induction a as [|c a IH]; cbn [blank append andb]; [reflexivity|].
  rewrite IH. now rewrite andb_assoc.
Qed.

Lemma blank_line (stepback : string) :
  blank stepback = true -> blank (newline ++ stepback) = true.
Proof. intros H. rewrite blank_app, H. reflexivity. Qed.

Lemma blank_indent (stepback : string) :
  blank stepback = true -> blank (stepback ++ "  ") = true.
Proof. intros H. rewrite blank_app, H. reflexivity. Qed.

Lemma indent_array (stepback : string) (e : json) (es : list json)
    (rest : string) :
  serialize "  " stepback (JArray (e :: es)) ++ rest
  = String "["
      ((newline ++ stepback ++ "  ")
         ++ join ("," ++ newline ++ stepback ++ "  ")
              (map (serialize "  " (stepback ++ "  ")) (e :: es))
         ++ (newline ++ stepback) ++ String "]" rest).
Proof.
  cbn [serialize]. unfold enclose. cbn [map String.eqb Ascii.eqb Bool.eqb].
  rewrite !append_assoc. cbn [append]. rewrite ?append_assoc. reflexivity.
Qed.

Lemma indent_object (stepback : string) (m : string * json) (ms : obj json)
    (rest : string) :
  serialize "  " stepback (JObject (m :: ms)) ++ rest
  = String "{"
      ((newline ++ stepback ++ "  ")
         ++ join ("," ++ newline ++ stepback ++ "  ")
              (map (spaced_member (serialize "  " (stepback ++ "  "))) (m :: ms))
         ++ (newline ++ stepback) ++ String "}" rest).
Proof.
  cbn [serialize]. unfold enclose. cbn [map String.eqb Ascii.eqb Bool.eqb].
  rewrite !append_assoc. cbn [append]. rewrite ?append_assoc. reflexivity.
Qed.

Lemma parse_elements_spaced (text : json -> string) (w1 w2 : string)
    (es : list json) :
  blank w1 = true -> blank w2 = true ->
  forall e acc rest fuel,
    Forall (fun v => reads_as (text v) v) (e :: es) ->
    2 * String.length
          (join ("," ++ w1) (map text (e :: es)) ++ w2 ++ String "]" rest) + 1
    <= fuel ->
    parse_elements fuel acc
      (join ("," ++ w1) (map text (e :: es)) ++ w2 ++ String "]" rest)
    = Some (JArray (rev acc ++ e :: es), rest).
Proof.
  intros Hw1 Hw2.
  induction es as [|e2 es IH]; intros e acc rest fuel Hr Hfuel;
    (destruct fuel as [|fuel]; [lia|]);
    inversion Hr as [|? ? [He _] Hr']; subst;
    cbn [map] in *; rewrite join_cons_append in *; rewrite parse_elements_step.
  - rewrite He by lia.
    rewrite skip_ws_blank by exact Hw2.
    rewrite skip_ws_mark by reflexivity.
    rewrite starts_with_other by reflexivity.
    rewrite starts_with_same. reflexivity.
  - cbn [append] in *.
    set (tail := join (String "," w1) (text e2 :: map text es)
                   ++ w2 ++ String "]" rest) in *.
    assert (L : String.length tail
                < String.length (text e ++ String "," (w1 ++ tail))).
    { rewrite (append_length (text e)). cbn [String.length].
      rewrite (append_length w1). lia. }
    rewrite He by lia.
    rewrite skip_ws_mark by reflexivity. rewrite starts_with_same.
    rewrite skip_ws_blank by exact Hw1.
    assert (Hskip : skip_ws tail = tail).
    { subst tail. rewrite join_cons_append.
      inversion Hr' as [|? ? [_ Hhead] _]; subst. apply Hhead. }
    rewrite Hskip. subst tail.
    rewrite (IH e2 (e :: acc) rest fuel Hr') by lia.
    cbn [rev]. now rewrite <- app_assoc.
Qed.

Lemma spaced_member_head (text : json -> string) (kv : string * json)
    (tail : string) :
  skip_ws (spaced_member text kv ++ tail) = spaced_member text kv ++ tail
  /\ starts_with "}" (spaced_member text kv ++ tail) = None
  /\ starts_with dquote (spaced_member text kv ++ tail)
     = Some (escape (fst kv)
               ++ String dquote (String ":" (" " ++ text (snd kv) ++ tail))).
Proof.
  unfold spaced_member, quote. cbn [append].
  repeat split. cbn [starts_with]. rewrite Ascii.eqb_refl.
  rewrite !append_assoc. cbn [append]. reflexivity.
Qed.

Lemma parse_members_spaced (text : json -> string) (w1 w2 : string)
    (ms : obj json) :
  blank w1 = true -> blank w2 = true ->
  forall m acc rest fuel,
    Forall (fun kv => reads_as (text (snd kv)) (snd kv)) (m :: ms) ->
    2 * String.length
          (join ("," ++ w1) (map (spaced_member text) (m :: ms))
             ++ w2 ++ String "}" rest) + 1
    <= fuel ->
    parse_members fuel acc
      (join ("," ++ w1) (map (spaced_member text) (m :: ms))
         ++ w2 ++ String "}" rest)
    = Some (JObject (obj_spread acc (m :: ms)), rest).
Proof.
  intros Hw1 Hw2.
  induction ms as [|m2 ms IH]; intros [k v] acc rest fuel Hr Hfuel;
    (destruct fuel as [|fuel]; [lia|]);
    inversion Hr as [|? ? [He Hhead] Hr']; subst;
    cbn [map snd] in *; rewrite join_cons_append in *;
    rewrite parse_members_step.
  - destruct (spaced_member_head text (k, v) (w2 ++ String "}" rest))
      as (_ & _ & Hq).
    rewrite Hq. cbn [fst snd]. rewrite parse_quoted.
    rewrite skip_ws_mark by reflexivity. rewrite starts_with_same.
    rewrite (skip_ws_blank " ") by reflexivity.
    rewrite (proj1 (Hhead _)).
    assert (L : String.length (text v ++ w2 ++ String "}" rest)
                <= String.length
                     (spaced_member text (k, v) ++ w2 ++ String "}" rest)).
    { unfold spaced_member. cbn [fst snd]. rewrite !append_length. lia. }
    rewrite He by lia.
    rewrite skip_ws_blank by exact Hw2.
    rewrite skip_ws_mark by reflexivity.
    rewrite starts_with_other by reflexivity.
    rewrite starts_with_same. reflexivity.
  - cbn [append] in *.
    set (tail := join (String "," w1)
                   (spaced_member text m2 :: map (spaced_member text) ms)
                   ++ w2 ++ String "}" rest) in *.
    destruct (spaced_member_head text (k, v) (String "," (w1 ++ tail)))
      as (_ & _ & Hq).
    rewrite Hq. cbn [fst snd]. rewrite parse_quoted.
    rewrite skip_ws_mark by reflexivity. rewrite starts_with_same.
    rewrite (skip_ws_blank " ") by reflexivity.
    rewrite (proj1 (Hhead _)).
    assert (L : String.length (text v ++ String "," (w1 ++ tail))
                <= String.length
                     (spaced_member text (k, v) ++ String "," (w1 ++ tail))).
    { unfold spaced_member. cbn [fst snd]. rewrite !append_length. lia. }
    assert (L2 : String.length tail
                 < String.length
                     (spaced_member text (k, v) ++ String "," (w1 ++ tail))).
    { rewrite append_length. cbn [String.length].
      rewrite (append_length w1). lia. }
    rewrite He by lia.
    rewrite skip_ws_mark by reflexivity. rewrite starts_with_same.
    rewrite skip_ws_blank by exact Hw1.
    assert (Hskip2 : skip_ws tail = tail).
    { subst tail. rewrite join_cons_append. apply spaced_member_head. }
    rewrite Hskip2. subst tail.
    rewrite (IH m2 (obj_set k v acc) rest fuel Hr') by lia.
    reflexivity.
Qed.

Lemma reads_as_indented (v : json) :
  printable v = true ->
  forall stepback, blank stepback = true ->
    reads_as (serialize "  " stepback v) v.
Proof.
  induction v as [|b|lit|s|elements IH|members IH] using json_induction;
    intros Hp stepback Hblank.
  - split; [|split; reflexivity]. intros rest fuel Hfuel.
    destruct fuel as [|fuel]; [cbn in Hfuel; lia|]. reflexivity.
  - split; [|destruct b; split; reflexivity]. intros rest fuel Hfuel.
    destruct fuel as [|fuel]; [destruct b; cbn in Hfuel; lia|].
    destruct b; reflexivity.
  - discriminate Hp.
  - split; [|split; reflexivity]. intros rest fuel Hfuel.
    destruct fuel as [|fuel]; [cbn in Hfuel; lia|].
    cbn [serialize]. unfold quote. cbn [append].
    rewrite parse_value_string, append_assoc. cbn [append].
    now rewrite parse_quoted.
  - cbn [printable] in Hp. rewrite forallb_forall in Hp.
    destruct elements as [|e es].
    { split; [|split; reflexivity]. intros rest fuel Hfuel.
      destruct fuel as [|fuel]; [cbn in Hfuel; lia|]. reflexivity. }
    split; [|intros tail; rewrite indent_array; split; reflexivity].
    intros rest fuel Hfuel. rewrite indent_array in *.
    destruct fuel as [|fuel]; [cbn in Hfuel; lia|].
    rewrite parse_value_array.
    pose proof (blank_indent _ Hblank) as Hindent.
    assert (Hback : Forall (fun v => reads_as
                                       (serialize "  " (stepback ++ "  ") v) v)
                      (e :: es)).
    { rewrite Forall_forall in *. intros x Hx.
      apply IH; [exact Hx|now apply Hp|exact Hindent]. }
    rewrite skip_ws_blank by now apply blank_line.
    assert (Hhead : forall tail,
               skip_ws (join ("," ++ newline ++ stepback ++ "  ")
                          (map (serialize "  " (stepback ++ "  ")) (e :: es))
                          ++ tail)
               = join ("," ++ newline ++ stepback ++ "  ")
                   (map (serialize "  " (stepback ++ "  ")) (e :: es)) ++ tail
               /\ starts_with "]"
                    (join ("," ++ newline ++ stepback ++ "  ")
                       (map (serialize "  " (stepback ++ "  ")) (e :: es))
                       ++ tail) = None).
    { intros tail. cbn [map]. rewrite join_cons_append.
      inversion Hback as [|? ? [_ Hh] _]; subst. apply Hh. }
    destruct (Hhead ((newline ++ stepback) ++ String "]" rest))
      as [Hskip Hclose].
    rewrite Hskip, Hclose.
    rewrite parse_elements_spaced;
      [reflexivity|now apply blank_line|now apply blank_line|exact Hback|].
    cbn [String.length] in Hfuel.
    rewrite (append_length (newline ++ stepback ++ "  ")) in Hfuel. lia.
  - cbn [printable] in Hp. apply andb_prop in Hp. destruct Hp as [Hord Hp].
    rewrite forallb_forall in Hp.
    destruct members as [|m ms].
    { split; [|split; reflexivity]. intros rest fuel Hfuel.
      destruct fuel as [|fuel]; [cbn in Hfuel; lia|]. reflexivity. }
    split; [|intros tail; rewrite indent_object; split; reflexivity].
    intros rest fuel Hfuel. rewrite indent_object in *.
    destruct fuel as [|fuel]; [cbn in Hfuel; lia|].
    rewrite parse_value_object.
    pose proof (blank_indent _ Hblank) as Hindent.
    assert (Hback : Forall (fun kv => reads_as
                                        (serialize "  " (stepback ++ "  ") (snd kv))
                                        (snd kv))
                      (m :: ms)).
    { rewrite Forall_forall in *. intros x Hx.
      apply IH; [exact Hx|now apply Hp|exact Hindent]. }
    rewrite skip_ws_blank by now apply blank_line.
    assert (Hhead : forall tail,
               skip_ws (join ("," ++ newline ++ stepback ++ "  ")
                          (map (spaced_member
                                  (serialize "  " (stepback ++ "  "))) (m :: ms))
                          ++ tail)
               = join ("," ++ newline ++ stepback ++ "  ")
                   (map (spaced_member
                           (serialize "  " (stepback ++ "  "))) (m :: ms)) ++ tail
               /\ starts_with "}"
                    (join ("," ++ newline ++ stepback ++ "  ")
                       (map (spaced_member
                               (serialize "  " (stepback ++ "  "))) (m :: ms))
                       ++ tail) = None).
    { intros tail. cbn [map]. rewrite join_cons_append.
      destruct (spaced_member_head (serialize "  " (stepback ++ "  ")) m
                  (match map (spaced_member
                                (serialize "  " (stepback ++ "  "))) ms with
                   | [] => tail
                   | _ => ("," ++ newline ++ stepback ++ "  ")
                            ++ join ("," ++ newline ++ stepback ++ "  ")
                                 (map (spaced_member
                                         (serialize "  " (stepback ++ "  "))) ms)
                            ++ tail
                   end)) as (A & B & _).
      split; assumption. }
    destruct (Hhead ((newline ++ stepback) ++ String "}" rest))
      as [Hskip Hclose].
    rewrite Hskip, Hclose.
    rewrite parse_members_spaced;
      [|now apply blank_line|now apply blank_line|exact Hback|].
    + now rewrite (ordered_replay _ Hord).
    + cbn [String.length] in Hfuel.
      rewrite (append_length (newline ++ stepback ++ "  ")) in Hfuel. lia.
Qed.

Lemma parse_stringify_indent2_aux (v : json) :
  printable v = true ->
  JSON_parse (JSON_stringify_indent2 v) = Some v.
Proof.
  intros Hp. unfold JSON_parse, JSON_stringify_indent2.
  destruct (reads_as_indented v Hp EmptyString eq_refl) as [Hread Hhead].
  destruct (Hhead EmptyString) as [Hskip _].
  rewrite append_nil_r in Hskip. rewrite Hskip.
  pose proof (Hread EmptyString
                (2 * String.length (serialize "  " EmptyString v) + 2)) as H.
  rewrite append_nil_r in H. rewrite H by lia. reflexivity.
Qed.

(** A value without numbers whose objects list their members in the
    order of a JavaScript object is read back by [JSON.parse] from the
    text that [JSON.stringify] gives it, compact or indented by two
    spaces. *)
Lemma parse_stringify (v : json) :
  printable v = true ->
  JSON_parse (JSON_stringify v) = Some v
  /\ JSON_parse (JSON_stringify_indent2 v) = Some v.
Proof.
  intros Hp. split.
  - exact (parse_stringify_aux v Hp).
  - exact (parse_stringify_indent2_aux v Hp).
Qed.

(* ------------------------------------------------------------------ *)
(** ** Objects built by assignments are in key order *)

Import KeyOrder.

Section KeyOrderLemmas.
Context {A : Type}.

Lemma sorted_before_middle (l1 l2 : list string) (x : string) :
  StronglySorted key_before (l1 ++ x :: l2) ->
  Forall (fun y => key_before y x) l1.
Proof.
  induction l1 as [|y l1 IH]; cbn [app]; intros H; [constructor|].
  inversion H as [|? ? Hs Hall]; subst. constructor.
  - rewrite Forall_forall in Hall. apply Hall. apply in_app_iff. right. now left.
  - now apply IH.
Qed.

Lemma sorted_append_one (l : list string) (x : string) :
  StronglySorted key_before l ->
  Forall (fun y => key_before y x) l ->
  StronglySorted key_before (l ++ [x]).
Proof.
  induction 1 as [|y l Hs IH Hall]; intros Hx; cbn [app].
  - repeat constructor.
  - inversion Hx; subst. constructor; [now apply IH|].
    apply Forall_app. split; [exact Hall|]. now constructor.
Qed.

Lemma insert_index_at_end (n : N) (k : string) (v : A) (o : obj A) :
  array_index k = Some n ->
  Forall (fun y => key_before y k) (obj_keys o) ->
  obj_insert_index n k v o = (o ++ [(k, v)])%list.
Proof.
  intros Hk. unfold obj_keys.
  induction o as [|[k' v'] o IH]; cbn [map fst obj_insert_index app];
    intros Hall; [reflexivity|].
  inversion Hall as [|? ? Hb Hall']; subst.
  unfold key_before in Hb. rewrite Hk in Hb.
  destruct (array_index k') as [n'|]; [|destruct Hb].
  assert (E : (n <? n')%N = false) by (apply N.ltb_ge; exact Hb).
  rewrite E. now rewrite IH.
Qed.

Lemma set_at_end (k : string) (v : A) (o : obj A) :
  ~ In k (obj_keys o) ->
  Forall (fun y => key_before y k) (obj_keys o) ->
  obj_set k v o = (o ++ [(k, v)])%list.
Proof.
  intros Hnot Hall. unfold obj_set, obj_has.
  apply obj_get_None in Hnot. rewrite Hnot.
  destruct (array_index k) as [n|] eqn:Hk; [|reflexivity].
  now apply insert_index_at_end.
Qed.

(** Defining the members of an object in key order, one after the
    other, gives the object. *)
Lemma obj_spread_ordered (o : obj A) :
  forall base,
    js_ordered (base ++ o)%list -> obj_spread base o = (base ++ o)%list.
Proof.
  unfold obj_spread, js_ordered, obj_keys.
  induction o as [|[k v] o IH]; intros base [Hnd Hs]; cbn [fold_left].
  - now rewrite app_nil_r.
  - cbn [fst snd]. rewrite map_app in Hnd, Hs. cbn [map fst] in Hnd, Hs.
    rewrite set_at_end.
    + rewrite IH; [now rewrite <- app_assoc|].
      rewrite <- app_assoc. cbn [app]. rewrite map_app. cbn [map fst].
      now split.
    + apply NoDup_remove_2 in Hnd. intros Hin. apply Hnd.
      apply in_app_iff. now left.
    + now apply sorted_before_middle in Hs.
Qed.

Lemma insert_index_keys_sorted (n : N) (k : string) (v : A) (o : obj A) :
  array_index k = Some n ->
  StronglySorted key_before (obj_keys o) ->
  StronglySorted key_before (obj_keys (obj_insert_index n k v o)).
Proof.
  intros Hk. unfold obj_keys.
  induction o as [|[k' v'] o IH]; cbn [map fst obj_insert_index]; intros Hs.
  - repeat constructor.
  - inversion Hs as [|? ? Hs' Hall]; subst.
    destruct (array_index k') as [n'|] eqn:Hk'.
    + destruct (n <? n')%N eqn:E.
      * cbn [map fst]. constructor; [exact Hs|].
        apply N.ltb_lt in E. constructor.
        -- unfold key_before. rewrite Hk, Hk'. lia.
        -- apply Forall_impl with (2 := Hall). intros y Hy.
           unfold key_before in *. rewrite Hk. rewrite Hk' in Hy.
           destruct (array_index y); [lia|exact I].
      * cbn [map fst]. apply N.ltb_ge in E. constructor; [now apply IH|].
        assert (Hperm : Permutation
                          (map fst (obj_insert_index n k v o)) (k :: map fst o))
          by apply obj_keys_insert_index.
        apply Forall_forall. intros y Hy.
        apply (Permutation_in _ Hperm) in Hy. destruct Hy as [<-|Hy].
        -- unfold key_before. rewrite Hk', Hk. exact E.
        -- rewrite Forall_forall in Hall. now apply Hall.
    + cbn [map fst]. constructor; [exact Hs|]. constructor.
      * unfold key_before. now rewrite Hk, Hk'.
      * apply Forall_impl with (2 := Hall). intros y Hy.
        unfold key_before in *. rewrite Hk. rewrite Hk' in Hy.
        destruct (array_index y); [destruct Hy|exact I].
Qed.

(** Setting a property keeps an object in key order. *)
Lemma obj_set_ordered (k : string) (v : A) (o : obj A) :
  js_ordered o -> js_ordered (obj_set k v o).
Proof.
  intros [Hnd Hs]. split; [now apply obj_set_NoDup|].
  unfold obj_set, obj_has. destruct (obj_get k o) as [v0|] eqn:Hget.
  - now rewrite obj_keys_replace.
  - destruct (array_index k) as [n|] eqn:Hk.
    + now apply insert_index_keys_sorted.
    + unfold obj_keys. rewrite map_app. cbn [map fst].
      apply sorted_append_one; [exact Hs|].
      apply Forall_forall. intros y _. unfold key_before. rewrite Hk.
      now destruct (array_index y).
Qed.

Lemma obj_put_ordered (k : string) (v : A) (o : obj A) :
  js_ordered o -> js_ordered (obj_put k v o).
Proof.
  unfold obj_put. destruct (String.eqb k "__proto__"); [|apply obj_set_ordered].
  destruct (obj_has k o); [apply obj_set_ordered|trivial].
Qed.

Lemma js_ordered_nil : js_ordered (@nil (string * A)).
Proof. split; constructor. Qed.

End KeyOrderLemmas.

(* ------------------------------------------------------------------ *)
(** ** The generated document and the deduplication pass *)

(** Induction on schemas, with the property schemas, the element schema
    and the union members as premises. *)
Lemma SchemaType_induction (P : SchemaType -> Prop) :
  (forall ty props its fmt req en,
      match props with
      | Some ps => Forall (fun kv => P (snd kv)) ps
      | None => True
      end ->
      match its with Some child => P child | None => True end ->
      match en with Some l => Forall P l | None => True end ->
      P (mkSchemaType ty props its fmt req en)) ->
  forall s, P s.
Proof.
  intros H. fix IH 1. intros [ty props its fmt req en]. apply H.
  - destruct props as [ps|]; [|exact I].
    induction ps as [|[k v] ps IHl]; constructor; [apply IH|exact IHl].
  - destruct its as [child|]; [apply IH|exact I].
  - destruct en as [l|]; [|exact I].
    induction l as [|x l IHl]; constructor; [apply IH|exact IHl].
Qed.

Lemma ordered_of_js_ordered (o : obj json) :
  js_ordered o -> ordered o = true.
Proof.
  intros H. unfold ordered. cbv zeta.
  rewrite (obj_spread_ordered o [] H). cbn [app].
  rewrite Nat.eqb_refl. cbn [andb].
  induction o as [|[k v] o IH]; cbn [combine forallb fst snd]; [reflexivity|].
  rewrite String.eqb_refl. cbn [andb]. apply IH.
  destruct H as [Hnd Hs]. cbn [obj_keys map fst] in Hnd, Hs.
  inversion Hnd; inversion Hs; subst. now split.
Qed.

Lemma printable_string_array (l : list string) :
  printable (string_array l) = true.
Proof.
  unfold string_array. cbn [printable].
  induction l as [|x l IH]; [reflexivity|exact IH].
Qed.

Lemma rendered_properties_fold (P : json -> Prop) (options : GenerateOptions)
    (ps : list (string * SchemaType)) :
  Forall (fun kv => P (JObject (generateJsonSchemaFromSchema (snd kv) options))) ps ->
  forall acc,
    js_ordered acc ->
    Forall (fun kv => P (snd kv)) acc ->
    let rendered :=
      fold_left
        (fun acc kv =>
           obj_put (fst kv)
             (JObject (generateJsonSchemaFromSchema (snd kv) options)) acc)
        ps acc in
    js_ordered rendered /\ Forall (fun kv => P (snd kv)) rendered.
Proof.
  induction 1 as [|[k s] ps Hh Ht IH]; intros acc Ho Hall; cbn [fold_left].
  - now split.
  - apply IH.
    + now apply obj_put_ordered.
    + now apply obj_put_Forall.
Qed.

Lemma printable_object (members : obj json) :
  js_ordered members ->
  Forall (fun kv => printable (snd kv) = true) members ->
  printable (JObject members) = true.
Proof.
  intros Ho Hall. cbn [printable]. rewrite (ordered_of_js_ordered _ Ho).
  cbn [andb]. apply forallb_forall. rewrite Forall_forall in Hall. exact Hall.
Qed.

Lemma sorted_plain (l : list string) :
  Forall (fun k => array_index k = None) l -> StronglySorted key_before l.
Proof.
  induction 1 as [|k l Hk Hl IH]; constructor; [exact IH|].
  apply Forall_impl with (2 := Hl). intros y Hy. unfold key_before.
  now rewrite Hk, Hy.
Qed.

Ltac plain_members :=
  apply printable_object;
  [ split;
    [ repeat constructor; cbn; intuition discriminate
    | apply sorted_plain; repeat constructor ]
  | repeat constructor; cbn [snd]; try assumption; try reflexivity;
    try apply printable_string_array ].

Lemma printable_rendered (options : GenerateOptions) (schema : SchemaType) :
  printable (JObject (generateJsonSchemaFromSchema schema options)) = true.
Proof.
  induction schema as [ty props its fmt req en Hprops Hits Hen]
    using SchemaType_induction.
  cbn [generateJsonSchemaFromSchema].
  repeat match goal with
         | |- context [if String.eqb ty ?s then _ else _] =>
             destruct (String.eqb ty s)
         end; try reflexivity.
  - destruct (truthy_string fmt); reflexivity.
  - rewrite obj_set_plain by reflexivity. cbn [app].
    destruct its as [child|]; plain_members.
  - destruct props as [ps|].
    + destruct (rendered_properties_fold (fun v => printable v = true)
                  options ps Hprops [] js_ordered_nil (Forall_nil _))
        as [Ho Hall].
      pose proof (printable_object _ Ho Hall) as Hr.
      rewrite set_required_members.
      destruct (if inferOptional options
                then match req with Some r => r | None => [] end
                else obj_keys ps);
        plain_members.
    + rewrite set_required_members.
      destruct (if inferOptional options
                then match req with Some r => r | None => [] end
                else []);
        plain_members.
  - destruct en as [[|c cs]|]; try reflexivity.
    cbn [map]. apply printable_object;
      [split; [repeat constructor; cbn; intuition|
               apply sorted_plain; repeat constructor]|].
    repeat constructor. cbn [snd printable].
    change (forallb printable
              (map (fun s => JObject (generateJsonSchemaFromSchema s options))
                   (c :: cs)) = true).
    apply forallb_forall. intros x Hx.
    apply in_map_iff in Hx. destruct Hx as [s [<- Hs]].
    rewrite Forall_forall in Hen. now apply Hen.
Qed.

Lemma printable_document (schema : SchemaType) (options : GenerateOptions) :
  printable (schema_document schema options) = true.
Proof.
  rewrite schema_document_members.
  pose proof (printable_rendered options schema) as Hbody.
  destruct (rendered_keys schema options) as [Hnd Hincl].
  cbn [printable] in Hbody. apply andb_prop in Hbody.
  destruct Hbody as [_ Hvalues].
  apply printable_object.
  - split.
    + cbn [obj_keys map fst]. constructor; [|constructor; [|exact Hnd]].
      * intros [H|H]; [discriminate H|]. apply Hincl in H. cbn in H.
        intuition discriminate.
      * intros H. apply Hincl in H. cbn in H. intuition discriminate.
    + apply sorted_plain. cbn [obj_keys map fst].
      constructor; [reflexivity|]. constructor; [reflexivity|].
      apply Forall_forall. intros k Hk. apply Hincl in Hk. cbn in Hk.
      repeat destruct Hk as [<-|Hk]; try reflexivity. destruct Hk.
  - constructor; [reflexivity|]. constructor; [reflexivity|].
    apply Forall_forall. rewrite forallb_forall in Hvalues. exact Hvalues.
Qed.

(** X12: the text that [generateJsonSchema] returns, compact or indented,
    is always read back by [JSON.parse], to the document it was made
    from. *)
Theorem generated_document_parses (schema : SchemaType)
    (options : GenerateOptions) :
  JSON_parse (generateJsonSchema schema options)
  = Some (schema_document schema options).
Proof.
  unfold generateJsonSchema. destruct (prettify options).
  - apply parse_stringify_indent2_aux, printable_document.
  - apply parse_stringify_aux, printable_document.
Qed.

(* ------------------------------------------------------------------ *)
(** ** Documents that the pass leaves alone *)

Lemma NoDup_of_distinct (l : list string) : distinct l = true -> NoDup l.
Proof.
  induction l as [|k l IH]; cbn [distinct]; intros H; constructor.
  - apply andb_prop in H. destruct H as [H _].
    intros Hin. apply seen_iff_In in Hin. rewrite Hin in H. discriminate.
  - apply IH. apply andb_prop in H. tauto.
Qed.

Lemma filter_unseen_fresh (subs : list json) :
  forall seen,
    NoDup (map JSON_stringify subs) ->
    (forall s, In s subs -> ~ In (JSON_stringify s) seen) ->
    filter_unseen seen subs = subs.
Proof.
  induction subs as [|sub subs IH]; intros seen Hnd Hfresh;
    cbn [filter_unseen map] in *; [reflexivity|].
  inversion Hnd as [|? ? Hnot Hnd']; subst.
  destruct (existsb (String.eqb (JSON_stringify sub)) seen) eqn:E.
  - apply seen_iff_In in E. exfalso. apply (Hfresh sub); [now left|exact E].
  - f_equal. apply IH; [exact Hnd'|].
    intros s Hs Hin. apply in_app_iff in Hin. destruct Hin as [Hin|[Heq|[]]].
    + apply (Hfresh s); [now right|exact Hin].
    + apply Hnot. rewrite Heq. now apply in_map.
Qed.

Lemma obj_set_same {A : Type} (k : string) (v : A) (o : obj A) :
  obj_get k o = Some v -> obj_set k v o = o.
Proof.
  intros Hget. unfold obj_set, obj_has. rewrite Hget.
  induction o as [|[k' v'] o IH]; cbn [obj_get obj_replace] in *;
    [discriminate|].
  destruct (String.eqb k k') eqn:E.
  - now injection Hget as ->.
  - f_equal. now apply IH.
Qed.

Lemma collapse_settled (members : obj json) :
  settled (JObject members) = true -> collapse_anyOf members = members.
Proof.
  cbn [settled]. intros H. apply andb_prop in H. destruct H as [H _].
  unfold collapse_anyOf.
  destruct (obj_get "anyOf" members) as [[| | | |subs|]|] eqn:Hget;
    try reflexivity.
  apply andb_prop in H. destruct H as [Hd Hlen].
  rewrite filter_unseen_fresh.
  - rewrite (obj_set_same _ _ _ Hget).
    destruct subs as [|only [|second others]]; try reflexivity.
    discriminate Hlen.
  - now apply NoDup_of_distinct.
  - intros s _ [].
Qed.

Lemma walk_fuel_settled (fuel : nat) :
  forall v, settled v = true -> walk_fuel fuel v = v.
Proof.
  induction fuel as [|fuel IH]; intros v Hs; [reflexivity|].
  destruct v as [| | | |elements|members]; try reflexivity;
    cbn [walk_fuel].
  - f_equal. cbn [settled] in Hs. rewrite forallb_forall in Hs.
    rewrite <- (map_id elements) at 2. apply map_ext_in.
    intros e He. apply IH, Hs, He.
  - rewrite (collapse_settled _ Hs). f_equal.
    cbn [settled] in Hs. apply andb_prop in Hs. destruct Hs as [_ Hs].
    rewrite forallb_forall in Hs.
    rewrite <- (map_id members) at 2. apply map_ext_in.
    intros [k v] Hin. cbn [fst snd]. f_equal. apply IH.
    now apply (Hs (k, v)).
Qed.

Lemma dedupe_jsonschema_text (v : json) (indented prettify : bool) :
  printable v = true ->
  dedupe_jsonschema
    (if indented then JSON_stringify_indent2 v else JSON_stringify v) prettify
  = if prettify then JSON_stringify_indent2 (walk v)
    else JSON_stringify (walk v).
Proof.
  intros Hp. unfold dedupe_jsonschema.
  destruct indented.
  - now rewrite (parse_stringify_indent2_aux v Hp).
  - now rewrite (parse_stringify_aux v Hp).
Qed.

(** X13: when no [anyOf] list of a value holds a repeated or a single
    member, the pass for the JSON-Schema target returns the text of the
    value unchanged, compact or indented like the text. *)
Theorem dedupeUnions_settled_unchanged
    (localeCompare : string -> string -> Z) (fuel : nat) (v : json)
    (prettify : bool) :
  printable v = true ->
  settled v = true ->
  let text := if prettify then JSON_stringify_indent2 v
              else JSON_stringify v in
  dedupeUnions localeCompare fuel text jsonschema prettify = Some text.
Proof.
  intros Hp Hs. cbv zeta. cbn [dedupeUnions].
  rewrite (dedupe_jsonschema_text v prettify prettify Hp).
  unfold walk. now rewrite walk_fuel_settled.
Qed.

Lemma dedupeUnions_settled_unchanged_witness :
  dedupeUnions (fun _ _ => 0%Z) 0
    (JSON_stringify_indent2
       (JObject [("anyOf", JArray [JObject [("type", JString "null")];
                                   JObject [("type", JString "string")]])]))
    jsonschema true
  = Some (JSON_stringify_indent2
            (JObject [("anyOf", JArray [JObject [("type", JString "null")];
                                        JObject [("type", JString "string")]])])).
Proof.
  apply (dedupeUnions_settled_unchanged (fun _ _ => 0%Z) 0
           (JObject [("anyOf", JArray [JObject [("type", JString "null")];
                                       JObject [("type", JString "string")]])])
           true);
    reflexivity.
Defined.

(* ------------------------------------------------------------------ *)
(** ** Schemas without unions *)

Lemma obj_get_Forall {A : Type} (P : A -> Prop) (k : string) (o : obj A) (v : A) :
  Forall (fun kv => P (snd kv)) o -> obj_get k o = Some v -> P v.
Proof.
  induction 1 as [|[k' v'] o Hh Ht IH]; cbn [obj_get]; [discriminate|].
  destruct (String.eqb k k'); [|exact IH].
  intros Heq. injection Heq as <-. exact Hh.
Qed.

Lemma settled_string_array (l : list string) :
  settled (string_array l) = true.
Proof.
  unfold string_array. cbn [settled].
  induction l as [|x l IH]; [reflexivity|exact IH].
Qed.

(** An object whose members are all settled objects is settled. *)
Lemma settled_object_of_objects (members : obj json) :
  Forall (fun kv => settled (snd kv) = true
                    /\ exists inner, snd kv = JObject inner) members ->
  settled (JObject members) = true.
Proof.
  intros Hall. cbn [settled]. apply andb_true_intro. split.
  - destruct (obj_get "anyOf" members) as [v|] eqn:Hget; [|reflexivity].
    destruct (obj_get_Forall
                (fun v => settled v = true /\ exists inner, v = JObject inner)
                _ _ _ Hall Hget) as [_ [inner ->]].
    reflexivity.
  - apply forallb_forall. rewrite Forall_forall in Hall.
    intros kv Hin. now apply Hall.
Qed.

Lemma settled_object (members : obj json) :
  match obj_get "anyOf" members with
  | Some (JArray _) => False
  | _ => True
  end ->
  Forall (fun kv => settled (snd kv) = true) members ->
  settled (JObject members) = true.
Proof.
  intros Hget Hall. cbn [settled]. apply andb_true_intro. split.
  - destruct (obj_get "anyOf" members) as [[| | | |subs|]|];
      try reflexivity. destruct Hget.
  - apply forallb_forall. rewrite Forall_forall in Hall. exact Hall.
Qed.

Ltac settled_members :=
  apply settled_object;
  [ exact I
  | repeat constructor; cbn [snd]; try assumption; try reflexivity;
    try apply settled_string_array ].

Lemma settled_rendered (options : GenerateOptions) (schema : SchemaType) :
  union_free schema = true ->
  settled (JObject (generateJsonSchemaFromSchema schema options)) = true
  /\ obj_get "anyOf" (generateJsonSchemaFromSchema schema options) = None.
Proof.
  induction schema as [ty props its fmt req en Hprops Hits Hen]
    using SchemaType_induction.
  cbn [union_free]. intros Hfree.
  apply andb_prop in Hfree. destruct Hfree as [Hfree Hchild].
  apply andb_prop in Hfree. destruct Hfree as [Hty Hps].
  cbn [generateJsonSchemaFromSchema].
  repeat match goal with
         | |- context [if String.eqb ty ?s then _ else _] =>
             destruct (String.eqb ty s)
         end; try (split; reflexivity); try discriminate Hty.
  - destruct (truthy_string fmt); split; reflexivity.
  - rewrite obj_set_plain by reflexivity. cbn [app].
    destruct its as [child|]; [|split; reflexivity].
    destruct (Hits Hchild) as [Hs _]. split; [|reflexivity].
    settled_members.
  - destruct props as [ps|].
    + assert (Hall : Forall
                (fun kv =>
                   (fun v => settled v = true /\ exists inner, v = JObject inner)
                     (JObject (generateJsonSchemaFromSchema (snd kv) options)))
                ps).
      { rewrite forallb_forall in Hps. rewrite Forall_forall in Hprops |- *.
        intros kv Hin. split; [|eexists; reflexivity].
        apply (Hprops kv Hin). now apply Hps. }
      destruct (rendered_properties_fold _ options ps Hall [] js_ordered_nil
                  (Forall_nil _)) as [_ Hrendered].
      pose proof (settled_object_of_objects _ Hrendered) as Hr.
      rewrite set_required_members.
      destruct (if inferOptional options
                then match req with Some r => r | None => [] end
                else obj_keys ps);
        (split; [|reflexivity]); settled_members.
    + rewrite set_required_members.
      destruct (if inferOptional options
                then match req with Some r => r | None => [] end
                else []);
        (split; [|reflexivity]); settled_members.
Qed.

Lemma settled_document (schema : SchemaType) (options : GenerateOptions) :
  union_free schema = true ->
  settled (schema_document schema options) = true.
Proof.
  intros Hfree. rewrite schema_document_members.
  destruct (settled_rendered options schema Hfree) as [Hs Hnone].
  cbn [settled] in Hs |- *. rewrite Hnone in Hs. cbn [andb] in Hs.
  cbn [obj_get String.eqb Ascii.eqb Bool.eqb]. rewrite Hnone.
  cbn [andb forallb snd settled]. exact Hs.
Qed.

(** X14: for a schema without union nodes, the pass for the JSON-Schema
    target, called as [processGeneration] calls it, returns the generated
    document as it is. *)
Theorem dedupeUnions_union_free_document
    (localeCompare : string -> string -> Z) (fuel : nat)
    (schema : SchemaType) (options : GenerateOptions) :
  union_free schema = true ->
  dedupeUnions localeCompare fuel (generateJsonSchema schema options)
    jsonschema (prettify options)
  = Some (generateJsonSchema schema options).
Proof.
  intros Hfree. cbn [dedupeUnions]. unfold generateJsonSchema.
  rewrite (dedupe_jsonschema_text _ _ _ (printable_document schema options)).
  unfold walk. now rewrite (walk_fuel_settled _ _ (settled_document _ _ Hfree)).
Qed.

Lemma dedupeUnions_union_free_document_witness :
  dedupeUnions (fun _ _ => 0%Z) 0
    (generateJsonSchema
       (inferSchema (VObject [("a", VString "x"); ("b", VNull)]))
       plain_options)
    jsonschema (prettify plain_options)
  = Some (generateJsonSchema
            (inferSchema (VObject [("a", VString "x"); ("b", VNull)]))
            plain_options).
Proof.
  apply (dedupeUnions_union_free_document (fun _ _ => 0%Z) 0
           (inferSchema (VObject [("a", VString "x"); ("b", VNull)]))
           plain_options);
    reflexivity.
Defined.

(* ------------------------------------------------------------------ *)
(** ** The three string formats *)

Section FormatPatterns.
Import Regex Alphabet.

Lemma in_all_ascii (a : ascii) : In a all_ascii.
Proof.
  unfold all_ascii. rewrite <- (ascii_nat_embedding a).
  apply in_map, in_seq. pose proof (nat_ascii_bounded a). lia.
Qed.

Lemma dead_on_not_nullable (P : ascii -> bool) (r : regex) :
  dead_on P r = true -> nullable r = false.
Proof.
  induction r as [| |p|r1 IH1 r2 IH2|r1 IH1 r2 IH2|r1 IH1];
    cbn [dead_on nullable]; intros H; try reflexivity; try discriminate H.
  - apply orb_prop in H. destruct H as [H|H].
    + now rewrite (IH1 H).
    + rewrite (IH2 H). apply andb_false_r.
  - apply andb_prop in H. destruct H as [H1 H2].
    now rewrite (IH1 H1), (IH2 H2).
Qed.

Lemma dead_on_deriv (P : ascii -> bool) (a : ascii) (r : regex) :
  P a = true -> dead_on P r = true -> dead_on P (deriv a r) = true.
Proof.
  intros Ha.
  induction r as [| |p|r1 IH1 r2 IH2|r1 IH1 r2 IH2|r1 IH1];
    cbn [dead_on deriv]; intros H; try reflexivity; try discriminate H.
  - rewrite forallb_forall in H. specialize (H a (in_all_ascii a)).
    rewrite Ha, andb_true_r in H. apply negb_true_iff in H.
    now rewrite H.
  - apply orb_prop in H. destruct H as [H|H].
    + rewrite (dead_on_not_nullable P r1 H). cbn [dead_on].
      now rewrite (IH1 H).
    + destruct (nullable r1); cbn [dead_on]; rewrite ?H, ?(IH2 H);
        cbn [andb]; now rewrite ?orb_true_r.
  - apply andb_prop in H. destruct H as [H1 H2].
    now rewrite (IH1 H1), (IH2 H2).
Qed.

Lemma dead_on_sound (P : ascii -> bool) (s : string) :
  forall r, dead_on P r = true -> chars_all P s = true -> test r s = false.
Proof.
  induction s as [|a s IH]; intros r Hd Hs; cbn [test chars_all] in *.
  - now apply (dead_on_not_nullable P).
  - apply andb_prop in Hs. destruct Hs as [Ha Hs].
    apply IH; [now apply dead_on_deriv|exact Hs].
Qed.

Lemma within_deriv (P : ascii -> bool) (a : ascii) (r : regex) :
  within P r = true -> within P (deriv a r) = true.
Proof.
  induction r as [| |p|r1 IH1 r2 IH2|r1 IH1 r2 IH2|r1 IH1];
    cbn [within deriv]; intros H; try reflexivity.
  - now destruct (p a).
  - apply andb_prop in H. destruct H as [H1 H2].
    destruct (nullable r1); cbn [within];
      now rewrite ?(IH1 H1), ?(IH2 H2), ?H2.
  - apply andb_prop in H. destruct H as [H1 H2].
    now rewrite (IH1 H1), (IH2 H2).
  - now rewrite (IH1 H), H.
Qed.

Lemma within_reject (P : ascii -> bool) (a : ascii) (r : regex) :
  P a = false -> within P r = true ->
  dead_on (fun _ => true) (deriv a r) = true.
Proof.
  intros Ha.
  induction r as [| |p|r1 IH1 r2 IH2|r1 IH1 r2 IH2|r1 IH1];
    cbn [within deriv]; intros H; try reflexivity.
  - rewrite forallb_forall in H. specialize (H a (in_all_ascii a)).
    rewrite Ha in H. now destruct (p a).
  - apply andb_prop in H. destruct H as [H1 H2].
    destruct (nullable r1); cbn [dead_on];
      now rewrite (IH1 H1), ?(IH2 H2).
  - apply andb_prop in H. destruct H as [H1 H2].
    cbn [dead_on]. now rewrite (IH1 H1), (IH2 H2).
  - cbn [dead_on]. now rewrite (IH1 H).
Qed.

Lemma chars_all_true (s : string) : chars_all (fun _ => true) s = true.
Proof. induction s as [|a s IH]; [reflexivity|exact IH]. Qed.

Lemma within_sound (P : ascii -> bool) (s : string) :
  forall r, within P r = true -> test r s = true -> chars_all P s = true.
Proof.
  induction s as [|a s IH]; intros r Hw Ht; cbn [test chars_all] in *;
    [reflexivity|].
  destruct (P a) eqn:Ha.
  - apply (IH (deriv a r)); [now apply within_deriv|exact Ht].
  - rewrite (dead_on_sound (fun _ => true) s (deriv a r)) in Ht.
    + discriminate Ht.
    + now apply (within_reject P).
    + apply chars_all_true.
Qed.

(** When the words of [r1] are made of characters that [r2] cannot make
    a word from, no string matches both. *)
Lemma separated (P : ascii -> bool) (r1 r2 : regex) (s : string) :
  within P r1 = true -> dead_on P r2 = true ->
  test r1 s = true -> test r2 s = false.
Proof.
  intros Hw Hd Ht. apply (dead_on_sound P); [exact Hd|].
  now apply (within_sound P s r1).
Qed.

Lemma date_time_excludes (s : string) :
  test date_time_pattern s = true ->
  test email_pattern s = false /\ test uuid_pattern s = false.
Proof.
  intros Ht. split.
  - apply (separated (other_than "@") date_time_pattern); [| |exact Ht];
      vm_compute; reflexivity.
  - destruct (test uuid_pattern s) eqn:Hu; [|reflexivity].
    rewrite (separated (other_than "T") uuid_pattern date_time_pattern s)
      in Ht; [discriminate Ht| | |exact Hu]; vm_compute; reflexivity.
Qed.

Lemma email_excludes (s : string) :
  test email_pattern s = true -> test uuid_pattern s = false.
Proof.
  intros Ht. destruct (test uuid_pattern s) eqn:Hu; [|reflexivity].
  rewrite (separated (other_than "@") uuid_pattern email_pattern s)
    in Ht; [discriminate Ht| | |exact Hu]; vm_compute; reflexivity.
Qed.

End FormatPatterns.

(** X15: no string matches two of the three format patterns, so the tag a
    string gets does not depend on the order of the tests: a string is
    tagged date-time, email or uuid exactly when it matches the pattern
    of that format, and it has no tag exactly when it matches none. *)
Theorem format_tag_by_pattern (s : string) :
  let tag := format (inferPrimitiveSchema (VString s)) in
  (tag = Some "date-time" <-> Regex.test date_time_pattern s = true)
  /\ (tag = Some "email" <-> Regex.test email_pattern s = true)
  /\ (tag = Some "uuid" <-> Regex.test uuid_pattern s = true)
  /\ (tag = None <->
      Regex.test date_time_pattern s = false
      /\ Regex.test email_pattern s = false
      /\ Regex.test uuid_pattern s = false).
Proof.
  cbv zeta. cbn [inferPrimitiveSchema].
  pose proof (date_time_excludes s) as Hd.
  pose proof (email_excludes s) as He.
  destruct (Regex.test date_time_pattern s).
  - destruct (Hd eq_refl) as [-> ->]. cbn.
    repeat split; intros; try reflexivity; try discriminate;
      intuition discriminate.
  - destruct (Regex.test email_pattern s).
    + rewrite (He eq_refl). cbn.
      repeat split; intros; try reflexivity; try discriminate;
        intuition discriminate.
    + destruct (Regex.test uuid_pattern s); cbn;
        repeat split; intros; try reflexivity; try discriminate;
          intuition discriminate.
Qed.

(* ------------------------------------------------------------------ *)
(** ** Data in which every key is present *)

Lemma same_names_eq (a b : list string) : same_names a b = true <-> a = b.
Proof.
  unfold same_names. destruct (list_eq_dec string_dec a b); split;
    intros; try assumption; try reflexivity; try discriminate; contradiction.
Qed.

Lemma obj_has_keys {A B : Type} (k : string) (o : obj A) (o' : obj B) :
  obj_keys o = obj_keys o' -> obj_has k o = obj_has k o'.
Proof.
  intros H. unfold obj_has.
  pose proof (obj_get_None k o) as Ho. pose proof (obj_get_None k o') as Ho'.
  rewrite H in Ho.
  destruct (obj_get k o), (obj_get k o'); try reflexivity; exfalso.
  - destruct Ho' as [Ho' _]. specialize (Ho' eq_refl).
    destruct Ho as [_ Ho]. now discriminate (Ho Ho').
  - destruct Ho as [Ho _]. specialize (Ho eq_refl).
    destruct Ho' as [_ Ho']. now discriminate (Ho' Ho).
Qed.

Lemma obj_insert_index_keys {A B : Type} (n : N) (k : string) (v : A) (w : B)
    (o : obj A) :
  forall o' : obj B,
    obj_keys o = obj_keys o' ->
    obj_keys (obj_insert_index n k v o) = obj_keys (obj_insert_index n k w o').
Proof.
  unfold obj_keys.
  induction o as [|[k0 v0] o IH]; intros [|[k1 v1] o'] H;
    cbn [map fst] in H; try discriminate H; [reflexivity|].
  injection H as <- H. cbn [obj_insert_index].
  destruct (array_index k0) as [n0|]; [|cbn [map fst]; now rewrite H].
  destruct (n <? n0)%N; cbn [map fst]; [now rewrite H|].
  now rewrite (IH o' H).
Qed.

(** The keys after an assignment depend on the keys before it only. *)
Lemma obj_set_keys {A B : Type} (k : string) (v : A) (w : B)
    (o : obj A) (o' : obj B) :
  obj_keys o = obj_keys o' ->
  obj_keys (obj_set k v o) = obj_keys (obj_set k w o').
Proof.
  intros H. unfold obj_set. rewrite (obj_has_keys k o o' H).
  destruct (obj_has k o').
  - now rewrite !obj_keys_replace.
  - destruct (array_index k) as [n|].
    + now apply obj_insert_index_keys.
    + unfold obj_keys in *. rewrite !map_app. now rewrite H.
Qed.

Lemma infer_entries_listed (infer : value -> SchemaType)
    (entries : list (string * value)) :
  Forall (fun kv => fst kv <> "__proto__") entries ->
  obj_keys (fst (infer_entries infer entries))
  = obj_keys (obj_spread [] entries).
Proof.
  unfold infer_entries, obj_spread.
  assert (G : forall (props : obj SchemaType) (req : list string)
                     (base : obj value),
             Forall (fun kv : string * value => fst kv <> "__proto__") entries ->
             obj_keys props = obj_keys base ->
             obj_keys
               (fst (fold_left
                       (fun (acc : list (string * SchemaType) * list string) kv =>
                          let (props, req) := acc in
                          (obj_put (fst kv) (infer (snd kv)) props,
                           if is_defined (snd kv) then (req ++ [fst kv])%list
                           else req))
                       entries (props, req)))
             = obj_keys
                 (fold_left (fun acc kv => obj_set (fst kv) (snd kv) acc)
                    entries base)).
  { induction entries as [|[k v] entries IH]; intros props req base Hall Hk;
      cbn [fold_left fst snd]; [exact Hk|].
    inversion Hall as [|? ? Hproto Hall']; subst. cbn [fst] in Hproto.
    apply IH; [exact Hall'|]. unfold obj_put.
    apply String.eqb_neq in Hproto. rewrite Hproto.
    now apply obj_set_keys. }
  intros Hall. now apply G.
Qed.

Lemma filter_all {A : Type} (f : A -> bool) (l : list A) :
  Forall (fun x => f x = true) l -> filter f l = l.
Proof.
  induction 1 as [|x l Hx Hl IH]; cbn [filter]; [reflexivity|].
  now rewrite Hx, IH.
Qed.

Lemma mergeSchemas_saturated (x : SchemaType) (rest : list SchemaType) :
  Forall (fun s => saturated s = true) (x :: rest) ->
  saturated (mergeSchemas (x :: rest)) = true.
Proof.
  intros Hall.
  destruct (uniqueSchemas_facts x rest) as ((added & U & Hincl) & _).
  destruct (mergeSchemas_cases x rest) as [[_ ->]|[Hlen ->]].
  - now inversion Hall.
  - cbn [saturated union_node]. cbn [andb].
    apply forallb_forall. intros s Hs.
    rewrite Forall_forall in Hall. apply Hall.
    rewrite U in Hs. destruct Hs as [<-|Hs]; [now left|right; now apply Hincl].
Qed.

Lemma inferSchema_saturated (data : value) :
  plain_data data = true -> saturated (inferSchema data) = true.
Proof.
  induction data as [| |b|x|s|elements IH|entries IH|e] using value_induction;
    intros Hplain.
  - reflexivity.
  - reflexivity.
  - reflexivity.
  - cbn [inferSchema inferPrimitiveSchema].
    destruct (Number_isInteger x); reflexivity.
  - cbn [inferSchema inferPrimitiveSchema].
    destruct (Regex.test date_time_pattern s); [reflexivity|].
    destruct (Regex.test email_pattern s); [reflexivity|].
    destruct (Regex.test uuid_pattern s); reflexivity.
  - destruct elements as [|v elements]; [reflexivity|].
    change (saturated
              (array_node (mergeSchemas (map inferSchema (v :: elements))))
            = true).
    cbn [saturated array_node]. cbn [andb].
    cbn [map]. rewrite mergeSchemas_saturated; [reflexivity|].
    rewrite <- map_cons. apply Forall_map.
    cbn [plain_data] in Hplain. rewrite forallb_forall in Hplain.
    rewrite Forall_forall in IH |- *. intros x Hx.
    apply IH; [exact Hx|now apply Hplain].
  - cbn [plain_data] in Hplain. apply andb_prop in Hplain.
    destruct Hplain as [Hkeys Hentries]. apply same_names_eq in Hkeys.
    rewrite forallb_forall in Hentries.
    assert (Hproto : Forall (fun kv : string * value => fst kv <> "__proto__")
                       entries).
    { apply Forall_forall. intros kv Hin. specialize (Hentries kv Hin).
      apply andb_prop in Hentries. destruct Hentries as [Hd _].
      apply andb_prop in Hd. destruct Hd as [_ Hp].
      apply negb_true_iff in Hp. now apply String.eqb_neq. }
    assert (Hdef : Forall (fun kv : string * value => is_defined (snd kv) = true)
                     entries).
    { apply Forall_forall. intros kv Hin. specialize (Hentries kv Hin).
      apply andb_prop in Hentries. destruct Hentries as [Hd _].
      apply andb_prop in Hd. tauto. }
    assert (Hchildren : Forall (fun kv => saturated (inferSchema (snd kv)) = true)
                          entries).
    { rewrite Forall_forall in IH |- *. intros kv Hin. apply IH; [exact Hin|].
      specialize (Hentries kv Hin). apply andb_prop in Hentries. tauto. }
    pose proof (infer_entries_listed inferSchema entries Hproto) as Hlisted.
    pose proof (infer_entries_required inferSchema entries) as Hreq.
    pose proof (infer_entries_Forall (fun s => saturated s = true)
                  inferSchema entries Hchildren) as Hprops.
    rewrite (filter_all _ _ Hdef) in Hreq. rewrite Hkeys in Hlisted.
    cbn [inferSchema].
    destruct (infer_entries inferSchema entries) as [props req].
    cbn [fst snd] in *. subst req.
    cbn [saturated object_node]. rewrite !andb_true_r.
    apply andb_true_intro. split.
    + apply same_names_eq. rewrite Hlisted. unfold obj_keys.
      now destruct (map fst entries).
    + apply forallb_forall. rewrite Forall_forall in Hprops. exact Hprops.
  - destruct e; reflexivity.
Qed.

Lemma saturated_required (props : list (string * SchemaType))
    (req : option (list string)) (kv : string * SchemaType) :
  same_names (match req with Some r => r | None => [] end) (obj_keys props)
  = true ->
  In kv props ->
  isRequired req (fst kv) = true.
Proof.
  intros Hsame Hin. apply same_names_eq in Hsame.
  assert (Hk : In (fst kv) (obj_keys props)) by now apply in_map.
  rewrite <- Hsame in Hk. destruct req as [r|]; [|destruct Hk].
  now apply seen_iff_In.
Qed.

Lemma typescript_options_unread (schema : SchemaType) :
  saturated schema = true ->
  forall (o1 o2 : GenerateOptions) (depth : nat),
    generateTypeScriptFromSchema schema o1 depth
    = generateTypeScriptFromSchema schema o2 depth.
Proof.
  induction schema as [ty props its fmt req en Hprops Hits Hen]
    using SchemaType_induction.
  cbn [saturated]. intros Hsat o1 o2 depth.
  apply andb_prop in Hsat. destruct Hsat as [Hsat Hse].
  apply andb_prop in Hsat. destruct Hsat as [Hsat Hsi].
  apply andb_prop in Hsat. destruct Hsat as [Hsame Hsp].
  cbn [generateTypeScriptFromSchema].
  repeat match goal with
         | |- context [if String.eqb ty ?s then _ else _] =>
             destruct (String.eqb ty s)
         end; try reflexivity.
  - destruct its as [child|]; [|reflexivity].
    now rewrite (Hits Hsi o1 o2 (depth + 1)).
  - destruct props as [ps|]; [|reflexivity].
    f_equal. f_equal. f_equal. apply map_ext_in. intros kv Hin.
    rewrite (saturated_required ps req kv Hsame Hin). cbn [negb andb].
    rewrite Forall_forall in Hprops. rewrite forallb_forall in Hsp.
    now rewrite (Hprops kv Hin (Hsp kv Hin) o1 o2 (depth + 1)).
  - destruct en as [children|]; [|reflexivity].
    f_equal. apply map_ext_in. intros s Hin.
    rewrite Forall_forall in Hen. rewrite forallb_forall in Hse.
    now apply Hen; [|apply Hse].
Qed.

Lemma fold_left_ext_in {A B : Type} (f g : A -> B -> A) (l : list B) :
  (forall a b, In b l -> f a b = g a b) ->
  forall a, fold_left f l a = fold_left g l a.
Proof.
  induction l as [|b l IH]; intros H a; cbn [fold_left]; [reflexivity|].
  rewrite (H a b) by now left. apply IH. intros a' b' Hin. apply H. now right.
Qed.

Lemma jsonschema_options_unread (schema : SchemaType) :
  saturated schema = true ->
  forall o1 o2 : GenerateOptions,
    generateJsonSchemaFromSchema schema o1
    = generateJsonSchemaFromSchema schema o2.
Proof.
  induction schema as [ty props its fmt req en Hprops Hits Hen]
    using SchemaType_induction.
  cbn [saturated]. intros Hsat o1 o2.
  apply andb_prop in Hsat. destruct Hsat as [Hsat Hse].
  apply andb_prop in Hsat. destruct Hsat as [Hsat Hsi].
  apply andb_prop in Hsat. destruct Hsat as [Hsame Hsp].
  cbn [generateJsonSchemaFromSchema].
  repeat match goal with
         | |- context [if String.eqb ty ?s then _ else _] =>
             destruct (String.eqb ty s)
         end; try reflexivity.
  - destruct its as [child|]; [|reflexivity].
    now rewrite (Hits Hsi o1 o2).
  - apply same_names_eq in Hsame.
    destruct props as [ps|].
    + rewrite (fold_left_ext_in
                 (fun acc kv =>
                    obj_put (fst kv)
                      (JObject (generateJsonSchemaFromSchema (snd kv) o1)) acc)
                 (fun acc kv =>
                    obj_put (fst kv)
                      (JObject (generateJsonSchemaFromSchema (snd kv) o2)) acc)).
      * rewrite !set_required_members. rewrite Hsame.
        now destruct (inferOptional o1), (inferOptional o2).
      * intros acc kv Hin.
        rewrite Forall_forall in Hprops. rewrite forallb_forall in Hsp.
        now rewrite (Hprops kv Hin (Hsp kv Hin) o1 o2).
    + rewrite !set_required_members. rewrite Hsame.
      now destruct (inferOptional o1), (inferOptional o2).
  - destruct en as [[|c cs]|]; try reflexivity.
    assert (Hmap : map (fun s => JObject (generateJsonSchemaFromSchema s o1))
                     (c :: cs)
                   = map (fun s => JObject (generateJsonSchemaFromSchema s o2))
                       (c :: cs)).
    { apply map_ext_in. intros s Hin.
      rewrite Forall_forall in Hen. rewrite forallb_forall in Hse.
      f_equal. now apply Hen; [|apply Hse]. }
    now rewrite Hmap.
Qed.

(** X16: on data in which no mapping holds an undefined value or the key
    [__proto__], as [JSON.parse] gives it for text without that key,
    neither renderer depends on the options: every key is recorded as
    present, so inferOptional marks nothing optional and both [required]
    policies list the same names. *)
Theorem inferOptional_without_effect (data : value) (o1 o2 : GenerateOptions)
    (depth : nat) :
  plain_data data = true ->
  generateTypeScriptFromSchema (inferSchema data) o1 depth
  = generateTypeScriptFromSchema (inferSchema data) o2 depth
  /\ generateJsonSchemaFromSchema (inferSchema data) o1
     = generateJsonSchemaFromSchema (inferSchema data) o2.
Proof.
  intros Hplain. pose proof (inferSchema_saturated data Hplain) as Hsat. split.
  - now apply typescript_options_unread.
  - now apply jsonschema_options_unread.
Qed.

Lemma inferOptional_without_effect_witness :
  generateTypeScriptFromSchema (inferSchema (VArray [sample_ab; VNull]))
    (mkGenerateOptions true false None) 0
  = generateTypeScriptFromSchema (inferSchema (VArray [sample_ab; VNull]))
      (mkGenerateOptions false false None) 0
  /\ generateJsonSchemaFromSchema (inferSchema (VArray [sample_ab; VNull]))
       (mkGenerateOptions true false None)
     = generateJsonSchemaFromSchema (inferSchema (VArray [sample_ab; VNull]))
         (mkGenerateOptions false false None).
Proof.
  apply (inferOptional_without_effect (VArray [sample_ab; VNull])
           (mkGenerateOptions true false None)
           (mkGenerateOptions false false None) 0).
  reflexivity.
Defined.

(* ------------------------------------------------------------------ *)
(** ** The pass keeps documents readable *)

Lemma obj_spread_js_ordered {A : Type} (members : obj A) :
  forall base, js_ordered base -> js_ordered (obj_spread base members).
Proof.
  unfold obj_spread.
  induction members as [|[k v] members IH]; intros base Hb; cbn [fold_left];
    [exact Hb|].
  apply IH. now apply obj_set_ordered.
Qed.

Lemma js_ordered_of_ordered (o : obj json) : ordered o = true -> js_ordered o.
Proof.
  intros H. rewrite <- (ordered_replay o H).
  apply obj_spread_js_ordered, js_ordered_nil.
Qed.

Lemma printable_members (members : obj json) :
  printable (JObject members) = true ->
  js_ordered members /\ Forall (fun kv => printable (snd kv) = true) members.
Proof.
  cbn [printable]. intros H. apply andb_prop in H. destruct H as [Ho Hv].
  split; [now apply js_ordered_of_ordered|].
  apply Forall_forall. rewrite forallb_forall in Hv. exact Hv.
Qed.

Lemma obj_delete_keys_incl {A : Type} (k : string) (o : obj A) :
  incl (obj_keys (obj_delete k o)) (obj_keys o).
Proof.
  unfold obj_keys. induction o as [|[k' v'] o IH]; cbn [obj_delete map fst];
    [apply incl_refl|].
  destruct (String.eqb k k'); cbn [map fst].
  - apply incl_tl, incl_refl.
  - intros x [<-|Hx]; [now left|right; now apply IH].
Qed.

Lemma obj_delete_ordered {A : Type} (k : string) (o : obj A) :
  js_ordered o -> js_ordered (obj_delete k o).
Proof.
  unfold js_ordered.
  induction o as [|[k' v'] o IH]; cbn [obj_delete]; intros [Hnd Hs];
    [now split|].
  cbn [obj_keys map fst] in Hnd, Hs.
  inversion Hnd as [|? ? Hnot Hnd']; subst.
  inversion Hs as [|? ? Hs' Hall]; subst.
  destruct (String.eqb k k'); [now split|].
  destruct (IH (conj Hnd' Hs')) as [IH1 IH2].
  cbn [obj_keys map fst]. split; constructor; try assumption.
  - intros Hin. apply Hnot. now apply (obj_delete_keys_incl k o).
  - apply Forall_forall. intros x Hx. rewrite Forall_forall in Hall.
    apply Hall. now apply (obj_delete_keys_incl k o).
Qed.

Lemma obj_delete_Forall {A : Type} (P : A -> Prop) (k : string) (o : obj A) :
  Forall (fun kv => P (snd kv)) o ->
  Forall (fun kv => P (snd kv)) (obj_delete k o).
Proof.
  induction 1 as [|[k' v'] o Hh Ht IH]; cbn [obj_delete]; [constructor|].
  destruct (String.eqb k k'); [exact Ht|now constructor].
Qed.

Lemma obj_assign_ordered {A : Type} (src : obj A) :
  forall o, js_ordered o -> js_ordered (obj_assign o src).
Proof.
  unfold obj_assign.
  induction src as [|[k v] src IH]; intros o Ho; cbn [fold_left]; [exact Ho|].
  apply IH. now apply obj_put_ordered.
Qed.

Lemma obj_assign_Forall {A : Type} (P : A -> Prop) (src : obj A) :
  Forall (fun kv => P (snd kv)) src ->
  forall o, Forall (fun kv => P (snd kv)) o ->
            Forall (fun kv => P (snd kv)) (obj_assign o src).
Proof.
  unfold obj_assign.
  induction 1 as [|[k v] src Hh Ht IH]; intros o Ho; cbn [fold_left];
    [exact Ho|].
  apply IH. now apply obj_put_Forall.
Qed.

Lemma filter_unseen_Forall (P : json -> Prop) (subs : list json) :
  forall seen, Forall P subs -> Forall P (filter_unseen seen subs).
Proof.
  induction subs as [|sub subs IH]; intros seen H; cbn [filter_unseen];
    [constructor|].
  inversion H; subst.
  destruct (existsb (String.eqb (JSON_stringify sub)) seen);
    [now apply IH|constructor; [assumption|now apply IH]].
Qed.

Lemma indexed_Forall {A : Type} (P : A -> Prop) (l : list A) :
  forall i, Forall P l -> Forall (fun kv => P (snd kv)) (indexed i l).
Proof.
  induction l as [|x l IH]; intros i H; cbn [indexed]; [constructor|].
  inversion H; subst. constructor; [assumption|now apply IH].
Qed.

Lemma own_entries_printable (v : json) :
  printable v = true ->
  Forall (fun kv => printable (snd kv) = true) (own_entries v).
Proof.
  destruct v as [|b|lit|s|elements|members]; cbn [own_entries]; intros H;
    try constructor.
  - apply (indexed_Forall (fun v => printable v = true)).
    clear H. induction s as [|c s IH]; cbn [characters];
      [constructor|constructor; [reflexivity|exact IH]].
  - apply (indexed_Forall (fun v => printable v = true)).
    cbn [printable] in H.
    apply Forall_forall. rewrite forallb_forall in H. exact H.
  - now apply printable_members.
Qed.

Lemma collapse_printable (members : obj json) :
  js_ordered members ->
  Forall (fun kv => printable (snd kv) = true) members ->
  js_ordered (collapse_anyOf members)
  /\ Forall (fun kv => printable (snd kv) = true) (collapse_anyOf members).
Proof.
  intros Ho Hv. unfold collapse_anyOf.
  destruct (obj_get "anyOf" members) as [[| | | |subs|]|] eqn:Hget;
    try (split; assumption).
  pose proof (obj_get_Forall (fun v => printable v = true) _ _ _ Hv Hget)
    as Hsubs.
  cbn [printable] in Hsubs.
  assert (Hall : Forall (fun v => printable v = true) subs).
  { apply Forall_forall. rewrite forallb_forall in Hsubs. exact Hsubs. }
  pose proof (filter_unseen_Forall _ subs [] Hall) as Hf.
  set (filtered := filter_unseen [] subs) in *.
  assert (Hfp : printable (JArray filtered) = true).
  { cbn [printable]. apply forallb_forall. rewrite Forall_forall in Hf.
    exact Hf. }
  pose proof (obj_set_ordered "anyOf" (JArray filtered) members Ho) as Ho'.
  pose proof (obj_set_Forall (fun v => printable v = true) "anyOf"
                (JArray filtered) members Hfp Hv) as Hv'.
  destruct filtered as [|only [|second others]]; try (split; assumption).
  inversion Hf as [|? ? Honly _]; subst. split.
  - now apply obj_delete_ordered, obj_assign_ordered.
  - apply (obj_delete_Forall (fun v => printable v = true)).
    apply (obj_assign_Forall (fun v => printable v = true)); [|exact Hv'].
    now apply own_entries_printable.
Qed.

Lemma walk_fuel_printable (fuel : nat) :
  forall v, printable v = true -> printable (walk_fuel fuel v) = true.
Proof.
  induction fuel as [|fuel IH]; intros v Hp; [exact Hp|].
  destruct v as [|b|lit|s|elements|members]; cbn [walk_fuel]; try exact Hp.
  - cbn [printable] in *. rewrite forallb_forall in Hp.
    apply forallb_forall. intros x Hx. apply in_map_iff in Hx.
    destruct Hx as [e [<- He]]. now apply IH, Hp.
  - destruct (printable_members members Hp) as [Ho Hv].
    destruct (collapse_printable members Ho Hv) as [Hc Hcv].
    apply printable_object.
    + unfold js_ordered, obj_keys in *. rewrite map_map. cbn [fst].
      exact Hc.
    + apply Forall_forall. intros kv Hin. apply in_map_iff in Hin.
      destruct Hin as [[k v] [<- Hin]]. cbn [fst snd].
      rewrite Forall_forall in Hcv. apply IH. now apply (Hcv (k, v)).
Qed.

(** X17: the pass for the JSON-Schema target, applied to a generated
    document, never takes the [catch] branch: it returns the text of the
    walked document, indented when it is asked to prettify.  That text
    is read back by [JSON.parse] as the walked document, so a second pass
    returns the text of the document walked twice. *)
Theorem dedupeUnions_generated_document
    (localeCompare : string -> string -> Z) (fuel : nat)
    (schema : SchemaType) (options : GenerateOptions) (prettify : bool) :
  let render := fun v => if prettify then JSON_stringify_indent2 v
                         else JSON_stringify v in
  let document := schema_document schema options in
  dedupeUnions localeCompare fuel (generateJsonSchema schema options)
    jsonschema prettify = Some (render (walk document))
  /\ JSON_parse (render (walk document)) = Some (walk document)
  /\ dedupeUnions localeCompare fuel (render (walk document))
       jsonschema prettify = Some (render (walk (walk document))).
Proof.
  cbv zeta.
  pose proof (printable_document schema options) as Hp.
  pose proof (walk_fuel_printable _ _ Hp : printable (walk _) = true) as Hw.
  split; [|split].
  - cbn [dedupeUnions]. unfold generateJsonSchema.
    now rewrite (dedupe_jsonschema_text _ _ _ Hp).
  - destruct prettify.
    + now apply parse_stringify_indent2_aux.
    + now apply parse_stringify_aux.
  - cbn [dedupeUnions]. now rewrite (dedupe_jsonschema_text _ _ _ Hw).
Qed.

(* ------------------------------------------------------------------ *)
(** ** The pass for the interface target on text without a vertical bar *)

Section WithoutBar.
Import RegExp Alphabet.

Lemma chars_all_app (P : ascii -> bool) (a b : string) :
  chars_all P (a ++ b) = chars_all P a && chars_all P b.
Proof.
  induction a as [|c a IH]; cbn [append chars_all andb]; [reflexivity|].
  rewrite IH. apply andb_assoc.
Qed.

Lemma advance_chars_all (P : ascii -> bool) (n : nat) :
  forall st, chars_all P (rest st) = true ->
             chars_all P (rest (advance n st)) = true.
Proof.
  induction n as [|n IH]; intros st H; cbn [advance]; [exact H|].
  destruct (rest st) as [|c r] eqn:E; [now rewrite E|].
  apply IH. cbn [rest]. cbn [chars_all] in H. apply andb_prop in H. tauto.
Qed.

(** A pattern that needs [c], or whose continuation fails, fails at
    every position from which the text is without [c]. *)
Lemma run_without (c : ascii) (p : pattern) :
  forall st k,
    chars_all (other_than c) (rest st) = true ->
    needs c p = true
    \/ (forall st', chars_all (other_than c) (rest st') = true ->
                    k st' = None) ->
    run p st k = None.
Proof.
  induction p as [|f|a IHa b IHb|a IHa b IHb|a IHa|n a IHa|n| |a IHa];
    intros st k Hst Hk; cbn [run needs] in *.
  - destruct Hk as [Hk|Hk]; [discriminate Hk|now apply Hk].
  - destruct (rest st) as [|x r] eqn:E; [reflexivity|].
    cbn [chars_all] in Hst. apply andb_prop in Hst. destruct Hst as [Hx Hr].
    destruct (f x) eqn:Hf; [|reflexivity].
    destruct Hk as [Hk|Hk].
    + rewrite forallb_forall in Hk. specialize (Hk x (in_all_ascii x)).
      rewrite Hf in Hk. cbn [implb] in Hk. unfold other_than in Hx.
      now rewrite Hk in Hx.
    + now apply Hk.
  - apply IHa; [exact Hst|].
    destruct Hk as [Hk|Hk].
    + apply orb_prop in Hk. destruct Hk as [Hk|Hk]; [now left|].
      right. intros st' Hst'. apply IHb; [exact Hst'|now left].
    + right. intros st' Hst'. apply IHb; [exact Hst'|now right].
  - assert (Ha : run a st k = None).
    { apply IHa; [exact Hst|]. destruct Hk as [Hk|Hk]; [|now right].
      apply andb_prop in Hk. left. tauto. }
    rewrite Ha. apply IHb; [exact Hst|].
    destruct Hk as [Hk|Hk]; [|now right].
    apply andb_prop in Hk. left. tauto.
  - destruct Hk as [Hk|Hk]; [discriminate Hk|].
    generalize (String.length (rest st)) as fuel. intros fuel.
    revert st Hst. induction fuel as [|fuel IHf]; intros st Hst.
    + now apply Hk.
    + rewrite IHa; [now apply Hk|exact Hst|].
      right. intros st' Hst'.
      destruct (Nat.ltb (String.length (rest st')) (String.length (rest st)));
        [now apply IHf|reflexivity].
  - apply IHa; [exact Hst|].
    destruct Hk as [Hk|Hk]; [now left|].
    right. intros st' Hst'. now apply Hk.
  - destruct Hk as [Hk|Hk]; [discriminate Hk|].
    destruct (capture n (captures st)) as [s|]; [|now apply Hk].
    destruct (String.prefix s (rest st)); [|reflexivity].
    now apply Hk, advance_chars_all.
  - destruct Hk as [Hk|Hk]; [discriminate Hk|].
    destruct (xorb (word_before st) (word_after st)); [now apply Hk|reflexivity].
  - destruct Hk as [Hk|Hk]; [discriminate Hk|].
    destruct (run a st Some); [reflexivity|now apply Hk].
Qed.

Lemma match_at_without (c : ascii) (p : pattern) (before : option ascii)
    (s : string) :
  needs c p = true -> chars_all (other_than c) s = true ->
  match_at p before s = None.
Proof.
  intros Hp Hs. unfold match_at. cbv zeta.
  rewrite (run_without c p); [reflexivity|exact Hs|now left].
Qed.

Lemma replace_from_without (c : ascii) (p : pattern)
    (f : string -> list (nat * string) -> string) (s : string) :
  needs c p = true ->
  forall before,
    chars_all (other_than c) s = true -> replace_from p f before 0 s = s.
Proof.
  intros Hp. induction s as [|x s IH]; intros before Hs; cbn [replace_from].
  - now rewrite (match_at_without c p before EmptyString Hp).
  - rewrite (match_at_without c p before (String x s) Hp Hs).
    cbn [chars_all] in Hs. apply andb_prop in Hs. destruct Hs as [_ Hs].
    now rewrite IH.
Qed.

Lemma dedupe_pass_without (localeCompare : string -> string -> Z)
    (text : string) :
  no_bar text = true -> dedupe_pass localeCompare text = text.
Proof.
  intros Hs. unfold dedupe_pass, replace_all. cbv zeta.
  rewrite (replace_from_without "|" repeated_member); [|reflexivity|exact Hs].
  now rewrite (replace_from_without "|" member_pair); [|reflexivity|exact Hs].
Qed.

Lemma no_bar_app (a b : string) : no_bar (a ++ b) = no_bar a && no_bar b.
Proof. apply chars_all_app. Qed.

Lemma no_bar_concat (parts : list string) :
  Forall (fun part => no_bar part = true) parts ->
  no_bar (String.concat EmptyString parts) = true.
Proof.
  induction 1 as [|part parts Hp Hps IH]; [reflexivity|].
  cbn [String.concat]. destruct parts as [|q parts]; [exact Hp|].
  rewrite no_bar_app, Hp. cbn [append andb]. exact IH.
Qed.

Lemma no_bar_indent (n : nat) : no_bar (repeat_indent n) = true.
Proof.
  induction n as [|n IH]; [reflexivity|].
  cbn [repeat_indent]. now rewrite no_bar_app, IH.
Qed.

Lemma typescript_no_bar (schema : SchemaType) :
  bar_free schema = true ->
  forall (options : GenerateOptions) (depth : nat),
    no_bar (generateTypeScriptFromSchema schema options depth) = true.
Proof.
  induction schema as [ty props its fmt req en Hprops Hits Hen]
    using SchemaType_induction.
  cbn [bar_free]. intros Hfree options depth.
  apply andb_prop in Hfree. destruct Hfree as [Hfree Hchild].
  apply andb_prop in Hfree. destruct Hfree as [Hty Hps].
  cbn [generateTypeScriptFromSchema].
  repeat match goal with
         | |- context [if String.eqb ty ?s then _ else _] =>
             destruct (String.eqb ty s)
         end; try reflexivity; try discriminate Hty.
  - destruct (format_is fmt "date-time"); [reflexivity|].
    destruct (format_is fmt "email"); [reflexivity|].
    destruct (format_is fmt "uuid"); reflexivity.
  - rewrite no_bar_app.
    destruct its as [child|]; [|reflexivity].
    now rewrite (Hits Hchild options (depth + 1)).
  - destruct props as [ps|]; [|reflexivity].
    rewrite !no_bar_app, no_bar_indent, no_bar_concat; [reflexivity|].
    apply Forall_forall. intros part Hin.
    apply in_map_iff in Hin. destruct Hin as [kv [<- Hin]].
    rewrite Forall_forall in Hprops. rewrite forallb_forall in Hps.
    specialize (Hps kv Hin). apply andb_prop in Hps. destruct Hps as [Hk Hv].
    rewrite !no_bar_app, no_bar_indent, Hk.
    rewrite (Hprops kv Hin Hv options (depth + 1)).
    now destruct (negb (isRequired req (fst kv)) && inferOptional options).
Qed.

End WithoutBar.

(** X18: the pass for the interface target returns a text without a
    vertical bar unchanged, after a single turn of its loop. *)
Theorem dedupeUnions_typescript_without_bar
    (localeCompare : string -> string -> Z) (fuel : nat) (text : string)
    (prettify : bool) :
  no_bar text = true ->
  dedupeUnions localeCompare (S fuel) text typescript prettify = Some text.
Proof.
  intros Hs. cbn [dedupeUnions dedupe_typescript].
  rewrite (dedupe_pass_without localeCompare text Hs).
  now rewrite String.eqb_refl.
Qed.

Lemma dedupeUnions_typescript_without_bar_witness :
  dedupeUnions (fun _ _ => 0%Z) 1 "interface A { a: string; }" typescript false
  = Some "interface A { a: string; }".
Proof.
  apply (dedupeUnions_typescript_without_bar (fun _ _ => 0%Z) 0
           "interface A { a: string; }" false).
  reflexivity.
Defined.

(** X19: for a schema without union nodes whose property names hold no
    vertical bar, and an interface name without one, the pass for the
    interface target returns the interface text, as generated before any
    formatting, unchanged. *)
Theorem dedupeUnions_bar_free_interface
    (localeCompare : string -> string -> Z) (fuel : nat)
    (schema : SchemaType) (options : GenerateOptions) (prettify : bool) :
  bar_free schema = true ->
  no_bar (or_default (interfaceName options) "GeneratedInterface") = true ->
  dedupeUnions localeCompare (S fuel)
    (generateTypeScript_unformatted schema options) typescript prettify
  = Some (generateTypeScript_unformatted schema options).
Proof.
  intros Hfree Hname. cbn [dedupeUnions dedupe_typescript].
  rewrite dedupe_pass_without; [now rewrite String.eqb_refl|].
  unfold generateTypeScript_unformatted.
  rewrite !no_bar_app, Hname.
  now rewrite (typescript_no_bar schema Hfree options 0).
Qed.

Lemma dedupeUnions_bar_free_interface_witness :
  dedupeUnions (fun _ _ => 0%Z) 1
    (generateTypeScript_unformatted (inferSchema sample_ab) plain_options)
    typescript false
  = Some (generateTypeScript_unformatted (inferSchema sample_ab) plain_options).
Proof.
  apply (dedupeUnions_bar_free_interface (fun _ _ => 0%Z) 0
           (inferSchema sample_ab) plain_options false);
    reflexivity.
Defined.

Lemma dedupe_typescript_idempotent_witness :
  dedupeUnions (fun _ _ => 0%Z) 1 "string" typescript false = Some "string".
Proof.
  apply (dedupe_typescript_idempotent (fun _ _ => 0%Z) 3 "string | string"
           "string").
  reflexivity.
Defined.
